(** * bun_practice: a shallow embedding of the utility library

  The development follows the TypeScript sources:
  - [JS]: the fragment of the JavaScript run time the utilities rest on
    (IEEE 754 binary64 numbers, strict equality, a store of objects);
  - [ArrayUtils]: [src/utils/arrayUtils.ts], the weighted sampling and the
    weighted aggregates;
  - [ObjectUtils]: [src/utils/objectUtils.ts], deep clone, deep equality
    and the dotted-path accessors;
  - [StringUtils] and [ValidationUtils]: the two Luhn checks;
  - [Arrays]: the functions of [arrayUtils.ts] on plain arrays (slicing,
    chunking, set operations, searching, grouping, enumeration);
  - [ObjectPaths]: [unset] of [objectUtils.ts];
  - [Strings] and [Levenshtein]: the functions of stringUtils that go by
    code unit, with strings as sequences of UTF-16 code units;
  - [Validation]: [hasUniqueValues], [combineValidations] and [validate]
    of [validationUtils.ts].

  What the embedding covers. Numbers are binary64 values with their NaN,
  infinities and signed zeros. The element type of the generic array
  functions is any type with decidable equality, which stands for the
  equality of [Map] and [Set], and with [NaN] told apart, on which [===]
  fails; [undefined] is set apart as the absence of a result. Counts and
  sizes are integers. [Math.random] is a state that is passed along.
  Objects are Dates, dense arrays, Sets, Maps and plain records in a store;
  a record is its own enumerable properties, and whatever would involve its
  prototype chain is left without a rule. Strings are their bytes, which is
  exact for all that is done here: dropping what is not an ASCII digit and
  splitting at dots.

  Definitions come first, the statements about them afterwards. *)

From Stdlib Require Import ZArith Bool Lia.
From Stdlib Require Import Floats.SpecFloat.
From Stdlib Require Import Ascii DecimalString.
From stdpp Require Import base option list strings.

Local Open Scope Z_scope.

(** ** Numbers *)

Module Num.

(** A JavaScript number is an IEEE 754 binary64 value; [spec_float] is the
    Standard Library's executable model of it (signed zeros, infinities, one
    NaN, finite values), instantiated at 53 bits of precision. *)
Definition number : Type := spec_float.

Definition prec : Z := 53.
Definition emax : Z := 1024.

Definition add : number → number → number := SFadd prec emax.
Definition mul : number → number → number := SFmul prec emax.
Definition div : number → number → number := SFdiv prec emax.

(** [x < y], [x <= y] and [x === y] on numbers: every comparison with NaN
    is false, and the two zeros are equal. *)
Definition ltb : number → number → bool := SFltb.
Definition leb : number → number → bool := SFleb.
Definition eqb : number → number → bool := SFeqb.

Definition zero : number := S754_zero false.
Definition NaN : number := S754_nan.

(** The number denoted by an integer literal. *)
Definition of_Z (z : Z) : number := binary_normalize prec emax z 0 false.

Definition is_nan (x : number) : bool :=
  match x with S754_nan => true | _ => false end.

End Num.

Abbreviation number := Num.number (only parsing).

(** ** The JavaScript fragment *)

Module JS.

(** The exceptions the utilities raise themselves ([LengthMismatch] and
    [InvalidWeight], the two [throw new Error] messages of arrayUtils.ts) and
    the one the run time raises under them. *)
Inductive error : Type :=
| LengthMismatch
| InvalidWeight
| TypeError.

(** What a call comes to: a value, a raised exception, a step the embedding
    has no rule for ([Stuck]: a dangling reference, a property that would be
    found on a built-in prototype, a property other than an element written
    onto an array, any property of a Date, a Set or a Map), or recursion
    deeper than the fuel given ([OutOfFuel]). *)
Inductive outcome (A : Type) : Type :=
| Ret (a : A)
| Throw (e : error)
| Stuck
| OutOfFuel.
Arguments Ret {A} a.
Arguments Throw {A} e.
Arguments Stuck {A}.
Arguments OutOfFuel {A}.

(** Sequencing: the first outcome that is not a value ends the call.
    Through the two instances stdpp's [x ← m; k] is the notation for it. *)
Definition bind {A B : Type} (k : A → outcome B) (m : outcome A)
    : outcome B :=
  match m with
  | Ret a => k a
  | Throw e => Throw e
  | Stuck => Stuck
  | OutOfFuel => OutOfFuel
  end.

#[export] Instance outcome_ret : MRet outcome := @Ret.
#[export] Instance outcome_bind : MBind outcome := @bind.

(** *** Values and the store

    Objects live in a store and are named by their location, so that [===]
    on objects is identity and an assignment to a property is seen through
    every reference to the object. *)
Abbreviation loc := nat (only parsing).

Inductive value : Type :=
| VUndefined
| VNull
| VBool (b : bool)
| VNum (x : number)
| VStr (s : string)
| VRef (l : loc).

(** The objects the utilities tell apart: a Date with its time value, an
    array with its elements, a Set, a Map with its entries in insertion
    order, and a plain record with its own enumerable properties in the
    order [Object.keys] lists them. Arrays are dense and, like Dates, Sets
    and Maps, carry no further own property. *)
Inductive object : Type :=
| ODate (time : number)
| OArray (elems : list value)
| OSet (elems : list value)
| OMap (entries : list (value * value))
| ORecord (props : list (string * value)).

Abbreviation heap := (list object) (only parsing).

(** A new object is stored at the first unused location. *)
Definition alloc (o : object) (h : heap) : value * heap :=
  (VRef (length h), h ++ [o]).

Inductive type_name : Type :=
| TUndefined | TObject | TBoolean | TNumber | TString.

#[export] Instance type_name_eq_dec : EqDecision type_name.
Proof. solve_decision. Defined.

(** [typeof v]; [typeof null] is ["object"]. *)
Definition typeof (v : value) : type_name :=
  match v with
  | VUndefined => TUndefined
  | VNull => TObject
  | VBool _ => TBoolean
  | VNum _ => TNumber
  | VStr _ => TString
  | VRef _ => TObject
  end.

(** [a === b] *)
Definition strict_eq (a b : value) : bool :=
  match a, b with
  | VUndefined, VUndefined => true
  | VNull, VNull => true
  | VBool x, VBool y => Bool.eqb x y
  | VNum x, VNum y => Num.eqb x y
  | VStr x, VStr y => String.eqb x y
  | VRef x, VRef y => (x =? y)%nat
  | _, _ => false
  end.

(** SameValueZero, the equality of the elements of a Set and of the keys of
    a Map: [===], except that NaN equals NaN. *)
Definition same_value_zero (a b : value) : bool :=
  match a, b with
  | VNum x, VNum y => Num.eqb x y || (Num.is_nan x && Num.is_nan y)
  | _, _ => strict_eq a b
  end.

Definition is_null (v : value) : bool :=
  match v with VNull => true | _ => false end.
Definition is_undefined (v : value) : bool :=
  match v with VUndefined => true | _ => false end.

(** [set.add(x)] and [new Set(iterable)] *)
Definition Set_add (elems : list value) (x : value) : list value :=
  if existsb (same_value_zero x) elems then elems else elems ++ [x].

Definition Set_of (l : list value) : list value := fold_left Set_add l [].

(** [map.set(key, x)] on the entries of a Map *)
Fixpoint entries_set (entries : list (value * value)) (key x : value)
    : list (value * value) :=
  match entries with
  | [] => [(key, x)]
  | (k, y) :: rest =>
      if same_value_zero k key then (k, x) :: rest
      else (k, y) :: entries_set rest key x
  end.

(** *** Properties *)

(** A key that is an array index: the canonical decimal numeral of an
    integer below [2^32 - 1]. *)
Definition array_index (key : string) : option N :=
  match NilEmpty.uint_of_string key with
  | Some d =>
      let i := N.of_uint d in
      if String.eqb (NilEmpty.string_of_uint (N.to_uint i)) key
         && (i <? 4294967295)%N
      then Some i else None
  | None => None
  end.

Fixpoint props_get (props : list (string * value)) (key : string)
    : option value :=
  match props with
  | [] => None
  | (k, x) :: rest => if String.eqb k key then Some x else props_get rest key
  end.

Fixpoint props_update (props : list (string * value)) (key : string)
    (x : value) : list (string * value) :=
  match props with
  | [] => []
  | (k, y) :: rest =>
      if String.eqb k key then (k, x) :: rest
      else (k, y) :: props_update rest key x
  end.

(** Own keys are listed with the array indices first, in ascending order,
    and the other keys after them in the order of their creation. *)
Definition listed_before (key k : string) : bool :=
  match array_index key, array_index k with
  | Some i, Some j => (i <? j)%N
  | Some _, None => true
  | None, _ => false
  end.

Fixpoint props_add (props : list (string * value)) (key : string)
    (x : value) : list (string * value) :=
  match props with
  | [] => [(key, x)]
  | (k, y) :: rest =>
      if listed_before key k then (key, x) :: (k, y) :: rest
      else (k, y) :: props_add rest key x
  end.

Definition props_set (props : list (string * value)) (key : string)
    (x : value) : list (string * value) :=
  match props_get props key with
  | Some _ => props_update props key x
  | None => props_add props key x
  end.

(** The names every plain object inherits from [Object.prototype]. The
    prototype chain is not part of the store: a lookup that would be
    answered by it is [Stuck]. *)
Definition Object_prototype_names : list string :=
  [ "constructor"; "__defineGetter__"; "__defineSetter__"; "hasOwnProperty";
    "__lookupGetter__"; "__lookupSetter__"; "isPrototypeOf";
    "propertyIsEnumerable"; "toString"; "valueOf"; "__proto__";
    "toLocaleString" ]%string.

Definition inherited (key : string) : bool :=
  existsb (String.eqb key) Object_prototype_names.

(** [Object.keys(o)] *)
Definition Object_keys (o : object) : list string :=
  match o with
  | ORecord props => fst <$> props
  | OArray elems =>
      (fun i => NilEmpty.string_of_uint (Nat.to_uint i))
        <$> seq 0 (length elems)
  | ODate _ | OSet _ | OMap _ => []
  end.

(** [key in v]: a TypeError when [v] is not an object. *)
Definition js_in (h : heap) (key : string) (v : value) : outcome bool :=
  match v with
  | VRef l =>
      match h !! l with
      | Some (ORecord props) =>
          match props_get props key with
          | Some _ => Ret true
          | None => if inherited key then Stuck else Ret false
          end
      | Some (OArray elems) =>
          match array_index key with
          | Some i => Ret (i <? N.of_nat (length elems))%N
          | None => if String.eqb key "length" then Ret true else Stuck
          end
      | Some (ODate _ | OSet _ | OMap _) => Stuck
      | None => Stuck
      end
  | _ => Throw TypeError
  end.

(** [v[key]]: a TypeError on [null] and [undefined]; the properties of the
    other primitives (the characters of a string, the methods of the
    wrappers) are not modelled. *)
Definition js_get (h : heap) (v : value) (key : string) : outcome value :=
  match v with
  | VRef l =>
      match h !! l with
      | Some (ORecord props) =>
          match props_get props key with
          | Some x => Ret x
          | None => if inherited key then Stuck else Ret VUndefined
          end
      | Some (OArray elems) =>
          match array_index key with
          | Some i => Ret (default VUndefined (elems !! N.to_nat i))
          | None =>
              if String.eqb key "length"
              then Ret (VNum (Num.of_Z (Z.of_nat (length elems))))
              else Stuck
          end
      | Some (ODate _ | OSet _ | OMap _) => Stuck
      | None => Stuck
      end
  | VUndefined | VNull => Throw TypeError
  | _ => Stuck
  end.

(** [v[key] = x] in strict code (a module is strict): a TypeError when [v]
    is a primitive. On a record the property is created or overwritten;
    the key ["__proto__"] that is not an own property reaches the setter of
    [Object.prototype], which ignores a primitive [x] and otherwise replaces
    the prototype. *)
Definition js_put (h : heap) (v : value) (key : string) (x : value)
    : outcome heap :=
  match v with
  | VRef l =>
      match h !! l with
      | Some (ORecord props) =>
          match props_get props key, String.eqb key "__proto__", x with
          | None, true, (VRef _ | VNull) => Stuck
          | None, true, _ => Ret h
          | _, _, _ => Ret (<[l := ORecord (props_set props key x)]> h)
          end
      | Some (OArray elems) =>
          match array_index key with
          | Some i =>
              if (i <? N.of_nat (length elems))%N
              then Ret (<[l := OArray (<[N.to_nat i := x]> elems)]> h)
              else Stuck
          | None => Stuck
          end
      | Some (ODate _ | OSet _ | OMap _) => Stuck
      | None => Stuck
      end
  | VUndefined | VNull => Throw TypeError
  | VBool _ | VNum _ | VStr _ =>
      if String.eqb key "__proto__" then Stuck else Throw TypeError
  end.

(** [map.set(key, x)] for [map] a reference to a Map *)
Definition Map_set (h : heap) (map key x : value) : outcome heap :=
  match map with
  | VRef l =>
      match h !! l with
      | Some (OMap entries) => Ret (<[l := OMap (entries_set entries key x)]> h)
      | _ => Stuck
      end
  | _ => Stuck
  end.

(** *** Iteration with effects *)

(** [array.map(f)] for an [f] that allocates: the store is threaded
    through the calls from left to right. *)
Fixpoint map_heap {A B : Type} (f : A → heap → outcome (B * heap))
    (l : list A) (h : heap) : outcome (list B * heap) :=
  match l with
  | [] => Ret ([], h)
  | x :: l =>
      '(y, h) ← f x h;
      '(ys, h) ← map_heap f l h;
      Ret (y :: ys, h)
  end.

(** [array.forEach(f)] for an [f] that updates the store *)
Fixpoint forEach_heap {A : Type} (f : A → heap → outcome heap)
    (l : list A) (h : heap) : outcome heap :=
  match l with
  | [] => Ret h
  | x :: l => h ← f x h; forEach_heap f l h
  end.

(** [array.every(f)], [index] being the position of the head of [l]: it
    stops at the first element for which [f] is false. *)
Fixpoint every_from {A : Type} (f : A → nat → outcome bool) (l : list A)
    (index : nat) : outcome bool :=
  match l with
  | [] => Ret true
  | x :: l =>
      ok ← f x index;
      if ok : bool then every_from f l (S index) else Ret false
  end.

End JS.

Export JS.

(** ** arrayUtils.ts *)

Module ArrayUtils.

(** [weights.reduce((sum, weight) => sum + weight, 0)] *)
Definition reduce_sum (weights : list number) : number :=
  fold_left (fun sum weight => Num.add sum weight) weights Num.zero.

(** [weights[index]!] inside an arithmetic expression: out of range the
    read is [undefined], which arithmetic turns into NaN. *)
Definition weight_at (weights : list number) (index : nat) : number :=
  default Num.NaN (weights !! index).

(** [x === y] on the elements of an array. Equality on the element type
    stands for the equality that [Map], [Set] and [includes] go by
    (SameValueZero); [===] differs from it on [NaN] alone, which is not
    [===] to itself. [is_NaN] tells the elements that are [NaN]. *)
Class StrictEquality (T : Type) := is_NaN : T → bool.

Definition strict_equal {T : Type} `{EqDecision T} `{StrictEquality T}
    (x y : T) : bool :=
  bool_decide (x = y) && negb (is_NaN x).

(** No string is [NaN]. *)
#[export] Instance string_strict_equality : StrictEquality string :=
  fun _ => false.

Section Weighted.

(** The element type [T] of the TypeScript generics: values whose equality
    stands for the key equality of [Map], with [strict_equal] for the [===]
    that [indexOf] goes by; [undefined] is not one of them, it is the
    [None] of an [option T]. *)
Context {T : Type} `{EqDecision T} `{StrictEquality T}.

(** [Math.random] is the one effect of the module: a generator state is
    threaded through the calls, each call yielding a number and the next
    state. *)
Context {RNG : Type} (Math_random : RNG → number * RNG).

(** The [for] loop of [weightedSample]: [i] is the loop index and
    [remaining] is [array.length - i]; the index at which
    [random <= cumulativeWeight] first holds, if any. *)
Fixpoint sample_loop (weights : list number) (random cumulativeWeight : number)
    (i remaining : nat) : option nat :=
  match remaining with
  | O => None
  | S remaining =>
      let cumulativeWeight := Num.add cumulativeWeight (weight_at weights i) in
      if Num.leb random cumulativeWeight then Some i
      else sample_loop weights random cumulativeWeight (S i) remaining
  end.

Definition weightedSample (array : list T) (weights : list number) (g : RNG)
    : outcome (option T) * RNG :=
  if (length array =? 0)%nat || (length weights =? 0)%nat then (Ret None, g)
  else if negb (length array =? length weights)%nat
  then (Throw LengthMismatch, g)
  else if existsb (fun w => Num.ltb w Num.zero) weights
  then (Throw InvalidWeight, g)
  else
    let totalWeight := reduce_sum weights in
    if Num.eqb totalWeight Num.zero then (Ret None, g)
    else
      let '(u, g) := Math_random g in
      let random := Num.mul u totalWeight in
      match sample_loop weights random Num.zero 0 (length array) with
      | Some i => (Ret (array !! i), g)
      | None => (Ret (last array), g) (* fallback *)
      end.

(** [n] samples with replacement, for an integer [n]: the body runs [n]
    times for a positive [n]. (For a fractional [n] the loop of the source
    runs once more than the integer below it; that case is not part of
    this definition.) *)
Fixpoint sampleSize_loop (array : list T) (weights : list number)
    (count : nat) (result : list T) (g : RNG) : outcome (list T) * RNG :=
  match count with
  | O => (Ret result, g)
  | S count =>
      match weightedSample array weights g with
      | (Ret (Some sample), g) =>
          sampleSize_loop array weights count (result ++ [sample]) g
      | (Ret None, g) => sampleSize_loop array weights count result g
      | (Throw e, g) => (Throw e, g)
      | (Stuck, g) => (Stuck, g)
      | (OutOfFuel, g) => (OutOfFuel, g)
      end
  end.

Definition weightedSampleSize (array : list T) (weights : list number) (n : Z)
    (g : RNG) : outcome (list T) * RNG :=
  if n <=? 0 then (Ret [], g)
  else if (length array =? 0)%nat || (length weights =? 0)%nat then (Ret [], g)
  else sampleSize_loop array weights (Z.to_nat n) [] g.

(** [array.indexOf(x)]: the first index holding an element that is [===]
    to [x], or [-1]; [NaN] is found nowhere. *)
Fixpoint indexOf_from (i : Z) (array : list T) (x : T) : Z :=
  match array with
  | [] => -1
  | y :: rest => if strict_equal y x then i else indexOf_from (i + 1) rest x
  end.

Definition indexOf (array : list T) (x : T) : Z := indexOf_from 0 array x.

(** [array.splice(index, 1)]: a negative [index] counts from the end. *)
Definition splice1 {A : Type} (index : Z) (array : list A) : list A :=
  let len := Z.of_nat (length array) in
  let start := if index <? 0 then Z.max (len + index) 0 else Z.min index len in
  delete (Z.to_nat start) array.

(** The loop of [weightedSampleSizeWithoutReplacement] over the working
    pool [availableItems], [availableWeights]; [count] is
    [Math.min(n, array.length)] for an integer [n]. *)
Fixpoint withoutReplacement_loop (count : nat)
    (availableItems : list T) (availableWeights : list number)
    (result : list T) (g : RNG) : outcome (list T) * RNG :=
  match count with
  | O => (Ret result, g)
  | S count =>
      match weightedSample availableItems availableWeights g with
      | (Ret (Some sample), g) =>
          let index := indexOf availableItems sample in
          withoutReplacement_loop count
            (splice1 index availableItems) (splice1 index availableWeights)
            (result ++ [sample]) g
      | (Ret None, g) =>
          withoutReplacement_loop count availableItems availableWeights result g
      | (Throw e, g) => (Throw e, g)
      | (Stuck, g) => (Stuck, g)
      | (OutOfFuel, g) => (OutOfFuel, g)
      end
  end.

Definition weightedSampleSizeWithoutReplacement (array : list T)
    (weights : list number) (n : Z) (g : RNG) : outcome (list T) * RNG :=
  if n <=? 0 then (Ret [], g)
  else if (length array =? 0)%nat || (length weights =? 0)%nat then (Ret [], g)
  else if negb (length array =? length weights)%nat
  then (Throw LengthMismatch, g)
  else
    withoutReplacement_loop (Z.to_nat (Z.min n (Z.of_nat (length array))))
      array weights [] g.

End Weighted.

Section Aggregates.

Context {T : Type} `{EqDecision T}.

(** [values.reduce((sum, value, index) => sum + value * weights[index]!, 0)],
    with [index] the position of [value]. *)
Fixpoint reduce_products (values weights : list number) (index : nat)
    (sum : number) : number :=
  match values with
  | [] => sum
  | value :: rest =>
      reduce_products rest weights (S index)
        (Num.add sum (Num.mul value (weight_at weights index)))
  end.

Definition weightedAverage (values weights : list number) : outcome number :=
  if (length values =? 0)%nat || (length weights =? 0)%nat then Ret Num.zero
  else if negb (length values =? length weights)%nat then Throw LengthMismatch
  else
    let weightedSum := reduce_products values weights 0 Num.zero in
    let totalWeight := reduce_sum weights in
    Ret (if Num.eqb totalWeight Num.zero then Num.zero
         else Num.div weightedSum totalWeight).

Definition weightedSum (values weights : list number) : outcome number :=
  if (length values =? 0)%nat || (length weights =? 0)%nat then Ret Num.zero
  else if negb (length values =? length weights)%nat then Throw LengthMismatch
  else Ret (reduce_products values weights 0 Num.zero).

(** A [Map<T, number>] in insertion order: [get] and [set] by key. *)
Fixpoint TMap_get (m : list (T * number)) (key : T) : option number :=
  match m with
  | [] => None
  | (k, x) :: rest => if decide (k = key) then Some x else TMap_get rest key
  end.

Fixpoint TMap_set (m : list (T * number)) (key : T) (v : number)
    : list (T * number) :=
  match m with
  | [] => [(key, v)]
  | (k, x) :: rest =>
      if decide (k = key) then (k, v) :: rest
      else (k, x) :: TMap_set rest key v
  end.

(** [x || 0] for [x] a number or [undefined]: zero and NaN are falsy. *)
Definition or_zero (x : option number) : number :=
  match x with
  | Some x => if Num.eqb x Num.zero || Num.is_nan x then Num.zero else x
  | None => Num.zero
  end.

(** The [forEach] of [weightedFrequency], [index] being the position of the
    head of [array]. *)
Fixpoint frequency_loop (array : list T) (weights : list number) (index : nat)
    (frequency : list (T * number)) : list (T * number) :=
  match array with
  | [] => frequency
  | item :: rest =>
      let currentWeight := or_zero (TMap_get frequency item) in
      frequency_loop rest weights (S index)
        (TMap_set frequency item
           (Num.add currentWeight (weight_at weights index)))
  end.

Definition weightedFrequency (array : list T) (weights : list number)
    : outcome (list (T * number)) :=
  if negb (length array =? length weights)%nat then Throw LengthMismatch
  else Ret (frequency_loop array weights 0 []).

(** The scans of [weightedMax] and [weightedMin]: [i] is the loop index,
    [remaining] is [weights.length - i]. [better w best] is [w > best] for
    the maximum, [w < best] for the minimum. *)
Fixpoint extreme_loop (better : number → number → bool) (weights : list number)
    (i remaining : nat) (bestWeight : number) (bestIndex : nat) : nat :=
  match remaining with
  | O => bestIndex
  | S remaining =>
      if better (weight_at weights i) bestWeight
      then extreme_loop better weights (S i) remaining (weight_at weights i) i
      else extreme_loop better weights (S i) remaining bestWeight bestIndex
  end.

Definition weightedMax (array : list T) (weights : list number)
    : outcome (option T) :=
  if (length array =? 0)%nat || (length weights =? 0)%nat then Ret None
  else if negb (length array =? length weights)%nat then Throw LengthMismatch
  else
    let maxWeight := weight_at weights 0 in
    let maxIndex :=
      extreme_loop (fun w best => Num.ltb best w) weights
        1 (length weights - 1) maxWeight 0 in
    Ret (array !! maxIndex).

Definition weightedMin (array : list T) (weights : list number)
    : outcome (option T) :=
  if (length array =? 0)%nat || (length weights =? 0)%nat then Ret None
  else if negb (length array =? length weights)%nat then Throw LengthMismatch
  else
    let minWeight := weight_at weights 0 in
    let minIndex :=
      extreme_loop (fun w best => Num.ltb w best) weights
        1 (length weights - 1) minWeight 0 in
    Ret (array !! minIndex).

End Aggregates.

(** A random source for worked examples: every call of [Math.random]
    yields the same number [u]; the state counts the calls. *)
Definition fixed_source (u : number) (calls : nat) : number * nat :=
  (u, S calls).

End ArrayUtils.

(** ** objectUtils.ts *)

Module ObjectUtils.

(** [deepClone(obj)]. The recursion of the source is not structural (a
    cyclic object sends it round for ever), so the embedding takes the
    depth of calls it may use as [fuel]. *)
Fixpoint deepClone (fuel : nat) (obj : value) (h : heap)
    : outcome (value * heap) :=
  match fuel with
  | O => OutOfFuel
  | S fuel =>
      match obj with
      | VRef l =>
          match h !! l with
          | None => Stuck
          | Some (ODate time) => Ret (alloc (ODate time) h)
          | Some (OArray elems) =>
              '(items, h) ← map_heap (deepClone fuel) elems h;
              Ret (alloc (OArray items) h)
          | Some (OSet elems) =>
              '(items, h) ← map_heap (deepClone fuel) elems h;
              Ret (alloc (OSet (Set_of items)) h)
          | Some (OMap entries) =>
              let '(cloned, h) := alloc (OMap []) h in
              h ← forEach_heap
                    (fun '(key, value) h =>
                       '(key, h) ← deepClone fuel key h;
                       '(value, h) ← deepClone fuel value h;
                       Map_set h cloned key value)
                    entries h;
              Ret (cloned, h)
          | Some (ORecord props) =>
              let '(cloned, h) := alloc (ORecord []) h in
              h ← forEach_heap
                    (fun key h =>
                       x ← js_get h obj key;
                       '(x, h) ← deepClone fuel x h;
                       js_put h cloned key x)
                    (Object_keys (ORecord props)) h;
              Ret (cloned, h)
          end
      | _ => Ret (obj, h)
      end
  end.

Definition is_Array (o : object) : bool :=
  match o with OArray _ => true | _ => false end.

(** [deepEqual(a, b)], with [fuel] as for [deepClone]. *)
Fixpoint deepEqual (fuel : nat) (h : heap) (a b : value) : outcome bool :=
  match fuel with
  | O => OutOfFuel
  | S fuel =>
      if strict_eq a b then Ret true
      else if is_null a || is_null b then Ret false
      else if negb (bool_decide (typeof a = typeof b)) then Ret false
      else if negb (bool_decide (typeof a = TObject)) then Ret false
      else
        match a, b with
        | VRef la, VRef lb =>
            match h !! la, h !! lb with
            | Some oa, Some ob =>
                match oa, ob with
                | ODate ta, ODate tb => Ret (Num.eqb ta tb)
                | OArray ea, OArray eb =>
                    if negb (length ea =? length eb)%nat then Ret false
                    else
                      every_from
                        (fun item index =>
                           deepEqual fuel h item
                             (default VUndefined (eb !! index)))
                        ea 0
                | _, _ =>
                    if is_Array oa || is_Array ob then Ret false
                    else
                      let keysA := Object_keys oa in
                      let keysB := Object_keys ob in
                      if negb (length keysA =? length keysB)%nat then Ret false
                      else
                        every_from
                          (fun key _ =>
                             if existsb (String.eqb key) keysB
                             then x ← js_get h a key;
                                  y ← js_get h b key;
                                  deepEqual fuel h x y
                             else Ret false)
                          keysA 0
                end
            | _, _ => Stuck
            end
        | _, _ => Stuck
        end
  end.

(** [path.split('.')]: the segments between the dots, one more than there
    are dots; the empty string has the one segment [""]. *)
Fixpoint split_dots (path : string) : list string :=
  match path with
  | EmptyString => [EmptyString]
  | String c rest =>
      if Ascii.eqb c "."%char then EmptyString :: split_dots rest
      else
        match split_dots rest with
        | segment :: segments => String c segment :: segments
        | [] => [String c EmptyString]
        end
  end.

(** The [for] loop of [get] over the remaining [keys]. *)
Fixpoint get_loop (h : heap) (keys : list string) (current defaultValue : value)
    : outcome value :=
  match keys with
  | [] => Ret current
  | key :: keys =>
      if is_null current || is_undefined current then Ret defaultValue
      else
        present ← js_in h key current;
        if negb present then Ret defaultValue
        else
          current ← js_get h current key;
          get_loop h keys current defaultValue
  end.

(** [get(obj, path, defaultValue)]; an omitted [defaultValue] is
    [undefined]. *)
Definition get (h : heap) (obj : value) (path : string) (defaultValue : value)
    : outcome value :=
  let keys := split_dots path in
  get_loop h keys obj defaultValue.

(** The loop of [set] over all the keys but the last, then the final
    assignment. With no key at all [keys[keys.length - 1]] is [undefined],
    which names the property ["undefined"]. *)
Fixpoint set_loop (h : heap) (keys : list string) (current value : value)
    : outcome heap :=
  match keys with
  | [] => js_put h current "undefined" value
  | [lastKey] => js_put h current lastKey value
  | key :: keys =>
      present ← js_in h key current;
      absent_or_not_object ←
        (if negb present then Ret true
         else x ← js_get h current key;
              Ret (negb (bool_decide (typeof x = TObject))));
      h ← (if absent_or_not_object : bool
           then let '(empty, h) := alloc (ORecord []) h in
                js_put h current key empty
           else Ret h);
      current ← js_get h current key;
      set_loop h keys current value
  end.

(** [set(obj, path, value)] changes the store. *)
Definition set (h : heap) (obj : value) (path : string) (value : value)
    : outcome heap :=
  let keys := split_dots path in
  set_loop h keys obj value.

Fixpoint has_loop (h : heap) (keys : list string) (current : value)
    : outcome bool :=
  match keys with
  | [] => Ret true
  | key :: keys =>
      if is_null current || is_undefined current then Ret false
      else
        present ← js_in h key current;
        if negb present then Ret false
        else
          current ← js_get h current key;
          has_loop h keys current
  end.

Definition has (h : heap) (obj : value) (path : string) : outcome bool :=
  let keys := split_dots path in
  has_loop h keys obj.

End ObjectUtils.

(** ** The shape of a value in the store *)

Module Shape.

(** The values an object holds. *)
Definition children (o : object) : list value :=
  match o with
  | ODate _ => []
  | OArray elems => elems
  | OSet elems => elems
  | OMap entries => flat_map (fun '(key, x) => [key; x]) entries
  | ORecord props => snd <$> props
  end.

(** [every_reachable P Q d h v]: every chain of references from [v] ends
    within [d] objects, all of them allocated in [h]; every value met on
    the way satisfies [P] and every object [Q]. *)
Fixpoint every_reachable (P : value → bool) (Q : object → bool) (d : nat)
    (h : heap) (v : value) : bool :=
  P v &&
  match v with
  | VRef l =>
      match d with
      | O => false
      | S d =>
          match h !! l with
          | None => false
          | Some o => Q o && forallb (every_reachable P Q d h) (children o)
          end
      end
  | _ => true
  end.

(** A value without cycle: its references nest at most [d] deep. *)
Definition acyclic : nat → heap → value → bool :=
  every_reachable (fun _ => true) (fun _ => true).

(** No number is NaN. *)
Definition plain_value (v : value) : bool :=
  match v with
  | VNum x => negb (Num.is_nan x)
  | _ => true
  end.

(** No Date is invalid (its time value is not NaN), and no record has an
    own key ["__proto__"]; the own keys of a record are distinct, as they
    are in any store. *)
Definition plain_object (o : object) : bool :=
  match o with
  | ODate time => negb (Num.is_nan time)
  | ORecord props =>
      bool_decide (NoDup (fst <$> props))
      && negb (existsb (String.eqb "__proto__") (fst <$> props))
  | _ => true
  end.

(** An acyclic value that holds no NaN, no invalid Date and no key
    ["__proto__"]. *)
Definition plain : nat → heap → value → bool :=
  every_reachable plain_value plain_object.

End Shape.

(** ** stringUtils.ts *)

Module StringUtils.

(** [\d]: one of the ten ASCII digits. *)
Definition is_digit (c : ascii) : bool :=
  let n := N_of_ascii c in (48 <=? n)%N && (n <=? 57)%N.

(** [str.replace(/\D/g, '')] *)
Fixpoint strip_non_digits (str : string) : string :=
  match str with
  | EmptyString => EmptyString
  | String c rest =>
      if is_digit c then String c (strip_non_digits rest)
      else strip_non_digits rest
  end.

(** [parseInt(cleaned[i], 10)] at an index of [cleaned], whose characters
    are digits. The sum stays below 200, so integers stand for the numbers
    of the source exactly. *)
Definition parseInt_at (cleaned : string) (i : nat) : Z :=
  match String.get i cleaned with
  | Some c => Z.of_N (N_of_ascii c) - 48
  | None => 0
  end.

(** The loop [for (let i = cleaned.length - 1; i >= 0; i--)]: [n] is
    [i + 1], the number of iterations left. *)
Fixpoint luhn_loop (cleaned : string) (n : nat) (sum : Z) (isEven : bool) : Z :=
  match n with
  | O => sum
  | S i =>
      let digit := parseInt_at cleaned i in
      let digit :=
        if isEven then
          let digit := digit * 2 in
          if digit >? 9 then digit - 9 else digit
        else digit in
      luhn_loop cleaned i (sum + digit) (negb isEven)
  end.

Definition isValidCreditCard (str : string) : bool :=
  let cleaned := strip_non_digits str in
  if (String.length cleaned <? 13)%nat || (19 <? String.length cleaned)%nat
  then false
  else
    let sum := luhn_loop cleaned (String.length cleaned) 0 false in
    sum mod 10 =? 0.

End StringUtils.

(** ** validationUtils.ts *)

Module ValidationUtils.

Definition isString (value : value) : bool :=
  bool_decide (typeof value = TString).

Definition is_digit (c : ascii) : bool :=
  let n := N_of_ascii c in (48 <=? n)%N && (n <=? 57)%N.

(** [value.replace(/\D/g, '')] *)
Fixpoint strip_non_digits (value : string) : string :=
  match value with
  | EmptyString => EmptyString
  | String c rest =>
      if is_digit c then String c (strip_non_digits rest)
      else strip_non_digits rest
  end.

(** [parseInt(cleaned[i])]: the radix defaults to ten on a digit. *)
Definition parseInt_at (cleaned : string) (i : nat) : Z :=
  match String.get i cleaned with
  | Some c => Z.of_N (N_of_ascii c) - 48
  | None => 0
  end.

Fixpoint luhn_loop (cleaned : string) (n : nat) (sum : Z) (isEven : bool) : Z :=
  match n with
  | O => sum
  | S i =>
      let digit := parseInt_at cleaned i in
      let digit :=
        if isEven then
          let digit := digit * 2 in
          if digit >? 9 then digit - 9 else digit
        else digit in
      luhn_loop cleaned i (sum + digit) (negb isEven)
  end.

(** The parameter is typed [string], the body still tests it: the
    argument is any value. *)
Definition isCreditCard (value : value) : bool :=
  if negb (isString value) then false
  else
    match value with
    | VStr value =>
        let cleaned := strip_non_digits value in
        if (String.length cleaned <? 13)%nat || (19 <? String.length cleaned)%nat
        then false
        else
          let sum := luhn_loop cleaned (String.length cleaned) 0 false in
          sum mod 10 =? 0
    | _ => false
    end.

End ValidationUtils.

(** ** The Luhn check as the specification words it *)

Module LuhnSpec.

(** The decimal digits of a text, in order, everything else dropped. *)
Fixpoint digits_of (s : string) : list Z :=
  match s with
  | EmptyString => []
  | String c rest =>
      if StringUtils.is_digit c
      then (Z.of_N (N_of_ascii c) - 48) :: digits_of rest
      else digits_of rest
  end.

(** A digit doubled, less 9 when the double exceeds 9. *)
Definition doubled (d : Z) : Z := if 2 * d >? 9 then 2 * d - 9 else 2 * d.

(** The sum over the digits taken from the right: the first stands as it
    is, every second one from there is doubled. [from_right] lists the
    digits right to left; [second] tells whether the head is a second
    one. *)
Fixpoint luhn_sum (from_right : list Z) (second : bool) : Z :=
  match from_right with
  | [] => 0
  | d :: rest => (if second then doubled d else d) + luhn_sum rest (negb second)
  end.

Definition luhn_valid (s : string) : bool :=
  let digits := digits_of s in
  (13 <=? length digits)%nat && (length digits <=? 19)%nat
  && (luhn_sum (rev digits) false mod 10 =? 0).

End LuhnSpec.

(** ** What a clone owes its original *)

Module CloneInvariants.

Import ObjectUtils.

(** [eq_in fuel h0 hc lo hi x' x]: [deepEqual] holds between [x'] and [x] in
    every store that extends [h0] and agrees with [hc] on the locations from
    [lo] up to [hi], the ones a clone was built in. *)
Definition eq_in (fuel : nat) (h0 hc : heap) (lo hi : nat) (x' x : value)
    : Prop :=
  ∀ h2, h0 `prefix_of` h2 →
        (∀ l, (lo ≤ l < hi)%nat → h2 !! l = hc !! l) →
        deepEqual fuel h2 x' x = Ret true.

(** A primitive is returned as it is, an object at a location that was
    unused. *)
Definition fresh (lo hi : nat) (v v' : value) : Prop :=
  match v with
  | VRef _ => ∃ c, v' = VRef c ∧ (lo ≤ c < hi)%nat
  | _ => v' = v
  end.

(** [clone_ok fuel h0 v]: in any store [h] that extends [h0], cloning [v]
    returns, only adds objects to [h], and the clone is fresh and equal to
    [v] from then on. *)
Definition clone_ok (fuel : nat) (h0 : heap) (v : value) : Prop :=
  ∀ h, h0 `prefix_of` h →
    ∃ v' suf,
      deepClone fuel v h = Ret (v', h ++ suf) ∧
      fresh (length h) (length (h ++ suf)) v v' ∧
      eq_in fuel h0 (h ++ suf) (length h) (length (h ++ suf)) v' v.

(** While the clone of a Map or of a record is filled in, the store [hc] is
    [h], then the clone under construction at [length h], then what the
    clones of the children added. *)
Definition filling (h0 h hc : heap) : Prop :=
  h0 `prefix_of` hc ∧ take (length h) hc = h ∧ (length h < length hc)%nat.

(** The clone of a record under construction: it holds the keys copied so
    far, each with a clone equal to the value of the original. *)
Definition copied (fuel : nat) (h0 : heap) (props : list (string * value))
    (h hc : heap) (done_ : list string) (propsk : list (string * value))
    : Prop :=
  hc !! length h = Some (ORecord propsk) ∧
  length propsk = length done_ ∧
  (∀ key, key ∉ done_ → props_get propsk key = None) ∧
  (∀ key x', props_get propsk key = Some x' →
     ∃ x, props_get props key = Some x ∧
          eq_in fuel h0 hc (S (length h)) (length hc) x' x).

End CloneInvariants.

(** ** Stores for worked examples *)

Module Samples.

(** The object of the test of [deepClone]:
    [{ a: 1, b: { c: 2, d: [3, 4] }, e: new Date(0), f: new Set([1, 2, 3]),
       g: new Map([['key', 'value']]) }], stored at location 5. *)
Definition sample_store : heap :=
  [ OArray [VNum (Num.of_Z 3); VNum (Num.of_Z 4)];
    ORecord [("c", VNum (Num.of_Z 2)); ("d", VRef 0)];
    ODate (Num.of_Z 0);
    OSet [VNum (Num.of_Z 1); VNum (Num.of_Z 2); VNum (Num.of_Z 3)];
    OMap [(VStr "key", VStr "value")];
    ORecord [("a", VNum (Num.of_Z 1)); ("b", VRef 1); ("e", VRef 2);
             ("f", VRef 3); ("g", VRef 4)] ]%string.

(** The object of the tests of [get] and [has]:
    [{ a: { b: { c: 'value' } }, x: null }], stored at location 2. *)
Definition nested_store : heap :=
  [ ORecord [("c", VStr "value")];
    ORecord [("b", VRef 0)];
    ORecord [("a", VRef 1); ("x", VNull)] ]%string.

(** Elements for worked examples with [NaN] among them: the number [NaN]
    and strings. *)
Inductive element : Type :=
| ENaN
| EStr (s : string).

#[export] Instance element_eq_dec : EqDecision element.
Proof. solve_decision. Defined.

#[export] Instance element_strict_equality : ArrayUtils.StrictEquality element :=
  fun x => match x with ENaN => true | EStr _ => false end.

End Samples.

(** ** arrayUtils.ts, the functions on plain arrays *)

Module Arrays.

(** What a call comes to when all that can go wrong is a
    [throw new Error(message)] of the function itself. *)
Inductive result (A : Type) : Type :=
| Return (a : A)
| ThrowError (message : string).
Arguments Return {A} a.
Arguments ThrowError {A} message.

(** The position a relative index stands for in an array of length [len]:
    a negative one counts from the end, and both ends clamp. *)
Definition relative (len index : Z) : Z :=
  if index <? 0 then Z.max (len + index) 0 else Z.min index len.

(** [array.slice(start, end)] *)
Definition slice {A : Type} (array : list A) (start end_ : Z) : list A :=
  let len := Z.of_nat (length array) in
  let k := relative len start in
  let final := relative len end_ in
  take (Z.to_nat (final - k)) (drop (Z.to_nat k) array).

(** [array.slice(start)] *)
Definition slice_from {A : Type} (array : list A) (start : Z) : list A :=
  slice array start (Z.of_nat (length array)).

(** [array.filter((_, index) => keep(index))], [index] being the position
    of the head of [items]. *)
Fixpoint filter_index {A : Type} (keep : Z → bool) (items : list A) (index : Z)
    : list A :=
  match items with
  | [] => []
  | item :: items =>
      if keep index then item :: filter_index keep items (index + 1)
      else filter_index keep items (index + 1)
  end.

Section Lists.

(** The element type [T] as in the weighted functions: equality on it
    stands for the equality of [Set] and [includes], [===] is
    [ArrayUtils.strict_equal], which fails on [NaN], and [undefined] is the
    [None] of an [option T]. The functions that take a count, a size or an
    index are defined for integers, and callbacks are pure. *)
Context {T : Type} `{EqDecision T} `{ArrayUtils.StrictEquality T}.

(** [set.add(x)] on the elements of a [Set<T>] in insertion order *)
Definition TSet_add (elems : list T) (x : T) : list T :=
  if bool_decide (x ∈ elems) then elems else elems ++ [x].

(** [new Set(array)] *)
Definition TSet_of (array : list T) : list T := fold_left TSet_add array [].

(** [[...new Set(array)]] *)
Definition unique (array : list T) : list T := TSet_of array.

(** The loop of [chunk] for an integer [size]: [i] is the loop index;
    [steps] bounds the number of iterations, which is at most
    [array.length] since [i] grows by at least one. *)
Fixpoint chunk_loop (array : list T) (size i : Z) (steps : nat)
    : list (list T) :=
  match steps with
  | O => []
  | S steps =>
      if i <? Z.of_nat (length array)
      then slice array i (i + size) :: chunk_loop array size (i + size) steps
      else []
  end.

(** [chunk(array, size)] for an integer [size]. *)
Definition chunk (array : list T) (size : Z) : result (list (list T)) :=
  if size <=? 0 then ThrowError "Chunk size must be greater than 0"
  else Return (chunk_loop array size 0 (length array)).

(** [array.includes(x)] *)
Definition includes (array : list T) (x : T) : bool := bool_decide (x ∈ array).

(** [arrays.reduce((acc, current) => acc.filter(...))] has no initial value:
    it starts from the first array. *)
Definition intersection (arrays : list (list T)) : list T :=
  match arrays with
  | [] => []
  | [only] => only
  | first :: rest =>
      fold_left
        (fun acc current => List.filter (fun item => includes current item) acc)
        rest first
  end.

Definition difference (array1 array2 : list T) : list T :=
  List.filter (fun item => negb (includes array2 item)) array1.

(** The [forEach] of [partition] over the remaining [items]. *)
Fixpoint partition_loop (predicate : T → bool) (items passed failed : list T)
    : list T * list T :=
  match items with
  | [] => (passed, failed)
  | item :: items =>
      if predicate item
      then partition_loop predicate items (passed ++ [item]) failed
      else partition_loop predicate items passed (failed ++ [item])
  end.

Definition partition (array : list T) (predicate : T → bool)
    : list T * list T :=
  partition_loop predicate array [] [].

(** [a % b] on integers: the sign of the result is that of [a]. *)
Definition remainder (a b : Z) : Z := Z.rem a b.

Definition rotate (array : list T) (n : Z) : list T :=
  if (length array =? 0)%nat then array
  else
    let len := Z.of_nat (length array) in
    let normalizedN := remainder (remainder n len + len) len in
    slice_from array (- normalizedN) ++ slice array 0 (- normalizedN).

(** The loops [for (let i = array.length - 1; i >= 0; i--)] of [findLast]
    and [findLastIndex]: [n] is [i + 1]. *)
Fixpoint findLast_loop (array : list T) (predicate : T → bool) (n : nat)
    : option T :=
  match n with
  | O => None
  | S i =>
      match array !! i with
      | Some item =>
          if predicate item then Some item
          else findLast_loop array predicate i
      | None => None (* not reached: [i < array.length] *)
      end
  end.

Definition findLast (array : list T) (predicate : T → bool) : option T :=
  findLast_loop array predicate (length array).

Fixpoint findLastIndex_loop (array : list T) (predicate : T → Z → bool)
    (n : nat) : Z :=
  match n with
  | O => -1
  | S i =>
      match array !! i with
      | Some item =>
          if predicate item (Z.of_nat i) then Z.of_nat i
          else findLastIndex_loop array predicate i
      | None => -1 (* not reached: [i < array.length] *)
      end
  end.

Definition findLastIndex (array : list T) (predicate : T → Z → bool) : Z :=
  findLastIndex_loop array predicate (length array).

(** The [for ... of] loop of [takeWhile], which [break] leaves. *)
Fixpoint takeWhile_loop (predicate : T → bool) (items result : list T)
    : list T :=
  match items with
  | [] => result
  | item :: items =>
      if negb (predicate item) then result
      else takeWhile_loop predicate items (result ++ [item])
  end.

Definition takeWhile (array : list T) (predicate : T → bool) : list T :=
  takeWhile_loop predicate array [].

(** The [while] loop of [dropWhile]: [remaining] is
    [array.length - startIndex]. *)
Fixpoint dropWhile_loop (array : list T) (predicate : T → bool)
    (startIndex remaining : nat) : nat :=
  match remaining with
  | O => startIndex
  | S remaining =>
      match array !! startIndex with
      | Some item =>
          if predicate item
          then dropWhile_loop array predicate (S startIndex) remaining
          else startIndex
      | None => startIndex (* not reached: [startIndex < array.length] *)
      end
  end.

Definition dropWhile (array : list T) (predicate : T → bool) : list T :=
  let startIndex := dropWhile_loop array predicate 0 (length array) in
  slice_from array (Z.of_nat startIndex).

(** [array[index]] for an integer [index]: [undefined] out of range. *)
Definition at_index (array : list T) (index : Z) : option T :=
  if index <? 0 then None else array !! Z.to_nat index.

(** The loop of [windowed] for an integer [size]: [remaining] is
    [array.length - size - i + 1]. *)
Fixpoint windowed_loop (array : list T) (size i : Z) (remaining : nat)
    : list (list T) :=
  match remaining with
  | O => []
  | S remaining =>
      slice array i (i + size) :: windowed_loop array size (i + 1) remaining
  end.

(** [windowed(array, size)] for an integer [size]. *)
Definition windowed (array : list T) (size : Z) : result (list (list T)) :=
  let len := Z.of_nat (length array) in
  if size <=? 0 then ThrowError "Window size must be greater than 0"
  else if len <? size then Return []
  else Return (windowed_loop array size 0 (Z.to_nat (len - size + 1))).

(** [row[colIndex]] in a matrix whose cells may be [undefined] *)
Definition cell (row : list (option T)) (colIndex : nat) : option T :=
  default None (row !! colIndex).

Definition transpose (matrix : list (list (option T)))
    : list (list (option T)) :=
  match matrix with
  | [] => []
  | first :: _ =>
      imap (fun colIndex _ => (fun row => cell row colIndex) <$> matrix) first
  end.

(** [Math.max(...lengths)]; with no array it is [-Infinity], under which
    the loop does not run either. *)
Definition max_length (arrays : list (list T)) : nat :=
  foldr (fun arr m => Nat.max (length arr) m) 0%nat arrays.

(** The inner loop of [interleave] at the index [i]. *)
Fixpoint interleave_at (i : nat) (arrays : list (list T)) (result : list T)
    : list T :=
  match arrays with
  | [] => result
  | array :: arrays =>
      match array !! i with
      | Some x => interleave_at i arrays (result ++ [x])
      | None => interleave_at i arrays result
      end
  end.

(** The outer loop: [remaining] is [maxLength - i]. *)
Fixpoint interleave_loop (arrays : list (list T)) (i remaining : nat)
    (result : list T) : list T :=
  match remaining with
  | O => result
  | S remaining =>
      interleave_loop arrays (S i) remaining (interleave_at i arrays result)
  end.

Definition interleave (arrays : list (list T)) : list T :=
  interleave_loop arrays 0 (max_length arrays) [].

(** [item === array[index]]; out of range the read is [undefined], which
    no element is. *)
Definition same_as_at (array : list T) (item : T) (index : nat) : bool :=
  match array !! index with
  | Some other => ArrayUtils.strict_equal item other
  | None => false
  end.

(** The loop of [groupConsecutive] over [items], the elements from the
    index [i] on; the test is [array[i] === array[i - 1]]. *)
Fixpoint groupConsecutive_loop (array items : list T) (i : nat)
    (groups : list (list T)) (currentGroup : list T) : list (list T) :=
  match items with
  | [] => groups ++ [currentGroup]
  | item :: items =>
      if same_as_at array item (i - 1)
      then groupConsecutive_loop array items (S i) groups
             (currentGroup ++ [item])
      else groupConsecutive_loop array items (S i) (groups ++ [currentGroup])
             [item]
  end.

Definition groupConsecutive (array : list T) : list (list T) :=
  match array with
  | [] => []
  | first :: rest => groupConsecutive_loop array rest 1 [] [first]
  end.

(** [permutations(array)]. The recursive call is on an array one element
    shorter; [depth] bounds the length of the array. The outer loop runs
    over the indices [i], the inner one over the permutations of the
    rest. *)
Fixpoint permutations_within (depth : nat) (array : list T)
    : list (list T) :=
  if (length array <=? 1)%nat then [array]
  else
    match depth with
    | O => [] (* not reached when [length array <= depth] *)
    | S depth =>
        flat_map
          (fun i =>
             match array !! i with
             | Some x =>
                 let rest :=
                   slice array 0 (Z.of_nat i)
                   ++ slice_from array (Z.of_nat i + 1) in
                 (fun perm => x :: perm) <$> permutations_within depth rest
             | None => []
             end)
          (seq 0 (length array))
    end.

Definition permutations (array : list T) : list (list T) :=
  permutations_within (length array) array.

(** The loop of [combinations]: [tails] is the recursive call
    [combinations(_, k - 1)], [remaining] is [array.length - k - i + 1].
    Where a recursive call returns, [k] is positive and [array[i]] is in
    range. *)
Fixpoint combinations_loop (tails : list T → option (list (list T)))
    (array : list T) (i remaining : nat) (result : list (list T))
    : option (list (list T)) :=
  match remaining with
  | O => Some result
  | S remaining =>
      match tails (slice_from array (Z.of_nat i + 1)) with
      | Some tailCombinations =>
          combinations_loop tails array (S i) remaining
            (result
             ++ ((fun tailCombination =>
                    option_list (array !! i) ++ tailCombination)
                 <$> tailCombinations))
      | None => None
      end
  end.

(** [combinations(array, k)]. With a negative [k] the recursion of the
    source does not end; [depth] bounds the depth of the calls, and [None]
    is a recursion deeper than that. *)
Fixpoint combinations (depth : nat) (array : list T) (k : Z)
    : option (list (list T)) :=
  match depth with
  | O => None
  | S depth =>
      let len := Z.of_nat (length array) in
      if k =? 0 then Some [[]]
      else if len <? k then Some []
      else if k =? len then Some [array]
      else
        combinations_loop (fun tail => combinations depth tail (k - 1))
          array 0 (Z.to_nat (len - k + 1)) []
  end.

Definition insertAt (array : list T) (index : Z) (elements : list T)
    : list T :=
  let len := Z.of_nat (length array) in
  let normalizedIndex :=
    if index <? 0 then Z.max 0 (len + index + 1) else index in
  slice array 0 normalizedIndex ++ elements ++ slice_from array normalizedIndex.

Definition removeAt (array : list T) (indices : list Z) : list T :=
  let len := Z.of_nat (length array) in
  let indexSet := (fun i => if i <? 0 then len + i else i) <$> indices in
  filter_index (fun index => negb (bool_decide (index ∈ indexSet))) array 0.

Definition take (array : list T) (n : Z) : list T :=
  if n <=? 0 then [] else slice array 0 n.

Definition drop (array : list T) (n : Z) : list T :=
  if n <=? 0 then array else slice_from array n.

End Lists.

End Arrays.

(** ** objectUtils.ts, removing a property *)

Module ObjectPaths.

Import ObjectUtils.

(** A plain record: an object with own data properties and
    [Object.prototype] for its prototype, as an object literal is. *)
Definition is_record (o : object) : bool :=
  match o with
  | ORecord _ => true
  | _ => false
  end.

(** A value made of plain records, without cycle: a primitive, or a
    record whose properties hold such values, nested at most [d] deep; no
    array, Date, Set or Map is reached from it. On these, and for keys that
    [Object.prototype] does not have, [in], the read, the assignment and
    [delete] all have a rule. *)
Definition records : nat → heap → value → bool :=
  Shape.every_reachable (fun _ => true) is_record.

(** The own properties left when [key] is deleted. *)
Fixpoint props_delete (props : list (string * value)) (key : string)
    : list (string * value) :=
  match props with
  | [] => []
  | (k, x) :: rest =>
      if String.eqb k key then props_delete rest key
      else (k, x) :: props_delete rest key
  end.

(** [delete v[key]] in strict code. On a record the own property goes, and
    deleting what is not there changes nothing. The [length] of an array
    cannot be deleted, which is a TypeError; deleting an element would
    leave a hole, which the dense arrays of the store do not have. *)
Definition js_delete (h : heap) (v : value) (key : string) : outcome heap :=
  match v with
  | VRef l =>
      match h !! l with
      | Some (ORecord props) =>
          Ret (<[l := ORecord (props_delete props key)]> h)
      | Some (OArray elems) =>
          match array_index key with
          | Some i => if (i <? N.of_nat (length elems))%N then Stuck else Ret h
          | None => if String.eqb key "length" then Throw TypeError else Ret h
          end
      | Some (ODate _ | OSet _ | OMap _) => Stuck
      | None => Stuck
      end
  | VUndefined | VNull => Throw TypeError
  | _ => Stuck
  end.

(** The end of [unset]: the test of [lastKey] and the [delete]. *)
Definition unset_last (h : heap) (lastKey : string) (current : value)
    : outcome (bool * heap) :=
  present ← js_in h lastKey current;
  if present : bool then
    h ← js_delete h current lastKey;
    Ret (true, h)
  else Ret (false, h).

(** The loop of [unset] over all the keys but the last. With no key at all
    [keys[keys.length - 1]] is [undefined], which names the property
    ["undefined"]. *)
Fixpoint unset_loop (h : heap) (keys : list string) (current : value)
    : outcome (bool * heap) :=
  match keys with
  | [] => unset_last h "undefined" current
  | [lastKey] => unset_last h lastKey current
  | key :: keys =>
      if is_null current || is_undefined current then Ret (false, h)
      else
        present ← js_in h key current;
        if negb present then Ret (false, h)
        else
          current ← js_get h current key;
          unset_loop h keys current
  end.

(** [unset(obj, path)] changes the store and tells whether it did. *)
Definition unset (h : heap) (obj : value) (path : string)
    : outcome (bool * heap) :=
  let keys := split_dots path in
  unset_loop h keys obj.

End ObjectPaths.

(** ** stringUtils.ts, the functions on code units *)

Module Strings.

(** A JavaScript string is the sequence of its UTF-16 code units, each a
    number below [2^16]; [length], indexing, [slice] and the character
    classes of the regular expressions used here all go by code unit. *)
Abbreviation text := (list Z) (only parsing).

(** The code units of a literal of the source, which is ASCII. *)
Definition units (literal : string) : text :=
  (fun c => Z.of_N (N_of_ascii c)) <$> String.list_ascii_of_string literal.

(** [str.slice(start, end)] goes by the same relative indices as the
    [slice] of arrays. *)
Definition slice (str : text) (start end_ : Z) : text :=
  Arrays.slice str start end_.

(** [truncate(str, maxLength, suffix)] for an integer [maxLength]. *)
Definition truncate (str : text) (maxLength : Z) (suffix : text)
    : Arrays.result text :=
  if maxLength <? 0 then Arrays.ThrowError "maxLength cannot be negative"
  else if Z.of_nat (length str) <=? maxLength then Arrays.Return str
  else if maxLength <=? Z.of_nat (length suffix)
  then Arrays.Return (slice suffix 0 maxLength)
  else
    Arrays.Return
      (slice str 0 (maxLength - Z.of_nat (length suffix)) ++ suffix).

(** The table [htmlEscapes]. *)
Definition htmlEscapes (c : Z) : option text :=
  if c =? 38 then Some (units "&amp;")
  else if c =? 60 then Some (units "&lt;")
  else if c =? 62 then Some (units "&gt;")
  else if c =? 34 then Some (units "&quot;")
  else if c =? 39 then Some (units "&#39;")
  else None.

(** [str.replace(re, match => htmlEscapes[match] || match)], where [re]
    matches each of the five characters of the table, everywhere. *)
Fixpoint escapeHtml (str : text) : text :=
  match str with
  | [] => []
  | c :: rest =>
      match htmlEscapes c with
      | Some entity => entity ++ escapeHtml rest
      | None => c :: escapeHtml rest
      end
  end.

(** The table [htmlUnescapes], in the order of the alternatives of the
    regular expression. *)
Definition htmlUnescapes : list (text * Z) :=
  [ (units "&amp;", 38); (units "&lt;", 60); (units "&gt;", 62);
    (units "&quot;", 34); (units "&#39;", 39) ].

(** [str.startsWith(prefix)] *)
Fixpoint startsWith (str prefix : text) {struct prefix} : bool :=
  match prefix, str with
  | [], _ => true
  | p :: prefix, c :: str => (p =? c) && startsWith str prefix
  | _ :: _, [] => false
  end.

(** The entity that [/&(?:amp|lt|gt|quot|#39);/] matches at the start of
    [str], with the character it stands for. *)
Definition match_entity (str : text) : option (text * Z) :=
  List.find (fun '(entity, _) => startsWith str entity) htmlUnescapes.

(** [str.replace(/&(?:amp|lt|gt|quot|#39);/g, ...)]: the scan goes from
    left to right; where an entity starts its character is put out and the
    scan resumes behind the entity, [skip] being the number of code units
    of a match still to be passed over. *)
Fixpoint unescapeHtml_scan (str : text) (skip : nat) : text :=
  match str with
  | [] => []
  | c :: rest =>
      match skip with
      | S skip => unescapeHtml_scan rest skip
      | O =>
          match match_entity str with
          | Some (entity, char) =>
              char :: unescapeHtml_scan rest (length entity - 1)
          | None => c :: unescapeHtml_scan rest 0
          end
      end
  end.

Definition unescapeHtml (str : text) : text := unescapeHtml_scan str 0.

(** [ToInt32]: the integer modulo [2^32] in the signed range. *)
Definition to_int32 (x : Z) : Z := (x + 2 ^ 31) mod 2 ^ 32 - 2 ^ 31.

(** [x << n] for [n] below 32 *)
Definition shift_left (x n : Z) : Z := to_int32 (to_int32 x * 2 ^ n).

(** [x & x] *)
Definition and_self (x : Z) : Z := Z.land (to_int32 x) (to_int32 x).

(** The loop of [hashCode]. The numbers that occur are integers below
    [2^53] in size, which a JavaScript number holds exactly. *)
Definition hashCode (str : text) : Z :=
  fold_left
    (fun hash char =>
       let hash := shift_left hash 5 - hash + char in
       and_self hash)
    str 0.

Definition is_high_surrogate (c : Z) : bool := (55296 <=? c) && (c <=? 56319).
Definition is_low_surrogate (c : Z) : bool := (56320 <=? c) && (c <=? 57343).

(** The characters [new Set(chars)] holds: a string is iterated by code
    point, so that a surrogate pair is one character of two code units. *)
Fixpoint characters (chars : text) : list text :=
  match chars with
  | [] => []
  | c :: rest =>
      match rest with
      | d :: after =>
          if is_high_surrogate c && is_low_surrogate d
          then [c; d] :: characters after
          else [c] :: characters rest
      | [] => [[c]]
      end
  end.

(** [charSet.has(str[index])], [c] being the code unit at the index. *)
Definition has_unit (charSet : list text) (c : Z) : bool :=
  bool_decide ([c] ∈ charSet).

(** The first loop of [strip]: [remaining] is [end - start]. *)
Fixpoint strip_start (charSet : list text) (str : text)
    (start remaining : nat) : nat :=
  match remaining with
  | O => start
  | S remaining =>
      match str !! start with
      | Some c =>
          if has_unit charSet c
          then strip_start charSet str (S start) remaining
          else start
      | None => start (* not reached: [start < str.length] *)
      end
  end.

(** The second loop, on [end]. *)
Fixpoint strip_end (charSet : list text) (str : text) (start end_ : nat)
    : nat :=
  match end_ with
  | O => O
  | S before =>
      if (start <? end_)%nat
      then
        match str !! before with
        | Some c =>
            if has_unit charSet c then strip_end charSet str start before
            else end_
        | None => end_ (* not reached: [end <= str.length] *)
        end
      else end_
  end.

Definition strip (str chars : text) : text :=
  let charSet := characters chars in
  let start := strip_start charSet str 0 (length str) in
  let end_ := strip_end charSet str start (length str) in
  slice str (Z.of_nat start) (Z.of_nat end_).

(** [Math.min(...strings.map(s => s.length))] for at least one string *)
Definition min_length (strings : list text) : nat :=
  match strings with
  | [] => O
  | first :: rest =>
      fold_left (fun m s => Nat.min m (length s)) rest (length first)
  end.

(** The loop of [longestCommonPrefix]: [i] is the loop index, [remaining]
    is [minLength - i]; [str[i] === char] compares a code unit or
    [undefined]. *)
Fixpoint prefix_loop (strings : list text) (first : text) (i remaining : nat)
    (prefix : text) : text :=
  match remaining with
  | O => prefix
  | S remaining =>
      let char := first !! i in
      if forallb (fun str => bool_decide (str !! i = char)) strings
      then prefix_loop strings first (S i) remaining
             (prefix ++ option_list char)
      else prefix
  end.

Definition longestCommonPrefix (strings : list text) : text :=
  match strings with
  | [] => []
  | [only] => only
  | first :: _ => prefix_loop strings first 0 (min_length strings) []
  end.

End Strings.

Module Levenshtein.

(** The matrix of [levenshteinDistance]: rows of cells, a cell [null]
    until it is assigned. *)
Abbreviation table := (list (list (option Z))) (only parsing).

(** [matrix[j][i] = x] *)
Definition cell_set (matrix : table) (j i : nat) (x : Z) : table :=
  match matrix !! j with
  | Some row => <[j := <[i := Some x]> row]> matrix
  | None => matrix (* not reached: [j <= str2.length] *)
  end.

(** [matrix[j][i]] in an arithmetic expression, where [null] counts as 0;
    every cell is read after it has been assigned. *)
Definition cell (matrix : table) (j i : nat) : Z :=
  match matrix !! j with
  | Some row =>
      match row !! i with
      | Some (Some x) => x
      | _ => 0
      end
  | None => 0
  end.

(** The first loop: [remaining] is [str1.length - i + 1]. *)
Fixpoint first_row_loop (matrix : table) (i remaining : nat) : table :=
  match remaining with
  | O => matrix
  | S remaining =>
      first_row_loop (cell_set matrix 0 i (Z.of_nat i)) (S i) remaining
  end.

(** The second loop: [remaining] is [str2.length - j + 1]. *)
Fixpoint first_column_loop (matrix : table) (j remaining : nat) : table :=
  match remaining with
  | O => matrix
  | S remaining =>
      first_column_loop (cell_set matrix j 0 (Z.of_nat j)) (S j) remaining
  end.

(** The inner loop of the third: [remaining] is [str1.length - i + 1]. A
    string is the list of its code units. *)
Fixpoint row_loop (str1 str2 : list Z) (matrix : table)
    (j i remaining : nat) : table :=
  match remaining with
  | O => matrix
  | S remaining =>
      let indicator :=
        if bool_decide (str1 !! (i - 1)%nat = str2 !! (j - 1)%nat)
        then 0 else 1 in
      let x :=
        Z.min
          (Z.min (cell matrix j (i - 1) + 1) (* deletion *)
                 (cell matrix (j - 1) i + 1)) (* insertion *)
          (cell matrix (j - 1) (i - 1) + indicator) (* substitution *) in
      row_loop str1 str2 (cell_set matrix j i x) j (S i) remaining
  end.

(** The outer loop: [remaining] is [str2.length - j + 1]. *)
Fixpoint rows_loop (str1 str2 : list Z) (matrix : table)
    (j remaining : nat) : table :=
  match remaining with
  | O => matrix
  | S remaining =>
      rows_loop str1 str2 (row_loop str1 str2 matrix j 1 (length str1))
        (S j) remaining
  end.

Definition levenshteinDistance (str1 str2 : list Z) : Z :=
  let matrix :=
    replicate (length str2 + 1) (replicate (length str1 + 1) None) in
  let matrix := first_row_loop matrix 0 (length str1 + 1) in
  let matrix := first_column_loop matrix 0 (length str2 + 1) in
  let matrix := rows_loop str1 str2 matrix 1 (length str2) in
  cell matrix (length str2) (length str1).

(** The recurrence the matrix is filled by: the distance between the
    first [i] code units of [str1] and the first [j] of [str2]. *)
Fixpoint distance (str1 str2 : list Z) (j : nat) : nat → Z :=
  match j with
  | O => fun i => Z.of_nat i
  | S before =>
      fix row (i : nat) : Z :=
        match i with
        | O => Z.of_nat j
        | S i' =>
            Z.min
              (Z.min (row i' + 1) (distance str1 str2 before i + 1))
              (distance str1 str2 before i'
               + (if bool_decide (str1 !! i' = str2 !! before)
                  then 0 else 1))
        end
  end.

End Levenshtein.

(** ** What the matrix holds while it is filled *)

Module LevenshteinInvariants.

Import Levenshtein.

(** The matrix has its dimensions, and holds the distance between the
    prefixes wherever [P] says a cell has been assigned. *)
Definition filled (str1 str2 : list Z) (M : list (list (option Z)))
    (P : nat → nat → Prop) : Prop :=
  length M = (length str2 + 1)%nat ∧
  Forall (fun row => length row = (length str1 + 1)%nat) M ∧
  ∀ j i : nat, (j ≤ length str2)%nat → (i ≤ length str1)%nat → P j i →
               cell M j i = distance str1 str2 j i.

(** The cells assigned when the third loop is at the row [j] and the
    column [i]: the first row, the first column, the rows above and the
    cells to the left. *)
Definition reached (j i : nat) (j' i' : nat) : Prop :=
  j' = 0%nat ∨ i' = 0%nat ∨ (j' < j)%nat ∨ (j' = j ∧ (i' < i)%nat).

End LevenshteinInvariants.

(** ** validationUtils.ts, arrays and validation results *)

Module Validation.

(** [Array.isArray(value)] *)
Definition isArray (h : heap) (value : value) : bool :=
  match value with
  | VRef l =>
      match h !! l with
      | Some (OArray _) => true
      | _ => false
      end
  | _ => false
  end.

(** [new Set(array).size === array.length], after the test that [array] is
    one. *)
Definition hasUniqueValues (h : heap) (array : value) : bool :=
  if negb (isArray h array) then false
  else
    match array with
    | VRef l =>
        match h !! l with
        | Some (OArray elems) => (length (Set_of elems) =? length elems)%nat
        | _ => false
        end
    | _ => false
    end.

(** The interface [ValidationResult]. *)
Record ValidationResult : Type := {
  isValid : bool;
  errors : list string
}.

Definition combineValidations (results : list ValidationResult)
    : ValidationResult :=
  {| isValid := forallb isValid results;
     errors := flat_map errors results |}.

(** A rule of [validate]: a pure test and the message of its failure. *)
Record Rule (V : Type) : Type := {
  test : V → bool;
  message : string
}.
Arguments test {V} _ _.
Arguments message {V} _.

(** The loop of [validate] over the remaining [rules]. *)
Fixpoint validate_loop {V : Type} (value : V) (rules : list (Rule V))
    (errors : list string) : list string :=
  match rules with
  | [] => errors
  | rule :: rules =>
      if negb (test rule value)
      then validate_loop value rules (errors ++ [message rule])
      else validate_loop value rules errors
  end.

Definition validate {V : Type} (value : V) (rules : list (Rule V))
    : ValidationResult :=
  let errors := validate_loop value rules [] in
  {| isValid := (length errors =? 0)%nat; errors := errors |}.

End Validation.

(** * Facts about arrayUtils.ts *)

Section GuardFacts.

(** The two tests every weighted function starts with, on the lengths of
    its arguments. *)
Lemma guard_empty {A B} (l : list A) (k : list B) :
  l = [] ∨ k = [] → (length l =? 0)%nat || (length k =? 0)%nat = true.
Proof. intros [-> | ->]; simpl; [done | apply orb_true_r]. Qed.

Lemma guard_nonempty {A B} (l : list A) (k : list B) :
  l ≠ [] → k ≠ [] → (length l =? 0)%nat || (length k =? 0)%nat = false.
Proof. intros Hl Hk. by destruct l, k. Qed.

Lemma guard_mismatch {A B} (l : list A) (k : list B) :
  l ≠ [] → k ≠ [] → length l ≠ length k →
  (length l =? 0)%nat || (length k =? 0)%nat = false ∧
  negb (length l =? length k)%nat = true.
Proof.
  intros Hl Hk Hlen. split; [by apply guard_nonempty|].
  by apply negb_true_iff, Nat.eqb_neq.
Qed.

End GuardFacts.

Section NumberFacts.

(** A number that is at least zero is not below zero. *)
Lemma leb_zero_not_ltb (w : number) :
  Num.leb Num.zero w = true → Num.ltb w Num.zero = false.
Proof.
  unfold Num.leb, Num.ltb, Num.zero, SFleb, SFltb.
  destruct w as [[]|[]| |[] m e]; simpl; congruence.
Qed.

(** A number above zero is not equal to zero. *)
Lemma ltb_zero_not_eqb (t : number) :
  Num.ltb Num.zero t = true → Num.eqb t Num.zero = false.
Proof.
  unfold Num.eqb, Num.ltb, Num.zero, SFeqb, SFltb.
  destruct t as [[]|[]| |[] m e]; simpl; congruence.
Qed.

End NumberFacts.

Section SamplingFacts.

Import ArrayUtils.
Context {T : Type} `{EqDecision T} `{StrictEquality T}.
Context {RNG : Type} (Math_random : RNG → number * RNG).

Implicit Types (array availableItems result : list T).
Implicit Types (weights availableWeights : list number) (g : RNG) (x : T).

(** The loop of [weightedSample] only ever answers with an index it went
    through. *)
Lemma sample_loop_bound weights random c i remaining j :
  sample_loop weights random c i remaining = Some j →
  (i ≤ j < i + remaining)%nat.
Proof.
  revert c i; induction remaining as [|remaining IH]; intros c i; simpl;
    [done|].
  destruct (Num.leb random (Num.add c (weight_at weights i))).
  - intros [= <-]. lia.
  - intros Hj. apply IH in Hj. lia.
Qed.

(** Whatever [weightedSample] returns as a sample is an element of the
    array it was given. *)
Lemma weightedSample_elem array weights g x g' :
  weightedSample Math_random array weights g = (Ret (Some x), g') → x ∈ array.
Proof.
  unfold weightedSample.
  repeat case_match; intros [= Hx]; subst; simplify_eq.
  - by eapply list_elem_of_lookup_2.
  - rewrite last_lookup in Hx. by eapply list_elem_of_lookup_2.
Qed.

Lemma existsb_negative_false weights :
  (∀ w, w ∈ weights → Num.leb Num.zero w = true) →
  existsb (fun w => Num.ltb w Num.zero) weights = false.
Proof.
  intros Hw. apply not_true_is_false. intros Hex.
  apply existsb_exists in Hex as (w & Hin & Hlt).
  apply list_elem_of_In, Hw, leb_zero_not_ltb in Hin. congruence.
Qed.

(** On well-formed input [weightedSample] raises nothing: it returns a
    sample or no result. *)
Lemma weightedSample_returns array weights g :
  length array = length weights →
  (∀ w, w ∈ weights → Num.leb Num.zero w = true) →
  ∃ r g', weightedSample Math_random array weights g = (Ret r, g').
Proof.
  intros Hlen Hw. unfold weightedSample.
  rewrite Hlen, Nat.eqb_refl, existsb_negative_false by done. simpl.
  repeat case_match; eauto.
Qed.

(** C1, amended: the guards of [weightedSample] in the order the code
    applies them. An empty array or an empty list of weights gives no
    result, whatever the other argument; otherwise differing lengths raise
    LengthMismatch; otherwise a negative weight raises InvalidWeight;
    otherwise a total weight equal to zero gives no result. None of these
    paths draws a random number. *)
Theorem weightedSample_guards array weights g :
  (array = [] ∨ weights = [] →
     weightedSample Math_random array weights g = (Ret None, g)) ∧
  (array ≠ [] → weights ≠ [] → length array ≠ length weights →
     weightedSample Math_random array weights g = (Throw LengthMismatch, g)) ∧
  (array ≠ [] → length array = length weights →
     (∃ w, w ∈ weights ∧ Num.ltb w Num.zero = true) →
     weightedSample Math_random array weights g = (Throw InvalidWeight, g)) ∧
  (array ≠ [] → length array = length weights →
     (∀ w, w ∈ weights → Num.ltb w Num.zero = false) →
     Num.eqb (reduce_sum weights) Num.zero = true →
     weightedSample Math_random array weights g = (Ret None, g)).
Proof.
  unfold weightedSample. repeat split.
  - intros Hempty. by rewrite guard_empty.
  - intros Ha Hw Hlen. by destruct (guard_mismatch _ _ Ha Hw Hlen) as [-> ->].
  - intros Ha Hlen (w & Hin & Hneg).
    rewrite guard_nonempty, Hlen, Nat.eqb_refl by (by destruct array, weights).
    simpl.
    assert (existsb (λ w, Num.ltb w Num.zero) weights = true) as ->; [|done].
    apply existsb_exists. exists w. split; [by apply list_elem_of_In | done].
  - intros Ha Hlen Hpos Hzero.
    rewrite guard_nonempty, Hlen, Nat.eqb_refl by (by destruct array, weights).
    simpl.
    assert (existsb (λ w, Num.ltb w Num.zero) weights = false) as ->.
    { apply not_true_is_false. intros (w & Hin & Hlt)%existsb_exists.
      apply list_elem_of_In, Hpos in Hin. congruence. }
    by rewrite Hzero.
Qed.

(** C10: on arrays of one non-zero length, with every weight at least zero
    and a total above zero, [weightedSample] returns an element of the
    array, never the absence of a result, whatever number [Math.random]
    yields; when the loop selects no index the element is the last one. *)
Theorem weightedSample_total array weights g :
  array ≠ [] →
  length array = length weights →
  (∀ w, w ∈ weights → Num.leb Num.zero w = true) →
  Num.ltb Num.zero (reduce_sum weights) = true →
  ∃ x,
    weightedSample Math_random array weights g
      = (Ret (Some x), (Math_random g).2) ∧
    x ∈ array ∧
    (sample_loop weights (Num.mul (Math_random g).1 (reduce_sum weights))
       Num.zero 0 (length array) = None → last array = Some x).
Proof.
  intros Ha Hlen Hw Htotal. unfold weightedSample.
  assert (length array ≠ 0%nat) as Hn by (by destruct array).
  rewrite <- Hlen, Nat.eqb_refl.
  destruct (Nat.eqb_spec (length array) 0) as [|_]; [done|]. simpl.
  rewrite existsb_negative_false, ltb_zero_not_eqb by done.
  destruct (Math_random g) as [u g'] eqn:Hu. simpl.
  destruct (sample_loop _ _ _ _) as [i|] eqn:Hloop.
  - apply sample_loop_bound in Hloop.
    destruct (lookup_lt_is_Some_2 array i) as [x Hx]; [lia|].
    exists x. rewrite Hx. repeat split; [|done].
    by eapply list_elem_of_lookup_2.
  - destruct (last array) as [x|] eqn:Hlast.
    + exists x. repeat split.
      rewrite last_lookup in Hlast. by eapply list_elem_of_lookup_2.
    + apply last_None in Hlast. done.
Qed.

(** [===] is equality on what is not [NaN], and fails on [NaN]. *)
Lemma strict_equal_spec x y :
  strict_equal x y = true ↔ x = y ∧ is_NaN x = false.
Proof.
  unfold strict_equal.
  rewrite andb_true_iff, bool_decide_eq_true, negb_true_iff. done.
Qed.

(** [indexOf] finds the first position of an element of the array that is
    not [NaN]. *)
Lemma indexOf_from_elem array x k :
  is_NaN x = false →
  x ∈ array →
  ∃ i, array !! i = Some x ∧ indexOf_from k array x = k + Z.of_nat i.
Proof.
  intros Hnan.
  revert k; induction array as [|y rest IH]; intros k Hx.
  - by apply elem_of_nil in Hx.
  - simpl. destruct (strict_equal y x) eqn:Heq.
    + apply strict_equal_spec in Heq as [-> _].
      exists 0%nat. split; [done | lia].
    + apply elem_of_cons in Hx as [-> | Hx].
      { assert (strict_equal y y = true) as Hy
          by (by apply strict_equal_spec).
        congruence. }
      destruct (IH (k + 1) Hx) as (i & Hi & ->).
      exists (S i). split; [done | lia].
Qed.

Lemma indexOf_elem array x :
  is_NaN x = false →
  x ∈ array → ∃ i, array !! i = Some x ∧ indexOf array x = Z.of_nat i.
Proof.
  intros Hnan Hx.
  destruct (indexOf_from_elem array x 0 Hnan Hx) as (i & Hi & Hk).
  exists i. split; [done|]. unfold indexOf. lia.
Qed.

(** [indexOf] does not find [NaN], also where the array holds it. *)
Lemma indexOf_from_NaN array x k :
  is_NaN x = true → indexOf_from k array x = -1.
Proof.
  intros Hnan. revert k; induction array as [|y rest IH]; intros k; [done|].
  simpl. destruct (strict_equal y x) eqn:Heq; [|apply IH].
  apply strict_equal_spec in Heq as [-> Hy]. congruence.
Qed.

(** [splice(index, 1)] at an index of the array deletes that position. *)
Lemma splice1_in_range {A} (l : list A) (i : nat) :
  (i < length l)%nat → splice1 (Z.of_nat i) l = delete i l.
Proof.
  intros Hi. unfold splice1.
  destruct (Z.ltb_spec (Z.of_nat i) 0); [lia|].
  f_equal. lia.
Qed.

(** In an array without repetition a position is the only one holding its
    element. *)
Lemma NoDup_lookup_unique array i j x :
  NoDup array → array !! i = Some x → array !! j = Some x → i = j.
Proof. intros Hnd Hi Hj. by eapply NoDup_lookup. Qed.

Lemma NoDup_not_elem_delete array i x :
  NoDup array → array !! i = Some x → x ∉ delete i array.
Proof.
  intros Hnd Hi Hin.
  rewrite (delete_Permutation _ _ _ Hi) in Hnd.
  by apply NoDup_cons in Hnd as [? _].
Qed.

(** One round of the loop of [weightedSampleSizeWithoutReplacement] on a
    pool without repetition, for a sample that is not [NaN]: the position
    holding the sample, which is the one that was drawn, leaves the items
    and the weights. *)
Lemma withoutReplacement_step count availableItems availableWeights result
    g x g' i :
  NoDup availableItems →
  is_NaN x = false →
  length availableItems = length availableWeights →
  weightedSample Math_random availableItems availableWeights g
    = (Ret (Some x), g') →
  availableItems !! i = Some x →
  withoutReplacement_loop Math_random (S count)
      availableItems availableWeights result g
    = withoutReplacement_loop Math_random count
        (delete i availableItems) (delete i availableWeights)
        (result ++ [x]) g'.
Proof.
  intros Hnd Hnan Hlen Hsample Hi. simpl. rewrite Hsample.
  destruct (indexOf_elem availableItems x) as (j & Hj & ->);
    [done|by eapply list_elem_of_lookup_2|].
  assert (j = i) as -> by (by eapply NoDup_lookup_unique).
  apply lookup_lt_Some in Hi.
  rewrite !splice1_in_range by lia. done.
Qed.

(** The loop keeps the result free of repetition and apart from the pool,
    and adds at most one element a round. *)
Lemma withoutReplacement_loop_spec count :
  ∀ availableItems availableWeights result g,
    length availableItems = length availableWeights →
    (∀ w, w ∈ availableWeights → Num.leb Num.zero w = true) →
    NoDup (result ++ availableItems) →
    (∀ x, x ∈ availableItems → is_NaN x = false) →
    ∃ result' g',
      withoutReplacement_loop Math_random count
          availableItems availableWeights result g = (Ret result', g') ∧
      NoDup result' ∧
      (∀ x, x ∈ result' → x ∈ result ∨ x ∈ availableItems) ∧
      (length result' ≤ length result + count)%nat.
Proof.
  induction count as [|count IH];
    intros availableItems availableWeights result g Hlen Hw Hnd Hnan.
  - exists result, g. simpl. repeat split; [|by left|lia].
    by apply NoDup_app in Hnd as [? _].
  - destruct (weightedSample_returns availableItems
                availableWeights g Hlen Hw) as (r & g' & Hsample).
    destruct r as [x|].
    + assert (x ∈ availableItems) as Hx by (by eapply weightedSample_elem).
      apply list_elem_of_lookup_1 in Hx as [i Hi].
      assert (NoDup availableItems) as Hpool
        by (by apply NoDup_app in Hnd as (_ & _ & ?)).
      rewrite (withoutReplacement_step count _ _ result g x g' i);
        [|done|by eapply Hnan, list_elem_of_lookup_2|done..].
      destruct (IH (delete i availableItems) (delete i availableWeights)
                  (result ++ [x]) g') as (result' & g'' & -> & Hnd' & Hsub & Hn).
      * rewrite !length_delete; [lia| |done].
        apply lookup_lt_is_Some_2. apply lookup_lt_Some in Hi. lia.
      * intros w Hin. by eapply Hw, list_elem_of_delete_inv.
      * rewrite <- (assoc_L (++)). simpl.
        by rewrite <- (delete_Permutation _ _ _ Hi).
      * intros y Hy. by eapply Hnan, list_elem_of_delete_inv.
      * exists result', g''. repeat split; [done| |].
        -- intros y Hy. apply Hsub in Hy as [Hy | Hy].
           ++ apply elem_of_app in Hy as [Hy | Hy]; [by left|].
              apply list_elem_of_singleton in Hy as ->. right.
              by eapply list_elem_of_lookup_2.
           ++ right. by eapply list_elem_of_delete_inv.
        -- rewrite length_app in Hn. simpl in Hn. lia.
    + simpl. rewrite Hsample.
      destruct (IH availableItems availableWeights result g')
        as (result' & g'' & -> & Hnd' & Hsub & Hn); [done..|].
      exists result', g''. repeat split; [done..|lia].
Qed.

(** Where the draws are without replacement: when the items are pairwise
    distinct and none of them is [NaN] (the lengths agree, no weight is
    below zero, [n] is an integer),
    [weightedSampleSizeWithoutReplacement] returns normally a list without
    repetition, made of items of the array, of at most
    [min(n, array.length)] elements and of none when [n] is not positive;
    and in each round of its loop the item that was drawn leaves the pool
    together with the weight at its position. *)
Lemma weightedSampleSizeWithoutReplacement_distinct array weights n g :
  length array = length weights →
  (∀ w, w ∈ weights → Num.leb Num.zero w = true) →
  NoDup array →
  (∀ x, x ∈ array → is_NaN x = false) →
  (∃ result g',
     weightedSampleSizeWithoutReplacement Math_random array weights n g
       = (Ret result, g') ∧
     NoDup result ∧
     (∀ x, x ∈ result → x ∈ array) ∧
     (Z.of_nat (length result) ≤ Z.max 0 (Z.min n (Z.of_nat (length array))))%Z) ∧
  (∀ count availableItems availableWeights result g x g' i,
     NoDup availableItems →
     is_NaN x = false →
     length availableItems = length availableWeights →
     weightedSample Math_random availableItems availableWeights g
       = (Ret (Some x), g') →
     availableItems !! i = Some x →
     (x ∉ delete i availableItems) ∧
     withoutReplacement_loop Math_random (S count)
         availableItems availableWeights result g
       = withoutReplacement_loop Math_random count
           (delete i availableItems) (delete i availableWeights)
           (result ++ [x]) g').
Proof.
  intros Hlen Hw Hnd Hnan. split.
  - unfold weightedSampleSizeWithoutReplacement.
    destruct (Z.leb_spec n 0) as [Hn | Hn].
    { exists [], g. repeat split; [constructor | by intros ? ?%elem_of_nil | simpl; lia]. }
    rewrite <- Hlen, Nat.eqb_refl, orb_diag. simpl.
    destruct (Nat.eqb_spec (length array) 0) as [Hz | Hz].
    { exists [], g. repeat split; [constructor | by intros ? ?%elem_of_nil | simpl; lia]. }
    destruct (withoutReplacement_loop_spec
                (Z.to_nat (Z.min n (Z.of_nat (length array))))
                array weights [] g Hlen Hw Hnd Hnan)
      as (result & g' & -> & Hnd' & Hsub & Hbound).
    exists result, g'. repeat split; [done| |simpl in Hbound; lia].
    intros x Hx. apply Hsub in Hx as [Hx | Hx]; [by apply elem_of_nil in Hx | done].
  - intros count availableItems availableWeights result g0 x g1 i
      Hpool Hx Hl Hs Hi.
    split; [by apply NoDup_not_elem_delete|].
    by apply withoutReplacement_step.
Qed.

End SamplingFacts.

Section SamplingExamples.

Import ArrayUtils Samples.
Local Open Scope string_scope.

(** C1 fails as stated: with one element and no weight the lengths differ,
    and the call returns no result instead of raising LengthMismatch. *)
Lemma weightedSample_mismatch_not_raised :
  length ["a"] ≠ length (@nil number) ∧
  weightedSample (fixed_source Num.zero) ["a"] [] 0%nat = (Ret None, 0%nat) ∧
  weightedSample (fixed_source Num.zero) ["a"] [] 0%nat ≠ (Throw LengthMismatch, 0%nat).
Proof. repeat split; [simpl; lia | discriminate]. Qed.

(** C10 at work: two weights of 1e308 add up to Infinity; when
    [Math.random] yields 0 the product is NaN, the loop selects nothing and
    the last element is returned. *)
Lemma weightedSample_total_witness :
  let big := Num.of_Z (10 ^ 308) in
  ∃ x,
    weightedSample (fixed_source Num.zero) ["a"; "b"] [big; big] 0%nat
      = (Ret (Some x), (fixed_source Num.zero 0%nat).2) ∧
    x ∈ ["a"; "b"] ∧
    (sample_loop [big; big]
       (Num.mul (fixed_source Num.zero 0%nat).1 (reduce_sum [big; big]))
       Num.zero 0 (length ["a"; "b"]) = None → last ["a"; "b"] = Some x).
Proof.
  apply (weightedSample_total (fixed_source Num.zero) ["a"; "b"]
           [Num.of_Z (10 ^ 308); Num.of_Z (10 ^ 308)] 0%nat).
  - discriminate.
  - reflexivity.
  - intros w Hw. repeat (apply elem_of_cons in Hw as [-> | Hw]; [reflexivity|]).
    by apply elem_of_nil in Hw.
  - reflexivity.
Defined.

(** The fallback of [weightedSample] in that run: the last element. *)
Example weightedSample_fallback :
  let big := Num.of_Z (10 ^ 308) in
  reduce_sum [big; big] = S754_infinity false ∧
  Num.mul Num.zero (reduce_sum [big; big]) = Num.NaN ∧
  weightedSample (fixed_source Num.zero) ["a"; "b"] [big; big] 0%nat
    = (Ret (Some "b"), 1%nat).
Proof. repeat split. Qed.

(** C3: [weightedSampleSizeWithoutReplacement] draws a position twice. On
    the items ['a', 'a'] with the weights [0, 1] the first draw takes
    position 1 (weight 1); [indexOf] finds the sample at position 0, so
    what leaves the pool is position 0 with its weight 0, the drawn pair
    stays, and is drawn again: the result repeats an element. On the
    distinct items [NaN, 'a'] with the weights [1, 1] the first draw takes
    [NaN], which [indexOf] does not find; [splice(-1, 1)] removes the last
    pair instead, and [NaN] is drawn again. *)
Theorem weightedSampleSizeWithoutReplacement_repeats :
  let half := Num.div (Num.of_Z 1) (Num.of_Z 2) in
  let quarter := Num.div (Num.of_Z 1) (Num.of_Z 4) in
  (weightedSampleSizeWithoutReplacement (fixed_source half)
       ["a"; "a"] [Num.of_Z 0; Num.of_Z 1] 2 0%nat = (Ret ["a"; "a"], 2%nat) ∧
   ¬ NoDup ["a"; "a"] ∧
   sample_loop [Num.of_Z 0; Num.of_Z 1]
     (Num.mul half (reduce_sum [Num.of_Z 0; Num.of_Z 1])) Num.zero 0 2
     = Some 1%nat ∧
   withoutReplacement_loop (fixed_source half) 2
       ["a"; "a"] [Num.of_Z 0; Num.of_Z 1] [] 0%nat
     = withoutReplacement_loop (fixed_source half) 1
         ["a"] [Num.of_Z 1] ["a"] 1%nat) ∧
  (NoDup [ENaN; EStr "a"] ∧
   weightedSampleSizeWithoutReplacement (fixed_source quarter)
       [ENaN; EStr "a"] [Num.of_Z 1; Num.of_Z 1] 2 0%nat
     = (Ret [ENaN; ENaN], 2%nat) ∧
   indexOf [ENaN; EStr "a"] ENaN = (-1)%Z ∧
   withoutReplacement_loop (fixed_source quarter) 2
       [ENaN; EStr "a"] [Num.of_Z 1; Num.of_Z 1] [] 0%nat
     = withoutReplacement_loop (fixed_source quarter) 1
         [ENaN] [Num.of_Z 1] [ENaN] 1%nat).
Proof.
  repeat split.
  - intros Hnd. apply NoDup_cons in Hnd as [Hin _]. apply Hin. by left.
  - apply (bool_decide_unpack _). reflexivity.
Qed.

(** The draws without replacement at work on three distinct items, one of
    weight zero. *)
Lemma weightedSampleSizeWithoutReplacement_distinct_witness :
  (∃ result g',
     weightedSampleSizeWithoutReplacement (fixed_source (Num.of_Z 0))
         ["a"; "b"; "c"] [Num.of_Z 1; Num.of_Z 0; Num.of_Z 1] 2 0%nat = (Ret result, g') ∧
     NoDup result ∧
     (∀ x, x ∈ result → x ∈ ["a"; "b"; "c"]) ∧
     (Z.of_nat (length result)
        ≤ Z.max 0 (Z.min 2 (Z.of_nat (length ["a"; "b"; "c"]))))%Z) ∧
  (∀ count (availableItems : list string) availableWeights result g x g' i,
     NoDup availableItems →
     is_NaN x = false →
     length availableItems = length availableWeights →
     weightedSample (fixed_source (Num.of_Z 0)) availableItems availableWeights g
       = (Ret (Some x), g') →
     availableItems !! i = Some x →
     (x ∉ delete i availableItems) ∧
     withoutReplacement_loop (fixed_source (Num.of_Z 0)) (S count)
         availableItems availableWeights result g
       = withoutReplacement_loop (fixed_source (Num.of_Z 0)) count
           (delete i availableItems) (delete i availableWeights)
           (result ++ [x]) g').
Proof.
  apply (weightedSampleSizeWithoutReplacement_distinct (fixed_source (Num.of_Z 0))
           ["a"; "b"; "c"] [Num.of_Z 1; Num.of_Z 0; Num.of_Z 1] 2 0%nat).
  - reflexivity.
  - intros w Hw. repeat (apply elem_of_cons in Hw as [-> | Hw]; [reflexivity|]).
    by apply elem_of_nil in Hw.
  - apply (bool_decide_unpack _). reflexivity.
  - done.
Defined.

End SamplingExamples.

Section AggregateFacts.

Import ArrayUtils.

Context {T : Type} `{EqDecision T}.
Implicit Types (values weights : list number) (array : list T).

(** The length tests of the five weighted aggregates. [weightedAverage],
    [weightedSum], [weightedMax] and [weightedMin] accept any call in which
    one of the two lists is empty, returning 0, 0, no result and no result,
    and raise LengthMismatch on two non-empty lists of different lengths;
    [weightedFrequency] raises LengthMismatch on every pair of lists of
    different lengths, an empty list and a non-empty one included, and
    returns the empty map on two empty lists. *)
Lemma weighted_aggregates_lengths values array weights :
  ((values = [] ∨ weights = [] → weightedAverage values weights = Ret Num.zero) ∧
   (values ≠ [] → weights ≠ [] → length values ≠ length weights →
      weightedAverage values weights = Throw LengthMismatch)) ∧
  ((values = [] ∨ weights = [] → weightedSum values weights = Ret Num.zero) ∧
   (values ≠ [] → weights ≠ [] → length values ≠ length weights →
      weightedSum values weights = Throw LengthMismatch)) ∧
  ((array = [] ∨ weights = [] → weightedMax array weights = Ret None) ∧
   (array ≠ [] → weights ≠ [] → length array ≠ length weights →
      weightedMax array weights = Throw LengthMismatch)) ∧
  ((array = [] ∨ weights = [] → weightedMin array weights = Ret None) ∧
   (array ≠ [] → weights ≠ [] → length array ≠ length weights →
      weightedMin array weights = Throw LengthMismatch)) ∧
  ((length array ≠ length weights →
      weightedFrequency array weights = Throw LengthMismatch) ∧
   weightedFrequency (@nil T) [] = Ret []).
Proof.
  unfold weightedAverage, weightedSum, weightedMax, weightedMin,
    weightedFrequency.
  repeat split;
    try (intros Hempty; by rewrite guard_empty);
    try (intros Hl Hk Hlen;
         by destruct (guard_mismatch _ _ Hl Hk Hlen) as [-> ->]).
  intros Hlen. apply Nat.eqb_neq in Hlen. by rewrite Hlen.
Qed.

End AggregateFacts.

Section AggregateExamples.

Import ArrayUtils.

(** C9: [weightedFrequency] does not accept the zero-length case. With one
    list empty and the other not it raises LengthMismatch, whichever of the
    two is empty, where its four siblings, which test for an empty list
    first, accept the same call and return 0, 0, no result and no
    result. *)
Theorem weighted_aggregates_differ_on_empty :
  (weightedFrequency (@nil string) [Num.of_Z 1] = Throw LengthMismatch ∧
   weightedFrequency ["a"%string] [] = Throw LengthMismatch) ∧
  (weightedAverage [] [Num.of_Z 1] = Ret Num.zero ∧
   weightedAverage [Num.of_Z 1] [] = Ret Num.zero) ∧
  (weightedSum [] [Num.of_Z 1] = Ret Num.zero ∧
   weightedSum [Num.of_Z 1] [] = Ret Num.zero) ∧
  (weightedMax (@nil string) [Num.of_Z 1] = Ret None ∧
   weightedMax ["a"%string] [] = Ret None) ∧
  (weightedMin (@nil string) [Num.of_Z 1] = Ret None ∧
   weightedMin ["a"%string] [] = Ret None).
Proof. repeat split. Qed.

End AggregateExamples.

(** * Facts about the Luhn checks *)

Section LuhnFacts.

Import StringUtils LuhnSpec.

Lemma length_strip_non_digits (s : string) :
  String.length (strip_non_digits s) = length (digits_of s).
Proof.
  induction s as [|c rest IH]; simpl; [done|].
  destruct (is_digit c); simpl; by rewrite IH.
Qed.

(** The digit the loop reads at index [i] of the cleaned text is the
    [i]-th digit of the text. *)
Lemma parseInt_at_strip (s : string) (i : nat) :
  (i < length (digits_of s))%nat →
  Some (parseInt_at (strip_non_digits s) i) = digits_of s !! i.
Proof.
  unfold parseInt_at. revert i.
  induction s as [|c rest IH]; intros i Hi; simpl in *; [lia|].
  destruct (is_digit c); simpl in *; [|by apply IH].
  destruct i as [|i]; simpl; [done|]. apply IH. lia.
Qed.

(** What the loop adds for one digit is what the specification adds. *)
Lemma luhn_loop_sum (s : string) (n : nat) (sum : Z) (isEven : bool) :
  (n ≤ length (digits_of s))%nat →
  luhn_loop (strip_non_digits s) n sum isEven
    = sum + luhn_sum (rev (take n (digits_of s))) isEven.
Proof.
  revert sum isEven. induction n as [|i IH]; intros sum isEven Hn.
  - simpl. lia.
  - destruct (lookup_lt_is_Some_2 (digits_of s) i) as [d Hd]; [lia|].
    rewrite (take_S_r _ _ _ Hd), rev_app_distr. simpl.
    rewrite IH by lia.
    pose proof (parseInt_at_strip s i ltac:(lia)) as Hp.
    rewrite Hd in Hp. injection Hp as ->.
    unfold doubled. rewrite (Z.mul_comm 2 d).
    destruct isEven; simpl; [destruct (d * 2 >? 9)|]; lia.
Qed.

Lemma isValidCreditCard_spec (str : string) :
  isValidCreditCard str = luhn_valid str.
Proof.
  unfold isValidCreditCard, luhn_valid.
  rewrite length_strip_non_digits, luhn_loop_sum, firstn_all by done.
  rewrite Z.add_0_l.
  destruct (Nat.ltb_spec (length (digits_of str)) 13),
           (Nat.ltb_spec 19 (length (digits_of str))),
           (Nat.leb_spec 13 (length (digits_of str))),
           (Nat.leb_spec (length (digits_of str)) 19); simpl; try lia; done.
Qed.

(** C8: both checks compute the Luhn validity of the specification: the
    non-digits are dropped, a digit count outside 13..19 is refused, and
    otherwise the answer is whether the sum taken from the right, with
    every second digit doubled and reduced by 9 above 9, is a multiple of
    10; the two card numbers of the specification come out as it says. *)
Theorem luhn_checks_spec (str : string) :
  isValidCreditCard str = luhn_valid str ∧
  ValidationUtils.isCreditCard (VStr str) = luhn_valid str ∧
  isValidCreditCard "4532015112830366" = true ∧
  isValidCreditCard "1234567890123456" = false.
Proof.
  split; [apply isValidCreditCard_spec|].
  split; [|split; reflexivity].
  rewrite <- isValidCreditCard_spec. reflexivity.
Qed.

End LuhnFacts.

(** * Facts about objectUtils.ts *)

Section StoreFacts.

Import ObjectUtils Shape CloneInvariants.

Implicit Types (h : heap) (v x : value) (o : object) (l c : loc).
Implicit Types (props : list (string * value)) (key : string).

(** [===] holds between a number and itself unless it is NaN. *)
Lemma eqb_refl_not_nan (t : number) : Num.is_nan t = false → Num.eqb t t = true.
Proof.
  unfold Num.eqb, SFeqb.
  destruct t as [s|s| |s m e]; simpl; try done; destruct s; try done;
    rewrite Z.compare_refl, Pos.compare_cont_refl; done.
Qed.

Lemma strict_eq_refl v : plain_value v = true → strict_eq v v = true.
Proof.
  destruct v as [| |b|t|s|l]; simpl; try done.
  - intros _. by destruct b.
  - intros Ht. apply eqb_refl_not_nan. by apply negb_true_iff.
  - intros _. apply String.eqb_refl.
  - intros _. apply Nat.eqb_refl.
Qed.

(** *** Properties of records *)

Lemma props_get_Some props key :
  key ∈ fst <$> props →
  ∃ x, props_get props key = Some x ∧ x ∈ snd <$> props.
Proof.
  induction props as [|[k y] rest IH]; simpl; intros Hin.
  - by apply elem_of_nil in Hin.
  - destruct (String.eqb_spec k key) as [-> | Hne].
    + exists y. split; [done | by left].
    + apply elem_of_cons in Hin as [-> | Hin]; [done|].
      destruct (IH Hin) as (x & Hx & Hsnd). exists x. split; [done | by right].
Qed.

Lemma props_get_key props key x :
  props_get props key = Some x → key ∈ fst <$> props.
Proof.
  induction props as [|[k y] rest IH]; simpl; [done|].
  destruct (String.eqb_spec k key) as [-> | Hne]; [by left|].
  intros Hx. right. by apply IH.
Qed.

Lemma props_get_add props key x key' :
  props_get props key = None →
  props_get (props_add props key x) key'
    = if String.eqb key key' then Some x else props_get props key'.
Proof.
  induction props as [|[k y] rest IH]; simpl; [done|].
  destruct (String.eqb_spec k key) as [-> | Hk]; [done|]. intros Hnone.
  destruct (listed_before key k); simpl; [done|].
  rewrite IH by done.
  destruct (String.eqb_spec k key') as [-> | Hk'],
           (String.eqb_spec key key') as [-> | Hkey]; done.
Qed.

Lemma length_props_add props key x :
  length (props_add props key x) = S (length props).
Proof.
  induction props as [|[k y] rest IH]; simpl; [done|].
  destruct (listed_before key k); simpl; by rewrite ?IH.
Qed.

(** *** Iteration *)

Lemma every_from_true {A} (f : A → nat → outcome bool) (l : list A) k :
  (∀ i a, l !! i = Some a → f a (k + i)%nat = Ret true) →
  every_from f l k = Ret true.
Proof.
  revert k; induction l as [|a l IH]; intros k Hf; simpl; [done|].
  specialize (Hf 0%nat a eq_refl) as Ha. rewrite Nat.add_0_r in Ha.
  rewrite Ha. simpl. apply IH. intros i b Hb.
  replace (S k + i)%nat with (k + S i)%nat by lia. by apply Hf.
Qed.

(** *** Equality that survives later allocation *)

Lemma eq_in_mono fuel h0 hc hc' lo lo' hi hi' x' x :
  eq_in fuel h0 hc lo hi x' x →
  (lo' ≤ lo)%nat → (hi ≤ hi')%nat →
  (∀ l, (lo ≤ l < hi)%nat → hc' !! l = hc !! l) →
  eq_in fuel h0 hc' lo' hi' x' x.
Proof.
  intros Heq Hlo Hhi Hc h2 Hpre Hag. apply Heq; [done|].
  intros l Hl. rewrite Hag by lia. by apply Hc.
Qed.

(** Comparing two distinct references comes down to the objects. *)
Lemma deepEqual_refs fuel h c l oa ob :
  c ≠ l → h !! c = Some oa → h !! l = Some ob →
  deepEqual (S fuel) h (VRef c) (VRef l)
    = match oa, ob with
      | ODate ta, ODate tb => Ret (Num.eqb ta tb)
      | OArray ea, OArray eb =>
          if negb (length ea =? length eb)%nat then Ret false
          else
            every_from
              (fun item index =>
                 deepEqual fuel h item (default VUndefined (eb !! index)))
              ea 0
      | _, _ =>
          if is_Array oa || is_Array ob then Ret false
          else
            let keysA := Object_keys oa in
            let keysB := Object_keys ob in
            if negb (length keysA =? length keysB)%nat then Ret false
            else
              every_from
                (fun key _ =>
                   if existsb (String.eqb key) keysB
                   then x ← js_get h (VRef c) key;
                        y ← js_get h (VRef l) key;
                        deepEqual fuel h x y
                   else Ret false)
                keysA 0
      end.
Proof.
  intros Hne Hc Hl. simpl.
  apply Nat.eqb_neq in Hne. rewrite Hne. simpl. rewrite Hc, Hl. done.
Qed.

(** Cloning a reference comes down to the object it names. *)
Lemma deepClone_ref fuel l h o :
  h !! l = Some o →
  deepClone (S fuel) (VRef l) h
    = match o with
      | ODate time => Ret (alloc (ODate time) h)
      | OArray elems =>
          '(items, h) ← map_heap (deepClone fuel) elems h;
          Ret (alloc (OArray items) h)
      | OSet elems =>
          '(items, h) ← map_heap (deepClone fuel) elems h;
          Ret (alloc (OSet (Set_of items)) h)
      | OMap entries =>
          let '(cloned, h) := alloc (OMap []) h in
          h ← forEach_heap
                (fun '(key, value) h =>
                   '(key, h) ← deepClone fuel key h;
                   '(value, h) ← deepClone fuel value h;
                   Map_set h cloned key value)
                entries h;
          Ret (cloned, h)
      | ORecord props =>
          let '(cloned, h) := alloc (ORecord []) h in
          h ← forEach_heap
                (fun key h =>
                   x ← js_get h (VRef l) key;
                   '(x, h) ← deepClone fuel x h;
                   js_put h cloned key x)
                (Object_keys (ORecord props)) h;
          Ret (cloned, h)
      end.
Proof. intros Hl. simpl. by rewrite Hl. Qed.

(** *** One level of [deepClone]

    The children of an object clone well at [fuel] (hypothesis [IH]);
    then the object clones well at [S fuel]. *)
Section Level.

Variables (fuel : nat) (h0 : heap) (P : value → Prop).
Hypothesis IH : ∀ x, P x → clone_ok fuel h0 x.

Lemma clone_list elems :
  Forall P elems →
  ∀ h, h0 `prefix_of` h →
    ∃ items suf,
      map_heap (deepClone fuel) elems h = Ret (items, h ++ suf) ∧
      Forall2 (eq_in fuel h0 (h ++ suf) (length h) (length (h ++ suf)))
        items elems.
Proof.
  induction 1 as [|x rest Hx _ IHrest]; intros h Hpre.
  - exists [], []. rewrite app_nil_r. by split; [|constructor].
  - destruct (IH x Hx h Hpre) as (x' & suf1 & Hclone & _ & Heq).
    destruct (IHrest (h ++ suf1)) as (items & suf2 & Hmap & Hall);
      [by apply prefix_app_r|].
    exists (x' :: items), (suf1 ++ suf2). simpl.
    rewrite Hclone. simpl. rewrite Hmap. simpl.
    rewrite (assoc_L (++)). split; [done|]. constructor.
    + eapply eq_in_mono; [exact Heq|lia| |].
      * rewrite !length_app. lia.
      * intros l Hl. by rewrite lookup_app_l by lia.
    + eapply Forall2_impl; [exact Hall|]. intros y' y Hy.
      eapply eq_in_mono; [exact Hy| |lia|done].
      rewrite length_app. lia.
Qed.

(** A reference of the original store is below every new location. *)
Lemma original_below h l o c :
  h0 `prefix_of` h → h0 !! l = Some o → (length h ≤ c)%nat → c ≠ l.
Proof.
  intros Hpre Hl Hc. apply lookup_lt_Some in Hl.
  apply prefix_length in Hpre. lia.
Qed.

Lemma clone_Date l time :
  h0 !! l = Some (ODate time) → Num.is_nan time = false →
  clone_ok (S fuel) h0 (VRef l).
Proof.
  intros Hl Hnan h Hpre. exists (VRef (length h)), [ODate time].
  simpl. rewrite (prefix_lookup_Some _ _ _ _ Hl Hpre).
  repeat split.
  - exists (length h). split; [done|]. rewrite length_app. simpl. lia.
  - intros h2 Hpre2 Hag.
    rewrite (deepEqual_refs fuel h2 (length h) l (ODate time) (ODate time)).
    + by rewrite eqb_refl_not_nan.
    + eapply original_below; [exact Hpre|exact Hl|lia].
    + rewrite Hag by (rewrite length_app; simpl; lia).
      by apply list_lookup_middle.
    + by eapply prefix_lookup_Some.
Qed.

Lemma clone_Array l elems :
  h0 !! l = Some (OArray elems) → Forall P elems →
  clone_ok (S fuel) h0 (VRef l).
Proof.
  intros Hl Hall h Hpre.
  destruct (clone_list elems Hall h Hpre) as (items & suf & Hmap & Heq).
  exists (VRef (length (h ++ suf))), (suf ++ [OArray items]).
  simpl. rewrite (prefix_lookup_Some _ _ _ _ Hl Hpre), Hmap. simpl.
  unfold alloc. rewrite (assoc_L (++)). repeat split.
  - eexists. split; [done|]. rewrite !length_app. simpl. lia.
  - intros h2 Hpre2 Hag.
    rewrite (deepEqual_refs fuel h2 _ l (OArray items) (OArray elems)).
    + rewrite (Forall2_length _ _ _ Heq), Nat.eqb_refl. simpl.
      apply every_from_true. intros i x' Hx'. simpl.
      destruct (Forall2_lookup_l _ _ _ _ _ Heq Hx') as (x & Hx & Hxx).
      rewrite Hx. simpl. apply Hxx; [done|].
      intros c Hc. rewrite !length_app in Hc.
      rewrite Hag by (rewrite !length_app; simpl; lia).
      by rewrite lookup_app_l by (rewrite length_app; lia).
    + eapply original_below; [exact Hpre|exact Hl|]. rewrite length_app. lia.
    + rewrite Hag by (rewrite !length_app; simpl; lia).
      by apply list_lookup_middle.
    + by eapply prefix_lookup_Some.
Qed.

Lemma clone_Set l elems :
  h0 !! l = Some (OSet elems) → Forall P elems →
  clone_ok (S fuel) h0 (VRef l).
Proof.
  intros Hl Hall h Hpre.
  destruct (clone_list elems Hall h Hpre) as (items & suf & Hmap & Heq).
  exists (VRef (length (h ++ suf))), (suf ++ [OSet (Set_of items)]).
  simpl. rewrite (prefix_lookup_Some _ _ _ _ Hl Hpre), Hmap. simpl.
  unfold alloc. rewrite (assoc_L (++)). repeat split.
  - eexists. split; [done|]. rewrite !length_app. simpl. lia.
  - intros h2 Hpre2 Hag.
    rewrite (deepEqual_refs fuel h2 _ l (OSet (Set_of items)) (OSet elems)).
    + done.
    + eapply original_below; [exact Hpre|exact Hl|]. rewrite length_app. lia.
    + rewrite Hag by (rewrite !length_app; simpl; lia).
      by apply list_lookup_middle.
    + by eapply prefix_lookup_Some.
Qed.

Lemma filling_start h o : h0 `prefix_of` h → filling h0 h (h ++ [o]).
Proof.
  intros Hpre. split; [by apply prefix_app_r|]. split.
  - by rewrite take_app_length.
  - rewrite length_app. simpl. lia.
Qed.

Lemma filling_app h hc suf : filling h0 h hc → filling h0 h (hc ++ suf).
Proof.
  intros (Hpre & Htake & Hlen). split; [by apply prefix_app_r|]. split.
  - by rewrite take_app_le by lia.
  - rewrite length_app. lia.
Qed.

Lemma filling_insert h hc o :
  h0 `prefix_of` h → filling h0 h hc → filling h0 h (<[length h := o]> hc).
Proof.
  intros Hh (Hpre & Htake & Hlen). split; [|split].
  - destruct Hpre as [k ->]. apply prefix_length in Hh.
    rewrite insert_app_r_alt by lia. by apply prefix_app_r.
  - rewrite take_insert. case_decide; [lia | done].
  - by rewrite length_insert.
Qed.

Lemma filling_done h hc : filling h0 h hc → hc = h ++ drop (length h) hc.
Proof.
  intros (_ & Htake & _).
  rewrite <- (take_drop (length h) hc) at 1. by rewrite Htake.
Qed.

Lemma clone_entries h entries :
  h0 `prefix_of` h →
  Forall P (children (OMap entries)) →
  ∀ hc entriesk,
    filling h0 h hc → hc !! length h = Some (OMap entriesk) →
    ∃ hc' entriesk',
      forEach_heap
        (fun '(key, value) h1 =>
           '(key, h1) ← deepClone fuel key h1;
           '(value, h1) ← deepClone fuel value h1;
           Map_set h1 (VRef (length h)) key value)
        entries hc = Ret hc' ∧
      filling h0 h hc' ∧ hc' !! length h = Some (OMap entriesk').
Proof.
  intros Hh. induction entries as [|[key x] rest IHrest];
    intros Hall hc entriesk Hfill Hcell; simpl in *.
  - by exists hc, entriesk.
  - apply Forall_cons in Hall as [Hkey Hall].
    apply Forall_cons in Hall as [Hx Hall].
    destruct (IH key Hkey hc) as (key' & s1 & -> & _ & _); [apply Hfill|].
    simpl.
    destruct (IH x Hx (hc ++ s1)) as (x' & s2 & -> & _ & _);
      [apply prefix_app_r, Hfill|].
    simpl.
    assert (((hc ++ s1) ++ s2) !! length h = Some (OMap entriesk)) as Hcell'.
    { destruct Hfill as (_ & _ & Hlen).
      rewrite !lookup_app_l by (rewrite ?length_app; lia). done. }
    rewrite Hcell'.
    apply (IHrest Hall _ (entries_set entriesk key' x')).
    + by apply filling_insert, filling_app, filling_app.
    + apply list_lookup_insert_eq. by apply lookup_lt_Some in Hcell'.
Qed.

Lemma clone_Map l entries :
  h0 !! l = Some (OMap entries) → Forall P (children (OMap entries)) →
  clone_ok (S fuel) h0 (VRef l).
Proof.
  intros Hl Hall h Hpre.
  destruct (clone_entries h entries Hpre Hall (h ++ [OMap []]) [])
    as (hc & entriesF & Hrun & Hfill & Hcell);
    [by apply filling_start | by apply list_lookup_middle |].
  exists (VRef (length h)), (drop (length h) hc).
  rewrite <- (filling_done h hc Hfill).
  rewrite (deepClone_ref fuel l h _ (prefix_lookup_Some _ _ _ _ Hl Hpre)).
  unfold alloc. rewrite Hrun. simpl. repeat split.
  - exists (length h). split; [done|]. destruct Hfill as (_ & _ & ?). lia.
  - intros h2 Hpre2 Hag.
    rewrite (deepEqual_refs fuel h2 _ l (OMap entriesF) (OMap entries)).
    + done.
    + eapply original_below; [exact Hpre|exact Hl|lia].
    + rewrite Hag; [done|]. destruct Hfill as (_ & _ & ?). lia.
    + by eapply prefix_lookup_Some.
Qed.

Lemma clone_props l props h :
  h0 `prefix_of` h →
  h0 !! l = Some (ORecord props) →
  Forall P (children (ORecord props)) →
  plain_object (ORecord props) = true →
  ∀ keys done_ hc propsk,
    fst <$> props = done_ ++ keys →
    filling h0 h hc → copied fuel h0 props h hc done_ propsk →
    ∃ hc' propsk',
      forEach_heap
        (fun key h1 =>
           x ← js_get h1 (VRef l) key;
           '(x, h1) ← deepClone fuel x h1;
           js_put h1 (VRef (length h)) key x)
        keys hc = Ret hc' ∧
      filling h0 h hc' ∧ copied fuel h0 props h hc' (done_ ++ keys) propsk'.
Proof.
  intros Hh Hl Hall Hplain.
  apply andb_true_iff in Hplain as [Hnodup Hproto].
  apply bool_decide_eq_true in Hnodup. apply negb_true_iff in Hproto.
  induction keys as [|key keys IHkeys];
    intros done_ hc propsk Hkeys Hfill Hcopied.
  - exists hc, propsk. by rewrite app_nil_r.
  - assert (key ∈ fst <$> props) as Hkey
      by (rewrite Hkeys; apply elem_of_app; right; by left).
    assert (key ∉ done_) as Hnew.
    { rewrite Hkeys in Hnodup. apply NoDup_app in Hnodup as (_ & Hdisj & _).
      intros Hin. apply (Hdisj key Hin). by left. }
    destruct (props_get_Some props key Hkey) as (x & Hx & Hchild).
    assert (P x) as HPx by (by eapply Forall_forall in Hall).
    destruct Hcopied as (Hcell & Hlen & Hnone & Hsome).
    cbn [forEach_heap].
    assert (js_get hc (VRef l) key = Ret x) as ->.
    { simpl. destruct Hfill as (Hpre & _).
      by rewrite (prefix_lookup_Some _ _ _ _ Hl Hpre), Hx. }
    simpl.
    destruct (IH x HPx hc) as (x' & s1 & -> & _ & Heq); [apply Hfill|].
    simpl.
    assert ((hc ++ s1) !! length h = Some (ORecord propsk)) as Hcell'
      by (by apply lookup_app_l_Some).
    assert (String.eqb key "__proto__" = false) as Hkp.
    { apply not_true_is_false. intros ->%String.eqb_eq.
      apply not_true_iff_false in Hproto. apply Hproto.
      apply existsb_exists. exists "__proto__"%string.
      split; [by apply list_elem_of_In | apply String.eqb_refl]. }
    rewrite Hcell', (Hnone key Hnew), Hkp.
    unfold props_set. rewrite (Hnone key Hnew).
    set (propsk' := props_add propsk key x').
    set (hc1 := <[length h := ORecord propsk']> (hc ++ s1)).
    assert (length hc1 = length (hc ++ s1)) as Hlen1
      by (unfold hc1; by rewrite length_insert).
    assert (length h < length hc)%nat as Hc by apply Hfill.
    destruct (IHkeys (done_ ++ [key]) hc1 propsk')
      as (hc' & propsF & Hrun & Hfill' & Hcopied').
    + by rewrite <- (assoc_L (++)).
    + by apply filling_insert, filling_app.
    + repeat split.
      * apply list_lookup_insert_eq. rewrite length_app. lia.
      * unfold propsk'. rewrite length_props_add, length_app. simpl. lia.
      * intros key' Hkey'. unfold propsk'.
        rewrite props_get_add by (by apply Hnone).
        destruct (String.eqb_spec key key') as [-> | Hne].
        -- exfalso. apply Hkey'. apply elem_of_app. right. by left.
        -- apply Hnone. intros Hin. apply Hkey'. apply elem_of_app. by left.
      * intros key' y'. unfold propsk'.
        rewrite props_get_add by (by apply Hnone).
        destruct (String.eqb_spec key key') as [<- | Hne].
        -- intros [= <-]. exists x. split; [done|].
           eapply eq_in_mono; [exact Heq|lia|lia|].
           intros c Hc'. unfold hc1. by rewrite list_lookup_insert_ne by lia.
        -- intros Hy'. destruct (Hsome key' y' Hy') as (y & Hy & Hyy).
           exists y. split; [done|].
           eapply eq_in_mono; [exact Hyy|lia| |].
           ++ rewrite Hlen1, length_app. lia.
           ++ intros c Hc'. unfold hc1.
              rewrite list_lookup_insert_ne by lia.
              by rewrite lookup_app_l by lia.
    + exists hc', propsF. rewrite <- (assoc_L (++)) in Hcopied'. done.
Qed.

Lemma clone_Record l props :
  h0 !! l = Some (ORecord props) →
  Forall P (children (ORecord props)) →
  plain_object (ORecord props) = true →
  clone_ok (S fuel) h0 (VRef l).
Proof.
  intros Hl Hall Hplain h Hpre.
  destruct (clone_props l props h Hpre Hl Hall Hplain
              (fst <$> props) [] (h ++ [ORecord []]) [])
    as (hc & propsF & Hrun & Hfill & Hcell & Hlen & _ & Hsome).
  { done. }
  { by apply filling_start. }
  { repeat split; [by apply list_lookup_middle|done..]. }
  exists (VRef (length h)), (drop (length h) hc).
  rewrite <- (filling_done h hc Hfill).
  rewrite (deepClone_ref fuel l h _ (prefix_lookup_Some _ _ _ _ Hl Hpre)).
  unfold alloc. simpl in Hrun |- *. rewrite Hrun. simpl.
  assert (length h < length hc)%nat as Hc by apply Hfill.
  repeat split.
  - exists (length h). split; [done | lia].
  - intros h2 Hpre2 Hag.
    assert (h2 !! length h = Some (ORecord propsF)) as Hc2
      by (rewrite Hag by lia; done).
    assert (h2 !! l = Some (ORecord props)) as Hl2
      by (by eapply prefix_lookup_Some).
    assert (length h ≠ l) as Hne
      by (eapply original_below; [exact Hpre|exact Hl|lia]).
    rewrite (deepEqual_refs fuel h2 _ l _ _ Hne Hc2 Hl2).
    simpl in Hlen. rewrite length_fmap in Hlen.
    simpl. rewrite !length_fmap, Hlen, Nat.eqb_refl. simpl.
    apply every_from_true. intros i key Hkey.
    apply list_elem_of_lookup_2 in Hkey.
    destruct (props_get_Some propsF key Hkey) as (x' & Hx' & _).
    destruct (Hsome key x' Hx') as (x & Hx & Heq).
    assert (existsb (String.eqb key) (fst <$> props) = true) as ->.
    { apply existsb_exists. exists key. split; [|apply String.eqb_refl].
      apply list_elem_of_In. by eapply props_get_key. }
    rewrite Hc2, Hx', Hl2, Hx. simpl.
    apply Heq; [done|]. intros c Hc'. apply Hag. lia.
Qed.

End Level.

(** *** The induction on the depth *)

Lemma clone_primitive fuel h0 v :
  plain_value v = true → (∀ l, v ≠ VRef l) → clone_ok (S fuel) h0 v.
Proof.
  intros Hv Hprim h Hpre. exists v, []. rewrite app_nil_r.
  split; [by destruct v; try done; destruct (Hprim l)|].
  split; [by destruct v; try done; destruct (Hprim l)|].
  intros h2 _ _. simpl. by rewrite strict_eq_refl.
Qed.

Lemma plain_ref d h l :
  plain d h (VRef l) = true →
  ∃ d' o, d = S d' ∧ h !! l = Some o ∧ plain_object o = true ∧
          Forall (fun x => plain d' h x = true) (children o).
Proof.
  unfold plain. destruct d as [|d']; simpl; [done|].
  destruct (h !! l) as [o|]; [|done].
  intros [Ho Hall]%andb_true_iff. exists d', o. repeat split; [done|].
  apply Forall_forall. intros x Hx.
  eapply forallb_forall in Hall; [exact Hall | by apply list_elem_of_In].
Qed.

Lemma deepClone_plain d :
  ∀ fuel h0 v, (d < fuel)%nat → plain d h0 v = true → clone_ok fuel h0 v.
Proof.
  induction d as [d IHd] using lt_wf_ind. intros fuel h0 v Hfuel Hplain.
  destruct fuel as [|fuel]; [lia|].
  assert ((∃ l, v = VRef l) ∨ ∀ l, v ≠ VRef l) as [[l ->] | Hprim]
    by (destruct v; eauto).
  - destruct (plain_ref _ _ _ Hplain) as (d' & o & -> & Hl & Ho & Hall).
    assert (∀ x, plain d' h0 x = true → clone_ok fuel h0 x) as IH
      by (intros x Hx; apply (IHd d'); [lia | lia | done]).
    destruct o as [time|elems|elems|entries|props].
    + apply (clone_Date fuel h0 l time Hl). by apply negb_true_iff.
    + by apply (clone_Array fuel h0 _ IH l elems).
    + by apply (clone_Set fuel h0 _ IH l elems).
    + by apply (clone_Map fuel h0 _ IH l entries).
    + by apply (clone_Record fuel h0 _ IH l props).
  - apply clone_primitive.
    + unfold plain in Hplain. destruct v; try done.
      destruct d; simpl in Hplain; by rewrite andb_true_r in Hplain.
    + done.
Qed.

(** C2, amended: a value without cycle that holds no NaN, no invalid Date
    and no key ["__proto__"] clones, given fuel beyond its depth, to a value
    that [deepEqual] finds equal to it; the clone of an object is another
    object ([===] is false), and the objects of the store before the call
    are left as they were. *)
Theorem deepClone_deepEqual d fuel h v :
  plain d h v = true → (d < fuel)%nat →
  ∃ v' h',
    deepClone fuel v h = Ret (v', h') ∧
    deepEqual fuel h' v' v = Ret true ∧
    (∀ l, v = VRef l → strict_eq v' v = false) ∧
    h `prefix_of` h'.
Proof.
  intros Hplain Hfuel.
  destruct (deepClone_plain d fuel h v Hfuel Hplain h) as
    (v' & suf & Hclone & Hfresh & Heq); [done|].
  exists v', (h ++ suf). repeat split; [done| | |by apply prefix_app_r].
  - apply Heq; [by apply prefix_app_r | done].
  - intros l ->. destruct Hfresh as (c & -> & Hc).
    destruct (plain_ref _ _ _ Hplain) as (_ & o & _ & Hl & _).
    apply lookup_lt_Some in Hl. simpl. apply Nat.eqb_neq. lia.
Qed.

End StoreFacts.

Section PathFacts.

Import ObjectUtils.
Local Open Scope string_scope.

Implicit Types (h : heap) (props : list (string * value)).

(** C7, amended: the empty path splits into the one segment [""], the name
    of a property like any other. On a record, [get] returns the value of
    the property named by the empty string, or the default when the record
    has none; [has] tells whether the record has it; and [set] is accepted
    and assigns it. *)
Theorem empty_path_is_a_key h l props (defaultValue x : value) :
  h !! l = Some (ORecord props) →
  split_dots "" = [""] ∧
  get h (VRef l) "" defaultValue
    = Ret (default defaultValue (props_get props "")) ∧
  has h (VRef l) "" = Ret (bool_decide (is_Some (props_get props ""))) ∧
  set h (VRef l) "" x = Ret (<[l := ORecord (props_set props "" x)]> h).
Proof.
  intros Hl. unfold get, has, set. simpl. rewrite Hl.
  destruct (props_get props "") as [y|] eqn:Hy; simpl; rewrite ?Hl, ?Hy; done.
Qed.

End PathFacts.

Section StoreExamples.

Import ObjectUtils Shape Samples.
Local Open Scope string_scope.

(** C2 fails as stated. The array [[NaN]] has no cycle; its clone is a
    second array holding NaN, and [deepEqual] never finds the two equal,
    because [NaN === NaN] is false. The record with the own key
    ["__proto__"] clones to a record without it. *)
Lemma deepClone_not_deepEqual :
  (let h := [OArray [VNum Num.NaN]] in
   acyclic 1 h (VRef 0) = true ∧
   ∃ h', deepClone 2 (VRef 0) h = Ret (VRef 1, h') ∧
         ∀ fuel, deepEqual fuel h' (VRef 1) (VRef 0) ≠ Ret true) ∧
  (let h := [ORecord [("__proto__", VNum (Num.of_Z 1))]] in
   acyclic 1 h (VRef 0) = true ∧
   ∃ h', deepClone 2 (VRef 0) h = Ret (VRef 1, h') ∧
         ∀ fuel, deepEqual fuel h' (VRef 1) (VRef 0) ≠ Ret true).
Proof.
  split; (split; [reflexivity|]); eexists; (split; [reflexivity|]);
    intros [|[|fuel]]; discriminate.
Qed.

(** C2 at work on the object of the repository's test of [deepClone]. *)
Lemma deepClone_deepEqual_witness :
  ∃ v' h',
    deepClone 4 (VRef 5) sample_store = Ret (v', h') ∧
    deepEqual 4 h' v' (VRef 5) = Ret true ∧
    (∀ l, VRef 5 = VRef l → strict_eq v' (VRef 5) = false) ∧
    sample_store `prefix_of` h'.
Proof.
  apply (deepClone_deepEqual 3 4 sample_store (VRef 5)).
  - reflexivity.
  - lia.
Defined.

(** C4: a Date and a record without keys are of different kinds, and
    [deepEqual] answers [true]: no test separates a Date from a non-Date the
    way the test on [Array.isArray] separates an array from a record. *)
Lemma deepEqual_Date_record :
  let h := [ODate (Num.of_Z 0); ORecord []; OArray []] in
  deepEqual 1 h (VRef 0) (VRef 1) = Ret true ∧
  deepEqual 1 h (VRef 2) (VRef 1) = Ret false.
Proof. split; reflexivity. Qed.

(** C5: a path that goes on below a string value makes [get] raise a
    TypeError ([in] refuses a primitive on its right) instead of returning the
    default; below [null] the default is returned. *)
Lemma get_below_primitive :
  get nested_store (VRef 2) "a.b.c.d" (VStr "default") = Throw TypeError ∧
  get nested_store (VRef 2) "x.y" (VStr "default") = Ret (VStr "default").
Proof. split; reflexivity. Qed.

(** C6: [null] at an inner segment is not replaced by an empty record
    ([typeof null] is ["object"]) and the assignment below it raises a
    TypeError; a number at the same place is replaced. *)
Lemma set_below_null :
  set [ORecord [("a", VNull)]] (VRef 0) "a.b" (VNum (Num.of_Z 1))
    = Throw TypeError ∧
  set [ORecord [("a", VNum (Num.of_Z 5))]] (VRef 0) "a.b" (VNum (Num.of_Z 1))
    = Ret [ORecord [("a", VRef 1)]; ORecord [("b", VNum (Num.of_Z 1))]].
Proof. split; reflexivity. Qed.

(** C7 fails as stated: on the empty path [get] returns the default, not
    the object, [has] answers [false], and [set] accepts the path, adding a
    property whose name is the empty string. *)
Lemma empty_path_not_root :
  let h := [ORecord [("a", VNum (Num.of_Z 1))]] in
  get h (VRef 0) "" VUndefined = Ret VUndefined ∧
  get h (VRef 0) "" VUndefined ≠ Ret (VRef 0) ∧
  has h (VRef 0) "" = Ret false ∧
  set h (VRef 0) "" (VNum (Num.of_Z 2))
    = Ret [ORecord [("a", VNum (Num.of_Z 1)); ("", VNum (Num.of_Z 2))]].
Proof. repeat split; discriminate. Qed.

(** C7 at work on the object of the repository's test of [get]. *)
Lemma empty_path_is_a_key_witness :
  split_dots "" = [""] ∧
  get nested_store (VRef 2) "" VUndefined
    = Ret (default VUndefined
             (props_get [("a", VRef 1); ("x", VNull)] "")) ∧
  has nested_store (VRef 2) ""
    = Ret (bool_decide (is_Some (props_get [("a", VRef 1); ("x", VNull)] ""))) ∧
  set nested_store (VRef 2) "" VNull
    = Ret (<[2%nat := ORecord (props_set [("a", VRef 1); ("x", VNull)] "" VNull)]>
             nested_store).
Proof.
  apply (empty_path_is_a_key nested_store 2 [("a", VRef 1); ("x", VNull)]).
  reflexivity.
Defined.

End StoreExamples.

(** * The tests of the repository, run on the embedding *)

Section RepositoryTests.

Import ArrayUtils ObjectUtils Samples.
Local Open Scope string_scope.

Let half : number := Num.div (Num.of_Z 1) (Num.of_Z 2).
Let numbers (l : list Z) : list number := Num.of_Z <$> l.

(** 'should return undefined for empty arrays', 'should throw error for
    mismatched array lengths', 'should throw error for negative weights',
    'should return undefined for zero total weight' *)
Example weightedSample_tests :
  weightedSample (fixed_source half) (@nil string) [] 0%nat = (Ret None, 0%nat) ∧
  weightedSample (fixed_source half) (@nil string) (numbers [1]) 0%nat
    = (Ret None, 0%nat) ∧
  weightedSample (fixed_source half) ["a"; "b"] (numbers [1]) 0%nat
    = (Throw LengthMismatch, 0%nat) ∧
  weightedSample (fixed_source half) ["a"; "b"] (numbers [1; -1]) 0%nat
    = (Throw InvalidWeight, 0%nat) ∧
  weightedSample (fixed_source half) ["a"; "b"] (numbers [0; 0]) 0%nat
    = (Ret None, 0%nat) ∧
  weightedSample (fixed_source half) ["a"; "b"] (numbers [1; 0]) 0%nat
    = (Ret (Some "a"), 1%nat) ∧
  weightedSample (fixed_source half) ["a"; "b"] (numbers [0; 1]) 0%nat
    = (Ret (Some "b"), 1%nat) ∧
  weightedSample (fixed_source half) ["a"] (numbers [5]) 0%nat
    = (Ret (Some "a"), 1%nat).
Proof. repeat split. Qed.

(** 'should return n samples with replacement', 'should not exceed array
    length', 'should respect zero weights' *)
Example weightedSampleSize_tests :
  weightedSampleSize (fixed_source half) ["a"] (numbers [1]) 3 0%nat
    = (Ret ["a"; "a"; "a"], 3%nat) ∧
  weightedSampleSize (fixed_source half) ["a"; "b"] (numbers [1; 1]) (-1) 0%nat
    = (Ret [], 0%nat) ∧
  weightedSampleSizeWithoutReplacement (fixed_source half)
      ["a"; "b"] (numbers [1; 1]) 5 0%nat = (Ret ["a"; "b"], 2%nat) ∧
  weightedSampleSizeWithoutReplacement (fixed_source half)
      ["a"; "b"; "c"] (numbers [1; 0; 1]) 2 0%nat = (Ret ["a"; "c"], 2%nat) ∧
  weightedSampleSizeWithoutReplacement (fixed_source half)
      ["a"; "b"] (numbers [1]) 2 0%nat = (Throw LengthMismatch, 0%nat).
Proof. repeat split. Qed.

(** 'should calculate weighted average correctly' (the second value is the
    binary64 number the test writes 2.3333333333333335), 'should return 0
    for zero total weight', 'should calculate weighted sum correctly' *)
Example weightedAverage_tests :
  weightedAverage (numbers [1; 2; 3]) (numbers [1; 1; 1]) = Ret (Num.of_Z 2) ∧
  weightedAverage (numbers [1; 2; 3]) (numbers [1; 2; 3])
    = Ret (S754_finite false 0x12aaaaaaaaaaab (-51)) ∧
  weightedAverage (numbers [10; 20]) (numbers [1; 4]) = Ret (Num.of_Z 18) ∧
  weightedAverage (numbers [1; 2; 3]) (numbers [0; 0; 0]) = Ret Num.zero ∧
  weightedAverage (numbers [1; 2]) (numbers [1]) = Throw LengthMismatch ∧
  weightedSum (numbers [1; 2; 3]) (numbers [2; 3; 4]) = Ret (Num.of_Z 20) ∧
  weightedSum (numbers [10; 20]) [half; half] = Ret (Num.of_Z 15).
Proof. repeat split. Qed.

(** 'should create weighted frequency map', 'should accumulate weights for
    duplicate items', 'should return element with maximum weight', 'should
    return first element for ties' *)
Example weightedFrequency_tests :
  weightedFrequency ["a"; "b"; "a"] (numbers [1; 2; 3])
    = Ret [("a", Num.of_Z 4); ("b", Num.of_Z 2)] ∧
  weightedFrequency ["x"; "y"; "x"; "x"] (numbers [1; 2; 3; 4])
    = Ret [("x", Num.of_Z 8); ("y", Num.of_Z 2)] ∧
  weightedMax ["a"; "b"; "c"] (numbers [1; 3; 2]) = Ret (Some "b") ∧
  weightedMax ["a"; "b"; "c"] (numbers [2; 2; 1]) = Ret (Some "a") ∧
  weightedMin ["a"; "b"; "c"] (numbers [3; 1; 2]) = Ret (Some "b") ∧
  weightedMin ["a"; "b"; "c"] (numbers [1; 1; 2]) = Ret (Some "a").
Proof. repeat split. Qed.

(** 'should check deep equality', 'should handle dates', 'should handle
    arrays', 'should handle primitive values' *)
Example deepEqual_tests :
  (let h := [ OArray (VNum <$> numbers [3; 4]);
              ORecord [("c", VNum (Num.of_Z 2)); ("d", VRef 0)];
              ORecord [("a", VNum (Num.of_Z 1)); ("b", VRef 1)];
              OArray (VNum <$> numbers [3; 4]);
              ORecord [("c", VNum (Num.of_Z 2)); ("d", VRef 3)];
              ORecord [("a", VNum (Num.of_Z 1)); ("b", VRef 4)];
              OArray (VNum <$> numbers [3; 5]);
              ORecord [("c", VNum (Num.of_Z 2)); ("d", VRef 6)];
              ORecord [("a", VNum (Num.of_Z 1)); ("b", VRef 7)] ] in
   deepEqual 4 h (VRef 2) (VRef 5) = Ret true ∧
   deepEqual 4 h (VRef 2) (VRef 8) = Ret false) ∧
  (let h := [ODate (Num.of_Z 1672531200000); ODate (Num.of_Z 1672531200000);
             ODate (Num.of_Z 1672617600000)] in
   deepEqual 1 h (VRef 0) (VRef 1) = Ret true ∧
   deepEqual 1 h (VRef 0) (VRef 2) = Ret false) ∧
  (let h := [ OArray (VNum <$> numbers [1; 2; 3]);
              OArray (VNum <$> numbers [1; 2; 3]);
              OArray (VNum <$> numbers [1; 2; 4]);
              OArray (VNum <$> numbers [1; 2]) ] in
   deepEqual 2 h (VRef 0) (VRef 1) = Ret true ∧
   deepEqual 2 h (VRef 0) (VRef 2) = Ret false ∧
   deepEqual 2 h (VRef 3) (VRef 0) = Ret false) ∧
  deepEqual 1 [] VNull VNull = Ret true ∧
  deepEqual 1 [] (VStr "test") (VStr "test") = Ret true ∧
  deepEqual 1 [] VNull VUndefined = Ret false.
Proof. repeat split. Qed.

(** 'should get nested values using dot notation', 'should check if nested
    path exists' *)
Example get_tests :
  get nested_store (VRef 2) "a.b.c" VUndefined = Ret (VStr "value") ∧
  get nested_store (VRef 2) "a.b" VUndefined = Ret (VRef 0) ∧
  get nested_store (VRef 2) "x" VUndefined = Ret VNull ∧
  get nested_store (VRef 2) "a.b.d" (VStr "default") = Ret (VStr "default") ∧
  get nested_store (VRef 2) "missing.path" (VStr "default")
    = Ret (VStr "default") ∧
  has nested_store (VRef 2) "a.b.c" = Ret true ∧
  has nested_store (VRef 2) "a.b" = Ret true ∧
  has nested_store (VRef 2) "a.b.d" = Ret false ∧
  has nested_store (VRef 2) "missing" = Ret false.
Proof. repeat split. Qed.

(** 'should set nested values using dot notation', 'should override
    existing values' *)
Example set_tests :
  set [ORecord []] (VRef 0) "a.b.c" (VStr "value")
    = Ret [ ORecord [("a", VRef 1)]; ORecord [("b", VRef 2)];
            ORecord [("c", VStr "value")] ] ∧
  set [ ORecord [("a", VRef 1)]; ORecord [("b", VRef 2)];
        ORecord [("c", VStr "value")] ] (VRef 0) "a.b.d" (VStr "another")
    = Ret [ ORecord [("a", VRef 1)]; ORecord [("b", VRef 2)];
            ORecord [("c", VStr "value"); ("d", VStr "another")] ] ∧
  set [ORecord [("a", VRef 1)]; ORecord [("b", VStr "old")]] (VRef 0) "a.b"
      (VStr "new")
    = Ret [ORecord [("a", VRef 1)]; ORecord [("b", VStr "new")]].
Proof. repeat split. Qed.

(** 'should validate credit card numbers' of both test files *)
Example creditCard_tests :
  StringUtils.isValidCreditCard "4532-0151-1283-0366" = true ∧
  StringUtils.isValidCreditCard "4532 0151 1283 0366" = true ∧
  StringUtils.isValidCreditCard "123" = false ∧
  ValidationUtils.isCreditCard (VStr "5555555555554444") = true ∧
  ValidationUtils.isCreditCard (VStr "1234567890123456") = false ∧
  ValidationUtils.isCreditCard (VNum (Num.of_Z 4532015112830366)) = false.
Proof. repeat split. Qed.

End RepositoryTests.

(** * Further facts, function by function *)

Section SliceFacts.

Context {A : Type}.
Implicit Types (array : list A).

Lemma slice_nonneg array (start end_ : Z) :
  0 ≤ start → start ≤ end_ →
  Arrays.slice array start end_
    = take (Z.to_nat (end_ - start)) (drop (Z.to_nat start) array).
Proof.
  intros Hs He. unfold Arrays.slice, Arrays.relative.
  destruct (Z.ltb_spec start 0), (Z.ltb_spec end_ 0); try lia.
  destruct (Z.le_gt_cases start (Z.of_nat (length array))).
  - rewrite (Z.min_l start) by lia.
    destruct (Z.le_gt_cases end_ (Z.of_nat (length array))).
    + by rewrite (Z.min_l end_) by lia.
    + rewrite (Z.min_r end_) by lia.
      rewrite !take_ge; [done| |]; rewrite length_drop; lia.
  - rewrite !drop_ge by lia. by rewrite !take_nil.
Qed.

Lemma slice_from_nonneg array (start : Z) :
  0 ≤ start → Arrays.slice_from array start = drop (Z.to_nat start) array.
Proof.
  intros Hs. unfold Arrays.slice_from, Arrays.slice, Arrays.relative.
  destruct (Z.ltb_spec start 0), (Z.ltb_spec (Z.of_nat (length array)) 0);
    try lia.
  rewrite Z.min_id.
  destruct (Z.le_gt_cases start (Z.of_nat (length array))).
  - rewrite (Z.min_l start) by lia. apply take_ge. rewrite length_drop. lia.
  - rewrite !drop_ge by lia. by rewrite take_nil.
Qed.

Lemma slice_prefix array (end_ : Z) :
  0 ≤ end_ → Arrays.slice array 0 end_ = take (Z.to_nat end_) array.
Proof.
  intros He. rewrite slice_nonneg by lia. simpl. by rewrite Z.sub_0_r.
Qed.

End SliceFacts.

Section ChunkFacts.

Context {T : Type} `{EqDecision T}.
Implicit Types (array : list T).

Lemma chunk_loop_spec array (size : Z) (steps k : nat) :
  0 < size →
  (length array ≤ k + steps)%nat →
  let chunks := Arrays.chunk_loop array size (Z.of_nat k) steps in
  concat chunks = drop k array ∧
  (∀ j c, chunks !! j = Some c →
     c = take (Z.to_nat size) (drop (k + j * Z.to_nat size) array) ∧ c ≠ []) ∧
  ((k ≤ length array)%nat →
   Z.of_nat (length array) - Z.of_nat k ≤ Z.of_nat (length chunks) * size
     < Z.of_nat (length array) - Z.of_nat k + size).
Proof.
  intros Hsize. revert k. induction steps as [|steps IH]; intros k Hk; simpl.
  - split_and!; [by rewrite drop_ge by lia|done|simpl; lia].
  - destruct (Z.ltb_spec (Z.of_nat k) (Z.of_nat (length array))); last first.
    { split_and!; [by rewrite drop_ge by lia|done|simpl; lia]. }
    rewrite slice_nonneg by lia.
    replace (Z.of_nat k + size - Z.of_nat k) with size by lia.
    rewrite Nat2Z.id.
    replace (Z.of_nat k + size) with (Z.of_nat (k + Z.to_nat size)) by lia.
    destruct (IH (k + Z.to_nat size)%nat) as (Hcat & Hat & Hlen); [lia|].
    split_and!.
    + simpl. rewrite Hcat, <- drop_drop. apply take_drop.
    + intros [|j] c; simpl.
      * intros [= <-]. rewrite Nat.add_0_r. split; [done|].
        intros Hnil. apply (f_equal length) in Hnil.
        rewrite length_take, length_drop in Hnil. simpl in Hnil. lia.
      * intros Hc. apply Hat in Hc as [-> Hne]. split; [|done].
        do 2 f_equal. lia.
    + intros _. simpl length.
      destruct (decide (k + Z.to_nat size ≤ length array)%nat) as [Hin|Hout].
      * specialize (Hlen Hin). lia.
      * assert (Arrays.chunk_loop array size (Z.of_nat (k + Z.to_nat size))
                  steps = []) as ->; [|simpl; lia].
        destruct steps; [done|]. simpl.
        destruct (Z.ltb_spec (Z.of_nat (k + Z.to_nat size))
                    (Z.of_nat (length array))); [lia|done].
Qed.

(** X1: for an integer [size], [chunk] raises its error when [size] is
    zero or less. When it is positive the chunks, put end to end, are the
    array; the chunk at index [j] holds the [size] elements from position
    [j * size] on (fewer at the end of the array) and is never empty; and
    their number [n] is the least with [length <= n * size]. *)
Theorem chunk_pieces array (size : Z) :
  (size ≤ 0 →
   Arrays.chunk array size
     = Arrays.ThrowError "Chunk size must be greater than 0") ∧
  (0 < size →
   ∃ chunks,
     Arrays.chunk array size = Arrays.Return chunks ∧
     concat chunks = array ∧
     (∀ j c, chunks !! j = Some c →
        c = take (Z.to_nat size) (drop (j * Z.to_nat size) array) ∧ c ≠ []) ∧
     Z.of_nat (length array) ≤ Z.of_nat (length chunks) * size
       < Z.of_nat (length array) + size).
Proof.
  unfold Arrays.chunk. split; intros Hsize.
  - by destruct (Z.leb_spec size 0); [|lia].
  - destruct (Z.leb_spec size 0); [lia|].
    eexists; split; [done|].
    destruct (chunk_loop_spec array size (length array) 0 Hsize)
      as (Hcat & Hat & Hlen); [lia|].
    specialize (Hlen (Nat.le_0_l _)). change (Z.of_nat 0) with 0 in *.
    simpl in *. split_and!; [done|done|lia|lia].
Qed.

End ChunkFacts.

Section PrefixFacts.

Context {T : Type} `{EqDecision T}.
Implicit Types (array items result : list T) (predicate : T → bool).

Lemma take_drop_parts array (n : Z) :
  Arrays.take array n ++ Arrays.drop array n = array ∧
  Z.of_nat (length (Arrays.take array n))
    = Z.max 0 (Z.min n (Z.of_nat (length array))).
Proof.
  unfold Arrays.take, Arrays.drop. destruct (Z.leb_spec n 0).
  - split; [done|simpl; lia].
  - rewrite slice_prefix, slice_from_nonneg by lia. split.
    + apply take_drop.
    + rewrite length_take. lia.
Qed.

Lemma takeWhile_loop_spec predicate items result :
  ∃ k : nat,
    (k ≤ length items)%nat ∧
    Arrays.takeWhile_loop predicate items result = result ++ take k items ∧
    Forall (fun x => predicate x = true) (take k items) ∧
    (∀ x, items !! k = Some x → predicate x = false).
Proof.
  revert result. induction items as [|item items IH]; intros result; simpl.
  - exists 0%nat. by rewrite app_nil_r.
  - destruct (predicate item) eqn:Hp; simpl.
    + destruct (IH (result ++ [item])) as (k & Hk & -> & Hall & Hstop).
      exists (S k). simpl. split_and!; [lia| |by constructor|done].
      by rewrite <- app_assoc.
    + exists 0%nat. simpl. rewrite app_nil_r.
      split_and!; [lia|done|done|by intros x [= <-]].
Qed.

Lemma dropWhile_loop_spec predicate array (startIndex remaining : nat) :
  (startIndex + remaining = length array)%nat →
  let k := Arrays.dropWhile_loop array predicate startIndex remaining in
  (startIndex ≤ k ≤ length array)%nat ∧
  (∀ j x, (startIndex ≤ j < k)%nat → array !! j = Some x →
          predicate x = true) ∧
  (∀ x, array !! k = Some x → predicate x = false).
Proof.
  revert startIndex. induction remaining as [|remaining IH];
    intros startIndex Hlen; simpl.
  - split_and!; [lia|lia|lia|].
    intros x Hx. apply lookup_lt_Some in Hx. lia.
  - destruct (array !! startIndex) as [item|] eqn:Hitem.
    + destruct (predicate item) eqn:Hp.
      * destruct (IH (S startIndex)) as ((? & ?) & Hall & Hstop); [lia|].
        split_and!; [lia|lia| |done].
        intros j x Hj Hx. destruct (decide (j = startIndex)) as [->|].
        -- congruence.
        -- apply (Hall j); [lia|done].
      * split_and!; [lia|lia|lia|]. intros x Hx. congruence.
    + apply lookup_ge_None in Hitem. lia.
Qed.

Lemma takeWhile_dropWhile_parts array predicate :
  Arrays.takeWhile array predicate ++ Arrays.dropWhile array predicate = array ∧
  Forall (fun x => predicate x = true) (Arrays.takeWhile array predicate) ∧
  (∀ x, head (Arrays.dropWhile array predicate) = Some x →
        predicate x = false).
Proof.
  unfold Arrays.takeWhile, Arrays.dropWhile.
  destruct (takeWhile_loop_spec predicate array []) as (k & Hk & -> & Hall & Hstop).
  destruct (dropWhile_loop_spec predicate array 0 (length array) eq_refl)
    as ((_ & Hk') & Hall' & Hstop').
  set (k' := Arrays.dropWhile_loop array predicate 0 (length array)) in *.
  assert (k = k') as <-.
  { destruct (Nat.lt_trichotomy k k') as [Hlt|[Heq|Hgt]]; [|done|].
    - destruct (lookup_lt_is_Some_2 array k) as [x Hx]; [lia|].
      specialize (Hstop x Hx). specialize (Hall' k x ltac:(lia) Hx).
      congruence.
    - destruct (lookup_lt_is_Some_2 array k') as [x Hx]; [lia|].
      specialize (Hstop' x Hx).
      rewrite Forall_lookup in Hall.
      specialize (Hall k' x). rewrite lookup_take_lt in Hall by lia.
      specialize (Hall Hx). simpl in Hall. congruence. }
  rewrite slice_from_nonneg, Nat2Z.id by lia. simpl.
  split_and!; [apply take_drop|done|].
  intros x Hx. apply Hstop. by rewrite head_lookup, lookup_drop, Nat.add_0_r in Hx.
Qed.

(** X2: what is taken and what is dropped make up the array. For every
    integer [n], [take(array, n)] followed by [drop(array, n)] is [array],
    and [take] holds [min(max(n, 0), length)] elements. For every predicate,
    [takeWhile(array, p)] followed by [dropWhile(array, p)] is [array],
    every element taken satisfies [p], and the first element dropped, if
    there is one, does not. *)
Theorem take_drop_split array (n : Z) predicate :
  (Arrays.take array n ++ Arrays.drop array n = array ∧
   Z.of_nat (length (Arrays.take array n))
     = Z.max 0 (Z.min n (Z.of_nat (length array)))) ∧
  (Arrays.takeWhile array predicate ++ Arrays.dropWhile array predicate
     = array ∧
   Forall (fun x => predicate x = true) (Arrays.takeWhile array predicate) ∧
   (∀ x, head (Arrays.dropWhile array predicate) = Some x →
         predicate x = false)).
Proof.
  split; [apply take_drop_parts|apply takeWhile_dropWhile_parts].
Qed.

End PrefixFacts.

Section RotateFacts.

Context {T : Type} `{EqDecision T}.
Implicit Types (array items result : list T) (predicate : T → bool).

Lemma normalized_mod (n len : Z) :
  0 < len →
  Arrays.remainder (Arrays.remainder n len + len) len = n mod len.
Proof.
  intros Hlen. unfold Arrays.remainder.
  pose proof (Z.rem_bound_abs n len ltac:(lia)) as Hb.
  rewrite Z.rem_mod_nonneg by lia.
  rewrite <- (Z.mod_add n (1 - n ÷ len) len) by lia.
  f_equal. pose proof (Z.quot_rem' n len). lia.
Qed.

Lemma rotate_parts array (n : Z) :
  array ≠ [] →
  Arrays.rotate array n
    = drop (length array - Z.to_nat (n mod Z.of_nat (length array))) array
      ++ take (length array - Z.to_nat (n mod Z.of_nat (length array))) array.
Proof.
  intros Hne. unfold Arrays.rotate.
  assert (length array ≠ 0%nat) as Hlen by (by destruct array).
  apply Nat.eqb_neq in Hlen as Heq. rewrite Heq. clear Heq.
  rewrite normalized_mod by lia.
  pose proof (Z.mod_pos_bound n (Z.of_nat (length array)) ltac:(lia)) as Hk.
  set (k := n mod Z.of_nat (length array)) in *.
  destruct (decide (k = 0)) as [->|Hk0].
  - simpl. rewrite slice_from_nonneg, slice_prefix by lia. simpl.
    rewrite Nat.sub_0_r, drop_all, firstn_all. by rewrite app_nil_r.
  - unfold Arrays.slice_from, Arrays.slice, Arrays.relative.
    destruct (Z.ltb_spec (- k) 0); [|lia].
    destruct (Z.ltb_spec (Z.of_nat (length array)) 0); [lia|].
    destruct (Z.ltb_spec 0 0); [lia|].
    rewrite Z.min_id, (Z.max_l (_ + - k)), (Z.min_l 0) by lia.
    f_equal.
    + rewrite take_ge by (rewrite length_drop; lia). f_equal. lia.
    + simpl. f_equal. lia.
Qed.

Lemma length_rotate array (n : Z) :
  length (Arrays.rotate array n) = length array.
Proof.
  destruct array as [|x array]; [done|].
  rewrite rotate_parts by done.
  rewrite length_app, length_drop, length_take. lia.
Qed.

(** X3: [rotate(array, n)] keeps the length and moves the element at
    index [i] to the index [(i + n) mod length], for every integer [n],
    negative ones included; rotating by [n] and then by [-n] gives the
    array back. *)
Theorem rotate_moves array (n : Z) :
  length (Arrays.rotate array n) = length array ∧
  (∀ i : nat, (i < length array)%nat →
     Arrays.rotate array n
       !! Z.to_nat ((Z.of_nat i + n) mod Z.of_nat (length array))
     = array !! i) ∧
  Arrays.rotate (Arrays.rotate array n) (- n) = array.
Proof.
  split; [apply length_rotate|].
  destruct (decide (array = [])) as [->|Hne]; [split; [simpl; lia|done]|].
  assert (length array ≠ 0%nat) as Hlen by (by destruct array).
  pose proof (Z.mod_pos_bound n (Z.of_nat (length array)) ltac:(lia)) as Hk.
  split.
  - intros i Hi. rewrite rotate_parts by done.
    rewrite <- Z.add_mod_idemp_r by lia.
    set (k := n mod Z.of_nat (length array)) in *.
    destruct (decide (Z.of_nat i + k < Z.of_nat (length array))) as [Hlt|Hge].
    + rewrite Z.mod_small by lia.
      rewrite lookup_app_r by (rewrite length_drop; lia).
      rewrite length_drop, lookup_take_lt by lia. f_equal. lia.
    + replace (Z.of_nat i + k)
        with (Z.of_nat i + k - Z.of_nat (length array)
              + 1 * Z.of_nat (length array)) by lia.
      rewrite Z.mod_add, Z.mod_small by lia.
      rewrite lookup_app_l by (rewrite length_drop; lia).
      rewrite lookup_drop. f_equal. lia.
  - assert (Arrays.rotate array n ≠ []) as Hne'.
    { intros Hnil. apply (f_equal length) in Hnil.
      rewrite length_rotate in Hnil. simpl in Hnil. lia. }
    rewrite (rotate_parts (Arrays.rotate array n)) by done.
    rewrite length_rotate, rotate_parts by done.
    set (k := n mod Z.of_nat (length array)) in *.
    destruct (decide (k = 0)) as [Hk0|Hk0].
    + assert ((- n) mod Z.of_nat (length array) = 0) as ->.
      { apply Z.mod_opp_l_z; lia. }
      rewrite Hk0. simpl. rewrite !Nat.sub_0_r.
      rewrite !drop_all, !firstn_all. simpl.
      by rewrite drop_all.
    + assert ((- n) mod Z.of_nat (length array) = Z.of_nat (length array) - k)
        as ->.
      { apply Z.mod_opp_l_nz; lia. }
      replace (length array - Z.to_nat (Z.of_nat (length array) - k))%nat
        with (Z.to_nat k) by lia.
      rewrite drop_app_length', take_app_length'
        by (rewrite length_drop; lia).
      apply take_drop.
Qed.

End RotateFacts.

Section WindowFacts.

Context {T : Type} `{EqDecision T}.
Implicit Types (array items result : list T) (predicate : T → bool).

Lemma windowed_loop_spec array (size : Z) (i remaining : nat) :
  0 < size →
  (Z.of_nat i + Z.of_nat remaining + size ≤ Z.of_nat (length array) + 1) →
  let windows := Arrays.windowed_loop array size (Z.of_nat i) remaining in
  length windows = remaining ∧
  ∀ j w, windows !! j = Some w →
    w = take (Z.to_nat size) (drop (i + j) array) ∧
    Z.of_nat (length w) = size.
Proof.
  intros Hsize. revert i. induction remaining as [|remaining IH];
    intros i Hi; simpl; [done|].
  replace (Z.of_nat i + 1) with (Z.of_nat (S i)) by lia.
  destruct (IH (S i)) as [Hlen Hat]; [lia|].
  split; [by rewrite Hlen|].
  intros [|j] w; simpl.
  - intros [= <-]. rewrite slice_nonneg by lia.
    replace (Z.of_nat i + size - Z.of_nat i) with size by lia.
    rewrite Nat2Z.id, Nat.add_0_r. split; [done|].
    rewrite length_take, length_drop. lia.
  - intros Hw. apply Hat in Hw as [-> Hw]. split; [|done].
    do 2 f_equal. lia.
Qed.

(** X4: for an integer [size], [windowed] raises its error when [size] is
    zero or less and returns no window when it is above the length;
    otherwise there are [length - size + 1] windows, and the window at
    index [j] is the [size] elements from position [j] on. *)
Theorem windowed_windows array (size : Z) :
  (size ≤ 0 →
   Arrays.windowed array size
     = Arrays.ThrowError "Window size must be greater than 0") ∧
  (0 < size → Z.of_nat (length array) < size →
   Arrays.windowed array size = Arrays.Return []) ∧
  (0 < size ≤ Z.of_nat (length array) →
   ∃ windows,
     Arrays.windowed array size = Arrays.Return windows ∧
     Z.of_nat (length windows) = Z.of_nat (length array) - size + 1 ∧
     ∀ j w, windows !! j = Some w →
       w = take (Z.to_nat size) (drop j array) ∧ Z.of_nat (length w) = size).
Proof.
  unfold Arrays.windowed. split_and!.
  - intros Hsize. by destruct (Z.leb_spec size 0); [|lia].
  - intros Hsize Hlen. destruct (Z.leb_spec size 0); [lia|].
    by destruct (Z.ltb_spec (Z.of_nat (length array)) size); [|lia].
  - intros [Hsize Hlen]. destruct (Z.leb_spec size 0); [lia|].
    destruct (Z.ltb_spec (Z.of_nat (length array)) size); [lia|].
    eexists; split; [done|].
    destruct (windowed_loop_spec array size 0
                (Z.to_nat (Z.of_nat (length array) - size + 1)) Hsize)
      as [Hn Hat]; [lia|].
    change (Z.of_nat 0) with 0 in *. split; [lia|]. exact Hat.
Qed.

End WindowFacts.

Section SplitFacts.

Context {T : Type} `{EqDecision T}.
Implicit Types (array items result passed failed : list T).
Implicit Types (predicate : T → bool).

Lemma partition_loop_spec predicate items passed failed :
  Arrays.partition_loop predicate items passed failed
  = (passed ++ List.filter predicate items,
     failed ++ List.filter (fun x => negb (predicate x)) items).
Proof.
  revert passed failed. induction items as [|item items IH];
    intros passed failed; simpl.
  - by rewrite !app_nil_r.
  - destruct (predicate item); simpl; rewrite IH, <- app_assoc; done.
Qed.

Lemma filter_split (p : T → bool) items :
  List.filter p items ++ List.filter (fun x => negb (p x)) items ≡ₚ items.
Proof.
  induction items as [|item items IH]; simpl; [done|].
  destruct (p item); simpl.
  - by rewrite IH.
  - by rewrite <- Permutation_middle, IH.
Qed.

Lemma sublist_filter_bool (p : T → bool) items :
  List.filter p items `sublist_of` items.
Proof.
  induction items as [|item items IH]; simpl; [done|].
  destruct (p item); by constructor.
Qed.

(** X5: [partition] sorts every element into one of the two arrays: the
    first holds elements that satisfy the predicate, the second elements
    that do not, both in the order of the array, and together they are a
    rearrangement of it. *)
Theorem partition_split array predicate :
  let passed := (Arrays.partition array predicate).1 in
  let failed := (Arrays.partition array predicate).2 in
  Forall (fun x => predicate x = true) passed ∧
  Forall (fun x => predicate x = false) failed ∧
  passed `sublist_of` array ∧ failed `sublist_of` array ∧
  passed ++ failed ≡ₚ array.
Proof.
  unfold Arrays.partition. rewrite partition_loop_spec. simpl.
  split_and!.
  - apply Forall_forall. intros x Hx.
    apply list_elem_of_In, filter_In in Hx. tauto.
  - apply Forall_forall. intros x Hx.
    apply list_elem_of_In, filter_In in Hx as [_ Hx].
    by apply negb_true_iff.
  - apply sublist_filter_bool.
  - apply sublist_filter_bool.
  - apply filter_split.
Qed.

End SplitFacts.

Section SetFacts.

Context {T : Type} `{EqDecision T}.
Implicit Types (array items result acc first : list T) (x : T).
Implicit Types (arrays rest : list (list T)).

Lemma TSet_of_spec items acc :
  NoDup acc →
  ∃ added,
    fold_left Arrays.TSet_add items acc = acc ++ added ∧
    NoDup (acc ++ added) ∧
    added `sublist_of` items ∧
    (∀ x, x ∈ acc ++ added ↔ x ∈ acc ∨ x ∈ items).
Proof.
  revert acc. induction items as [|item items IH]; intros acc Hacc; simpl.
  - exists []. rewrite app_nil_r. split_and!; [done|done|done|].
    intros x. rewrite elem_of_nil. tauto.
  - unfold Arrays.TSet_add at 2. case_bool_decide as Hin.
    + destruct (IH acc Hacc) as (added & -> & Hnd & Hsub & Hmem).
      exists added. split_and!; [done|done|by constructor|].
      intros x. rewrite Hmem, elem_of_cons.
      split; [tauto|]. intros [?|[->|?]]; tauto.
    + destruct (IH (acc ++ [item])) as (added & -> & Hnd & Hsub & Hmem).
      { apply NoDup_app. split_and!; [done| |apply NoDup_singleton].
        intros x Hx ->%list_elem_of_singleton. done. }
      exists (item :: added). rewrite <- !app_assoc in *. simpl in *.
      split_and!; [done|done|by constructor|].
      intros x. rewrite Hmem, elem_of_app, list_elem_of_singleton, elem_of_cons.
      tauto.
Qed.

(** X6: [unique(array)] has no element twice, has the same elements as
    [array], and keeps their order: it is [array] with elements left
    out. *)
Theorem unique_distinct array :
  NoDup (Arrays.unique array) ∧
  (∀ x, x ∈ Arrays.unique array ↔ x ∈ array) ∧
  Arrays.unique array `sublist_of` array.
Proof.
  unfold Arrays.unique, Arrays.TSet_of.
  destruct (TSet_of_spec array [] (NoDup_nil_2)) as (added & -> & Hnd & Hsub & Hmem).
  simpl in *. split_and!; [done| |done].
  intros x. rewrite Hmem, elem_of_nil. tauto.
Qed.

Lemma elem_of_filter_bool (p : T → bool) items x :
  x ∈ List.filter p items ↔ x ∈ items ∧ p x = true.
Proof. by rewrite !list_elem_of_In, filter_In. Qed.

Lemma includes_true array x : Arrays.includes array x = true ↔ x ∈ array.
Proof. unfold Arrays.includes. by rewrite bool_decide_eq_true. Qed.

Lemma intersection_fold rest acc x :
  x ∈ fold_left
        (fun acc current =>
           List.filter (fun item => Arrays.includes current item) acc)
        rest acc
  ↔ x ∈ acc ∧ ∀ a, a ∈ rest → x ∈ a.
Proof.
  revert acc. induction rest as [|current rest IH]; intros acc; simpl.
  - split; [|tauto]. intros Hx. split; [done|]. by intros a ?%elem_of_nil.
  - rewrite IH, elem_of_filter_bool, includes_true. split.
    + intros [[Hacc Hcur] Hrest]. split; [done|].
      intros a [->|Ha]%elem_of_cons; auto.
    + intros [Hacc Hall]. split_and!; [done|..].
      * apply Hall. by left.
      * intros a Ha. apply Hall. by right.
Qed.

Lemma intersection_fold_sublist rest acc :
  fold_left
    (fun acc current =>
       List.filter (fun item => Arrays.includes current item) acc)
    rest acc `sublist_of` acc.
Proof.
  revert acc. induction rest as [|current rest IH]; intros acc; simpl.
  - done.
  - etrans; [apply IH|apply sublist_filter_bool].
Qed.

Lemma intersection_elem first rest x :
  x ∈ Arrays.intersection (first :: rest) ↔ ∀ a, a ∈ first :: rest → x ∈ a.
Proof.
  unfold Arrays.intersection. destruct rest as [|second rest].
  - split.
    + by intros Hx a ->%list_elem_of_singleton.
    + intros Hall. apply Hall. by left.
  - rewrite intersection_fold. split.
    + intros [Hfirst Hall] a [->|Ha]%elem_of_cons; auto.
    + intros Hall. split; [apply Hall; by left|].
      intros a Ha. apply Hall. by right.
Qed.

Lemma intersection_sublist first rest :
  Arrays.intersection (first :: rest) `sublist_of` first.
Proof.
  unfold Arrays.intersection. destruct rest as [|second rest]; [done|].
  apply intersection_fold_sublist.
Qed.

Lemma difference_parts array1 array2 :
  (∀ x, x ∈ Arrays.difference array1 array2 ↔ x ∈ array1 ∧ x ∉ array2) ∧
  Arrays.difference array1 array2 `sublist_of` array1 ∧
  Arrays.difference array1 array2 ++ Arrays.intersection [array1; array2]
    ≡ₚ array1.
Proof.
  unfold Arrays.difference, Arrays.intersection. simpl. split_and!.
  - intros x. rewrite elem_of_filter_bool, negb_true_iff.
    unfold Arrays.includes. by rewrite bool_decide_eq_false.
  - apply sublist_filter_bool.
  - induction array1 as [|item array1 IH]; simpl; [done|].
    destruct (Arrays.includes array2 item); simpl.
    + by rewrite <- Permutation_middle, IH.
    + by rewrite IH.
Qed.

(** The [filter] of arrays with a test that decides [P] keeps the elements
    that satisfy [P]. *)
Lemma filter_bool_decide (P : T → Prop) `{∀ x, Decision (P x)} items :
  List.filter (fun item => bool_decide (P item)) items = filter P items.
Proof.
  induction items as [|item items IH]; [done|]. simpl.
  rewrite filter_cons, IH. case_bool_decide; by case_decide.
Qed.

Lemma intersection_fold_filter rest acc :
  fold_left
    (fun acc current =>
       List.filter (fun item => Arrays.includes current item) acc)
    rest acc
  = filter (fun x => Forall (fun a => x ∈ a) rest) acc.
Proof.
  revert acc. induction rest as [|current rest IH]; intros acc; simpl.
  - induction acc as [|x acc IHacc]; [done|].
    rewrite filter_cons_True by constructor. by f_equal.
  - rewrite IH. unfold Arrays.includes.
    rewrite (filter_bool_decide (fun x => x ∈ current)), list_filter_filter.
    apply list_filter_iff. intros x. rewrite Forall_cons. tauto.
Qed.

(** X7: the intersection of no array is empty; the intersection of one or
    more arrays is the first array with the elements left out that are not
    in every other array, so it holds exactly the elements that are in all
    the arrays, in the order and with the repetitions of the first.
    [difference(a, b)] is [a] with the elements left out that are in [b];
    the difference and the intersection of [a] and [b] together are a
    rearrangement of [a]. *)
Theorem intersection_difference_members first rest array1 array2 :
  Arrays.intersection [] = @nil T ∧
  (Arrays.intersection (first :: rest)
     = filter (fun x => Forall (fun a => x ∈ a) rest) first ∧
   (∀ x, x ∈ Arrays.intersection (first :: rest)
         ↔ ∀ a, a ∈ first :: rest → x ∈ a)) ∧
  (Arrays.difference array1 array2 = filter (fun x => x ∉ array2) array1 ∧
   (∀ x, x ∈ Arrays.difference array1 array2 ↔ x ∈ array1 ∧ x ∉ array2) ∧
   Arrays.difference array1 array2 ++ Arrays.intersection [array1; array2]
     ≡ₚ array1).
Proof.
  split; [done|]. split_and!.
  - unfold Arrays.intersection. destruct rest as [|second rest].
    + induction first as [|x first IH]; [done|].
      rewrite filter_cons_True by constructor. by f_equal.
    + apply intersection_fold_filter.
  - intros x. apply intersection_elem.
  - unfold Arrays.difference, Arrays.includes.
    rewrite <- (filter_bool_decide (fun x => x ∉ array2)).
    induction array1 as [|x array1 IH]; [done|]. simpl.
    rewrite IH. by rewrite (bool_decide_not (x ∈ array2)).
  - apply difference_parts.
  - apply difference_parts.
Qed.

End SetFacts.

Section SearchFacts.

Context {T : Type} `{EqDecision T}.
Implicit Types (array items result : list T) (x : T).

Lemma findLastIndex_loop_spec array (predicate : T → Z → bool) (n : nat) :
  (n ≤ length array)%nat →
  let i := Arrays.findLastIndex_loop array predicate n in
  (i = -1 ∧
   ∀ (j : nat) x, (j < n)%nat → array !! j = Some x →
                  predicate x (Z.of_nat j) = false) ∨
  (0 ≤ i < Z.of_nat n ∧
   ∃ x, array !! Z.to_nat i = Some x ∧ predicate x i = true ∧
        ∀ (j : nat) y, (i < Z.of_nat j < Z.of_nat n) → array !! j = Some y →
                       predicate y (Z.of_nat j) = false).
Proof.
  induction n as [|n IH]; intros Hn; simpl.
  - left. split; [done|]. intros; lia.
  - destruct (lookup_lt_is_Some_2 array n) as [item Hitem]; [lia|].
    rewrite Hitem. destruct (predicate item (Z.of_nat n)) eqn:Hp.
    + right. split; [lia|]. exists item. rewrite Nat2Z.id.
      split_and!; [done|done|]. intros; lia.
    + destruct IH as [[-> Hnone]|[Hi (x & Hx & Hpx & Hlater)]]; [lia|..].
      * left. split; [done|]. intros j x Hj Hx.
        destruct (decide (j = n)) as [->|]; [congruence|].
        apply Hnone; [lia|done].
      * right. split; [lia|]. exists x. split_and!; [done|done|].
        intros j y Hj Hy. destruct (decide (j = n)) as [->|]; [congruence|].
        apply Hlater; [lia|done].
Qed.

Lemma findLast_loop_index array (predicate : T → bool) (n : nat) :
  (n ≤ length array)%nat →
  Arrays.findLast_loop array predicate n
  = Arrays.at_index array
      (Arrays.findLastIndex_loop array (fun item _ => predicate item) n).
Proof.
  induction n as [|n IH]; intros Hn; simpl; [done|].
  destruct (lookup_lt_is_Some_2 array n) as [item Hitem]; [lia|].
  rewrite Hitem. destruct (predicate item).
  - unfold Arrays.at_index. destruct (Z.ltb_spec (Z.of_nat n) 0); [lia|].
    by rewrite Nat2Z.id.
  - apply IH. lia.
Qed.

(** X8: [findLastIndex] returns [-1] exactly when no element satisfies the
    predicate; otherwise it returns the index of an element that satisfies
    it, and no element behind that index does. [findLast] returns the
    element at the index [findLastIndex] returns for the same predicate,
    and [undefined] when that is [-1]. *)
Theorem findLastIndex_last array (predicate : T → Z → bool)
    (test : T → bool) :
  (let i := Arrays.findLastIndex array predicate in
   (i = -1 ∧
    ∀ (j : nat) x, array !! j = Some x → predicate x (Z.of_nat j) = false) ∨
   (0 ≤ i < Z.of_nat (length array) ∧
    ∃ x, array !! Z.to_nat i = Some x ∧ predicate x i = true ∧
         ∀ (j : nat) y, i < Z.of_nat j → array !! j = Some y →
                        predicate y (Z.of_nat j) = false)) ∧
  Arrays.findLast array test
  = Arrays.at_index array
      (Arrays.findLastIndex array (fun item _ => test item)).
Proof.
  split; [|by apply findLast_loop_index].
  unfold Arrays.findLastIndex.
  destruct (findLastIndex_loop_spec array predicate (length array))
    as [[Hi Hnone]|[Hi (x & Hx & Hpx & Hlater)]]; [done|..].
  - left. split; [done|]. intros j x Hx. apply Hnone; [|done].
    by eapply lookup_lt_Some.
  - right. split; [done|]. exists x. split_and!; [done|done|].
    intros j y Hj Hy. apply Hlater; [|done].
    apply lookup_lt_Some in Hy. lia.
Qed.

End SearchFacts.

Section EditFacts.

Context {T : Type} `{EqDecision T}.
Implicit Types (array items result elements : list T) (x : T).

Lemma filter_index_skip (q : Z) items1 items2 x (start : Z) :
  q = start + Z.of_nat (length items1) →
  Arrays.filter_index (fun index => negb (bool_decide (index ∈ [q])))
    (items1 ++ x :: items2) start
  = items1 ++ items2.
Proof.
  revert start. induction items1 as [|item items1 IH]; intros start Hq;
    simpl in *.
  - rewrite bool_decide_eq_true_2 by (apply list_elem_of_singleton; lia).
    simpl.
    assert (∀ from, q < from →
              Arrays.filter_index
                (fun index => negb (bool_decide (index ∈ [q]))) items2 from
              = items2) as Hrest.
    { induction items2 as [|item items2 IH2]; intros from Hs; simpl; [done|].
      rewrite bool_decide_eq_false_2
        by (rewrite list_elem_of_singleton; lia).
      simpl. f_equal. apply IH2. lia. }
    apply Hrest. simpl in Hq. lia.
  - rewrite bool_decide_eq_false_2
      by (rewrite list_elem_of_singleton; simpl in Hq; lia).
    simpl. f_equal. apply IH. simpl in Hq. lia.
Qed.

Lemma insertAt_parts array (index : Z) elements :
  let len := Z.of_nat (length array) in
  let p := if index <? 0 then Z.max 0 (len + index + 1) else index in
  Arrays.insertAt array index elements
  = take (Z.to_nat p) array ++ elements ++ drop (Z.to_nat p) array.
Proof.
  intros len p. unfold Arrays.insertAt. fold len. fold p.
  assert (0 ≤ p) by (unfold p; destruct (Z.ltb_spec index 0); lia).
  by rewrite slice_prefix, slice_from_nonneg by done.
Qed.

(** X9: removing at an index undoes inserting one element at that index,
    for every index from [-(length + 1)] to [length], a negative one
    counting from the end. *)
Theorem removeAt_insertAt array (index : Z) x :
  - (Z.of_nat (length array) + 1) ≤ index ≤ Z.of_nat (length array) →
  Arrays.removeAt (Arrays.insertAt array index [x]) [index] = array.
Proof.
  intros Hindex. rewrite insertAt_parts. cbv zeta.
  set (p := if index <? 0 then _ else index).
  assert (0 ≤ p ≤ Z.of_nat (length array)) as Hp.
  { unfold p. destruct (Z.ltb_spec index 0); lia. }
  unfold Arrays.removeAt. simpl fmap.
  match goal with
  | |- Arrays.filter_index (fun index => negb (bool_decide (index ∈ [?q]))) _ _ = _ =>
      assert (q = p) as ->
  end.
  { rewrite length_app, length_take. simpl length. rewrite length_drop.
    unfold p. destruct (Z.ltb_spec index 0); lia. }
  etrans;
    [apply (filter_index_skip p (take (Z.to_nat p) array)
              (drop (Z.to_nat p) array) x 0)|apply take_drop].
  rewrite length_take. lia.
Qed.

End EditFacts.

Section EditExamples.

Local Open Scope string_scope.

(** X9 at work: an element inserted before the last one and removed
    again. *)
Lemma removeAt_insertAt_witness :
  Arrays.removeAt (Arrays.insertAt ["a"; "b"; "c"] (-2) ["x"]) [(-2)%Z]
  = ["a"; "b"; "c"].
Proof.
  apply (removeAt_insertAt ["a"; "b"; "c"] (-2) "x"). simpl. lia.
Defined.

End EditExamples.

Section RunFacts.

Import ArrayUtils.
Context {T : Type} `{EqDecision T} `{StrictEquality T}.
Implicit Types (array items result currentGroup : list T) (x : T).
Implicit Types (groups : list (list T)).

Lemma last_replicate_S (n : nat) x : last (replicate (S n) x) = Some x.
Proof.
  rewrite last_lookup, length_replicate. apply lookup_replicate_2. simpl. lia.
Qed.

Lemma strict_equal_false x y :
  strict_equal x y = false → y ≠ x ∨ is_NaN y = true.
Proof.
  intros Hne. destruct (decide (y = x)) as [->|]; [|by left]. right.
  apply not_false_iff_true. intros Hnan.
  assert (strict_equal x x = true) by (by apply strict_equal_spec).
  congruence.
Qed.

Lemma groupConsecutive_loop_spec array items (i : nat) groups x (n : nat) :
  (1 ≤ i)%nat →
  array !! (i - 1)%nat = Some x →
  drop i array = items →
  (is_NaN x = true → n = 0%nat) →
  ∃ (m : nat) later,
    Arrays.groupConsecutive_loop array items i groups (replicate (S n) x)
    = groups ++ replicate (S n + m) x :: later ∧
    concat (replicate (S n + m) x :: later) = replicate (S n) x ++ items ∧
    (is_NaN x = true → m = 0%nat) ∧
    Forall (fun g => ∃ y (k : nat), g = replicate (S k) y ∧
                                    (is_NaN y = true → k = 0%nat)) later ∧
    (∀ y, head later ≫= head = Some y → x ≠ y ∨ is_NaN x = true) ∧
    (∀ (j : nat) g g' y z,
       later !! j = Some g → later !! S j = Some g' →
       last g = Some y → head g' = Some z → y ≠ z ∨ is_NaN y = true).
Proof.
  revert i groups x n. induction items as [|item items IH];
    intros i groups x n Hi Hx Hitems Hn.
  - exists 0%nat, []. simpl. rewrite Nat.add_0_r, !app_nil_r.
    split_and!; [done|done|done|done|done|]. by intros [].
  - assert (array !! i = Some item) as Hitem.
    { rewrite <- (Nat.add_0_r i), <- lookup_drop, Hitems. done. }
    assert (drop (S i) array = items) as Hrest.
    { replace (S i) with (i + 1)%nat by lia. by rewrite <- drop_drop, Hitems. }
    cbn [Arrays.groupConsecutive_loop]. unfold Arrays.same_as_at. rewrite Hx.
    destruct (strict_equal item x) eqn:Heq.
    + apply strict_equal_spec in Heq as [-> Hnan].
      destruct (IH (S i) groups x (S n))
        as (m & later & Hrun & Hcat & Hm & Hruns & Hhd & Hadj);
        [lia|by rewrite Nat.sub_succ, Nat.sub_0_r|done|congruence|].
      exists (S m), later.
      rewrite <- replicate_cons_app.
      change (x :: replicate (S n) x) with (replicate (S (S n)) x).
      replace (S n + S m)%nat with (S (S n) + m)%nat by lia.
      split_and!; [done| |congruence|done|done|done].
      rewrite Hcat.
      change (replicate (S (S n)) x) with (x :: replicate (S n) x).
      rewrite (replicate_cons_app (S n)).
      by rewrite <- app_assoc.
    + apply strict_equal_false in Heq.
      destruct (IH (S i) (groups ++ [replicate (S n) x]) item 0%nat)
        as (m & later & Hrun & Hcat & Hm & Hruns & Hhd & Hadj);
        [lia|by rewrite Nat.sub_succ, Nat.sub_0_r|done|done|].
      exists 0%nat, (replicate (S m) item :: later).
      change [item] with (replicate 1 item). rewrite Hrun.
      rewrite Nat.add_0_r, <- app_assoc. simpl (1 + m)%nat in *.
      split_and!.
      * done.
      * rewrite concat_cons, Hcat. done.
      * done.
      * constructor; [by eexists _, _|done].
      * simpl. intros y [= <-]. done.
      * intros [|j] g g' y z; simpl.
        -- intros [= <-] Hg' Hy Hz.
           change (item :: replicate m item) with (replicate (S m) item) in Hy.
           rewrite last_replicate_S in Hy.
           injection Hy as <-. apply Hhd.
           by rewrite <- head_lookup in Hg'; rewrite Hg'.
        -- apply Hadj.
Qed.

(** X10: the groups of [groupConsecutive], put end to end, are the array;
    every group is one element repeated at least once, and not repeated
    when it is [NaN], which is not [===] to itself; and of two groups that
    follow each other, the last element of the first and the first element
    of the second differ or are [NaN], so that the runs are as long as
    [===] lets them be. *)
Theorem groupConsecutive_runs array :
  let groups := Arrays.groupConsecutive array in
  concat groups = array ∧
  Forall (fun g => ∃ y (k : nat), g = replicate (S k) y ∧
                                  (is_NaN y = true → k = 0%nat)) groups ∧
  (∀ (j : nat) g g' y z,
     groups !! j = Some g → groups !! S j = Some g' →
     last g = Some y → head g' = Some z → y ≠ z ∨ is_NaN y = true).
Proof.
  destruct array as [|first rest]; simpl.
  { split_and!; [done|done|]. by intros []. }
  destruct (groupConsecutive_loop_spec (first :: rest) rest 1 [] first 0)
    as (m & later & Hrun & Hcat & Hm & Hruns & Hhd & Hadj);
    [lia|done|done|done|].
  change [first] with (replicate 1 first). rewrite Hrun. simpl app.
  split_and!.
  - exact Hcat.
  - constructor; [by eexists _, _|exact Hruns].
  - intros [|j] g g' y z; simpl.
    + intros [= <-] Hg' Hy Hz.
      change (first :: replicate m first) with (replicate (S m) first) in Hy.
      rewrite last_replicate_S in Hy. injection Hy as <-.
      apply Hhd. by rewrite <- head_lookup in Hg'; rewrite Hg'.
    + apply Hadj.
Qed.

End RunFacts.

Section RunExamples.

Import Samples.
Local Open Scope string_scope.

(** [groupConsecutive] on [NaN, NaN, 'a', 'a']: each [NaN] is a group of
    its own, the two strings are one group. *)
Lemma groupConsecutive_NaN :
  Arrays.groupConsecutive [ENaN; ENaN; EStr "a"; EStr "a"]
  = [[ENaN]; [ENaN]; [EStr "a"; EStr "a"]].
Proof. reflexivity. Qed.

End RunExamples.

Section MatrixFacts.

Context {T : Type} `{EqDecision T}.
Implicit Types (matrix : list (list (option T))) (row : list (option T)).

Lemma transpose_lookup matrix first rest (c : nat) :
  matrix = first :: rest →
  (c < length first)%nat →
  Arrays.transpose matrix !! c
  = Some ((fun row => Arrays.cell row c) <$> matrix).
Proof.
  intros -> Hc. unfold Arrays.transpose.
  rewrite list_lookup_imap.
  destruct (lookup_lt_is_Some_2 first c Hc) as [x ->]. done.
Qed.

Lemma length_transpose matrix first rest :
  matrix = first :: rest → length (Arrays.transpose matrix) = length first.
Proof. intros ->. unfold Arrays.transpose. by rewrite length_imap. Qed.

(** X11: on a matrix whose rows all have the same length, at least one,
    transposing twice gives the matrix back. *)
Theorem transpose_involutive matrix (columns : nat) :
  (0 < columns)%nat →
  Forall (fun row => length row = columns) matrix →
  Arrays.transpose (Arrays.transpose matrix) = matrix.
Proof.
  intros Hcolumns Hrows. destruct matrix as [|first rest] eqn:Hm; [done|].
  rewrite <- Hm in *.
  assert (length first = columns) as Hfirst.
  { rewrite Hm in Hrows. by inversion Hrows. }
  assert (length (Arrays.transpose matrix) = columns) as Hlen.
  { by rewrite (length_transpose matrix first rest). }
  destruct (Arrays.transpose matrix) as [|first' rest'] eqn:Ht;
    [simpl in Hlen; lia|].
  rewrite <- Ht in *.
  assert (first' = (fun row => Arrays.cell row 0) <$> matrix) as Hfirst'.
  { pose proof (transpose_lookup matrix first rest 0 Hm ltac:(lia)) as H0.
    rewrite Ht in H0. simpl in H0. congruence. }
  apply list_eq. intros r.
  destruct (decide (r < length matrix)%nat) as [Hr|Hr].
  - rewrite (transpose_lookup _ first' rest' r Ht)
      by (rewrite Hfirst', length_fmap; lia).
    destruct (lookup_lt_is_Some_2 matrix r Hr) as [row Hrow]. rewrite Hrow.
    f_equal. apply list_eq. intros c.
    rewrite list_lookup_fmap.
    assert (length row = columns) as Hrowlen.
    { rewrite Forall_lookup in Hrows. by apply (Hrows r). }
    destruct (decide (c < columns)%nat) as [Hc|Hc].
    + rewrite (transpose_lookup matrix first rest c Hm) by lia. simpl.
      unfold Arrays.cell at 1. rewrite list_lookup_fmap, Hrow. simpl.
      unfold Arrays.cell.
      destruct (lookup_lt_is_Some_2 row c) as [x ->]; [lia|done].
    + rewrite !lookup_ge_None_2; [done|lia|lia].
  - rewrite !lookup_ge_None_2; [done|lia|].
    rewrite (length_transpose _ first' rest' Ht), Hfirst', length_fmap. lia.
Qed.

End MatrixFacts.

Section MatrixExamples.

(** X11 at work on a matrix of two rows and three columns. *)
Lemma transpose_involutive_witness :
  Arrays.transpose
    (Arrays.transpose
       [[Some 1; Some 2; Some 3]; [Some 4; Some 5; Some 6]])
  = [[Some 1; Some 2; Some 3]; [Some 4; Some 5; Some 6]].
Proof.
  apply (transpose_involutive
           [[Some 1; Some 2; Some 3]; [Some 4; Some 5; Some 6]] 3).
  - lia.
  - repeat constructor.
Defined.

End MatrixExamples.

Section InterleaveFacts.

Context {T : Type} `{EqDecision T}.
Implicit Types (array items result : list T) (arrays : list (list T)).

Lemma interleave_at_spec (i : nat) arrays result :
  Arrays.interleave_at i arrays result
  = result ++ omap (fun array => array !! i) arrays.
Proof.
  revert result. induction arrays as [|array arrays IH]; intros result; simpl.
  - by rewrite app_nil_r.
  - destruct (array !! i) as [x|]; rewrite IH; [|done].
    by rewrite <- app_assoc.
Qed.

Lemma interleave_loop_spec arrays (i remaining : nat) result :
  Arrays.interleave_loop arrays i remaining result
  = result
    ++ concat ((fun j => omap (fun array => array !! j) arrays)
               <$> seq i remaining).
Proof.
  revert i result. induction remaining as [|remaining IH]; intros i result;
    simpl.
  - by rewrite app_nil_r.
  - by rewrite IH, interleave_at_spec, <- app_assoc.
Qed.

Lemma column_walk array (i n : nat) :
  (length array ≤ i + n)%nat →
  concat ((fun j => option_list (array !! j)) <$> seq i n) = drop i array.
Proof.
  revert i. induction n as [|n IH]; intros i Hn; simpl.
  - by rewrite drop_ge by lia.
  - rewrite IH by lia. destruct (array !! i) as [x|] eqn:Hx; simpl.
    + by rewrite (drop_S _ _ _ Hx).
    + apply lookup_ge_None in Hx. by rewrite !drop_ge by lia.
Qed.

Lemma rows_cons array arrays (js : list nat) :
  concat ((fun j => omap (fun array => array !! j) (array :: arrays)) <$> js)
  ≡ₚ concat ((fun j => option_list (array !! j)) <$> js)
     ++ concat ((fun j => omap (fun array => array !! j) arrays) <$> js).
Proof.
  induction js as [|j js IH]; simpl; [done|].
  rewrite IH. destruct (array !! j) as [x|]; simpl.
  - constructor. rewrite !app_assoc.
    apply Permutation_app_tail, Permutation_app_comm.
  - rewrite !app_assoc. apply Permutation_app_tail, Permutation_app_comm.
Qed.

Lemma rows_permutation arrays (n : nat) :
  Forall (fun array => (length array ≤ n)%nat) arrays →
  concat ((fun j => omap (fun array => array !! j) arrays) <$> seq 0 n)
  ≡ₚ concat arrays.
Proof.
  induction arrays as [|array arrays IH]; intros Hn.
  - simpl. induction (seq 0 n) as [|j js IHjs]; simpl; [done|].
    by rewrite IHjs.
  - inversion Hn as [|? ? Harray Harrays]; subst.
    rewrite rows_cons, (IH Harrays), column_walk by lia. done.
Qed.

Lemma max_length_bound arrays :
  Forall (fun array => (length array ≤ Arrays.max_length arrays)%nat) arrays.
Proof.
  induction arrays as [|array arrays IH]; simpl; constructor; [lia|].
  eapply Forall_impl; [exact IH|]. simpl. intros; lia.
Qed.

(** X12: [interleave] returns a rearrangement of all the elements of all
    the arrays, none lost and none added, whatever their lengths; it starts
    with the first element of the first array, if that array has one. *)
Theorem interleave_permutation arrays :
  Arrays.interleave arrays ≡ₚ concat arrays ∧
  (∀ first rest, arrays = first :: rest →
     head (Arrays.interleave arrays) = head (concat arrays) ∨ first = []).
Proof.
  unfold Arrays.interleave. rewrite interleave_loop_spec. simpl. split.
  - apply rows_permutation, max_length_bound.
  - intros first rest ->. destruct first as [|x first]; [by right|left].
    simpl. destruct (Nat.max_spec (S (length first)) (Arrays.max_length rest))
      as [[Hlt ->]|[_ ->]]; [|done].
    destruct (Arrays.max_length rest); [lia|done].
Qed.

End InterleaveFacts.

Section EnumerationFacts.

Context {T : Type} `{EqDecision T}.
Implicit Types (array items result p c t : list T) (x : T).

Lemma rest_delete array (i : nat) :
  Arrays.slice array 0 (Z.of_nat i) ++ Arrays.slice_from array (Z.of_nat i + 1)
  = delete i array.
Proof.
  rewrite slice_prefix, slice_from_nonneg by lia.
  rewrite Nat2Z.id. replace (Z.to_nat (Z.of_nat i + 1)) with (S i) by lia.
  by rewrite delete_take_drop.
Qed.

Lemma length_flat_map_const {A B : Type} (f : A → list B) (l : list A)
    (n : nat) :
  (∀ a, a ∈ l → length (f a) = n) →
  length (flat_map f l) = (length l * n)%nat.
Proof.
  induction l as [|a l IH]; intros Hf; simpl; [done|].
  rewrite length_app, Hf, IH; [done| |by left].
  intros b Hb. apply Hf. by right.
Qed.

Lemma permutations_within_spec (depth : nat) array :
  (length array ≤ depth)%nat →
  (∀ p, p ∈ Arrays.permutations_within depth array ↔ p ≡ₚ array) ∧
  length (Arrays.permutations_within depth array) = fact (length array).
Proof.
  revert array. induction depth as [|depth IH]; intros array Hdepth.
  - destruct array; [|simpl in Hdepth; lia]. simpl. split; [|done].
    intros p. rewrite list_elem_of_singleton. split; [by intros ->|].
    intros Hp. by apply Permutation_nil_r.
  - cbn [Arrays.permutations_within].
    destruct (Nat.leb_spec (length array) 1) as [Hshort|Hlong].
    + split.
      * intros p. rewrite list_elem_of_singleton. split; [by intros ->|].
        destruct array as [|x [|y array]]; [..|simpl in Hshort; lia].
        -- intros Hp. by apply Permutation_nil_r.
        -- intros Hp. by apply Permutation_singleton_r.
      * by destruct array as [|x [|y array]]; [..|simpl in Hshort; lia].
    + assert (∀ i x, array !! i = Some x →
                (length (delete i array) ≤ depth)%nat ∧
                S (length (delete i array)) = length array) as Hrest.
      { intros i x Hi. apply lookup_lt_Some in Hi as Hlt.
        rewrite length_delete by eauto. lia. }
      split.
      * intros p. rewrite list_elem_of_In, in_flat_map. split.
        -- intros (i & Hi & Hp). apply in_seq in Hi.
           destruct (lookup_lt_is_Some_2 array i) as [x Hx]; [lia|].
           rewrite Hx, rest_delete in Hp.
           apply list_elem_of_In, list_elem_of_fmap in Hp as (q & -> & Hq).
           apply IH in Hq; [|by eapply Hrest].
           rewrite Hq. symmetry. by apply delete_Permutation.
        -- intros Hp. destruct p as [|x q].
           { apply Permutation_nil_l in Hp. subst. simpl in Hlong. lia. }
           assert (x ∈ array) as Hx by (rewrite <- Hp; by left).
           apply list_elem_of_lookup in Hx as [i Hi].
           exists i. split.
           { apply in_seq. apply lookup_lt_Some in Hi. lia. }
           rewrite Hi, rest_delete.
           apply list_elem_of_In, list_elem_of_fmap. exists q. split; [done|].
           apply IH; [by eapply Hrest|].
           rewrite (delete_Permutation array i x Hi) in Hp.
           by apply Permutation_cons_inv in Hp.
      * rewrite (length_flat_map_const _ _ (fact (length array - 1))).
        -- rewrite length_seq. destruct (length array) as [|n]; [lia|].
           simpl. rewrite Nat.sub_0_r. lia.
        -- intros i Hi. apply elem_of_seq in Hi.
           destruct (lookup_lt_is_Some_2 array i) as [x Hx]; [lia|].
           rewrite Hx, rest_delete, length_fmap.
           destruct (Hrest i x Hx) as [Hle Hlen].
           destruct (IH (delete i array) Hle) as [_ ->]. f_equal. lia.
Qed.

(** X13: [permutations(array)] lists exactly the rearrangements of
    [array], and it has [length!] entries. *)
Theorem permutations_complete array :
  (∀ p, p ∈ Arrays.permutations array ↔ p ≡ₚ array) ∧
  length (Arrays.permutations array) = fact (length array).
Proof. by apply permutations_within_spec. Qed.

Lemma sublist_full c array :
  c `sublist_of` array → (length array ≤ length c)%nat → c = array.
Proof.
  induction 1 as [|x c array Hsub IH|x c array Hsub IH]; simpl; intros Hlen.
  - done.
  - f_equal. apply IH. lia.
  - apply sublist_length in Hsub. lia.
Qed.

Lemma combinations_loop_spec (tails : list T → option (list (list T))) array
    (k' : Z) (remaining i : nat) (result : list (list T)) :
  (∀ j : nat, (i ≤ j < i + remaining)%nat →
     ∃ cs, tails (Arrays.slice_from array (Z.of_nat j + 1)) = Some cs ∧
           ∀ t, t ∈ cs ↔ t `sublist_of` drop (S j) array
                          ∧ Z.of_nat (length t) = k') →
  (i + remaining ≤ length array)%nat →
  ∃ out,
    Arrays.combinations_loop tails array i remaining result = Some out ∧
    ∀ c, c ∈ out ↔
      c ∈ result ∨
      ∃ (j : nat) x t,
        (i ≤ j < i + remaining)%nat ∧ array !! j = Some x ∧ c = x :: t ∧
        t `sublist_of` drop (S j) array ∧ Z.of_nat (length t) = k'.
Proof.
  revert i result. induction remaining as [|remaining IH];
    intros i result Htails Hlen; simpl.
  - eexists; split; [done|]. intros c. split; [by left|].
    intros [?|(j & ? & ? & ? & _)]; [done|lia].
  - destruct (Htails i) as (cs & -> & Hcs); [lia|].
    destruct (lookup_lt_is_Some_2 array i) as [x Hx]; [lia|]. rewrite Hx.
    destruct (IH (S i)
                (result ++ ((fun t => option_list (Some x) ++ t) <$> cs)))
      as (out & -> & Hout); [intros j Hj; apply Htails; lia|lia|].
    eexists; split; [done|]. intros c. rewrite Hout, elem_of_app.
    rewrite list_elem_of_fmap. split.
    + intros [[Hc|(t & -> & Ht)]|(j & y & t & Hj & Hy & -> & Ht)].
      * by left.
      * right. exists i, x, t. apply Hcs in Ht. split_and!; [lia|lia|done|done|..]; tauto.
      * right. exists j, y, t. split_and!; [lia|lia|done|done|..]; tauto.
    + intros [Hc|(j & y & t & Hj & Hy & -> & Ht)]; [by left; left|].
      destruct (decide (j = i)) as [->|Hne].
      * left; right. exists t. rewrite Hx in Hy. injection Hy as ->.
        split; [done|]. by apply Hcs.
      * right. exists j, y, t. split_and!; [lia|lia|done|done|..]; tauto.
Qed.

Lemma combinations_fuel_spec (depth : nat) array (k : Z) :
  0 ≤ k → (length array < depth)%nat →
  ∃ cs,
    Arrays.combinations depth array k = Some cs ∧
    ∀ c, c ∈ cs ↔ c `sublist_of` array ∧ Z.of_nat (length c) = k.
Proof.
  revert array k. induction depth as [|depth IH]; intros array k Hk Hdepth;
    [lia|].
  cbn [Arrays.combinations].
  destruct (Z.eqb_spec k 0) as [->|Hk0].
  { eexists; split; [done|]. intros c. rewrite list_elem_of_singleton. split.
    - intros ->. split; [apply sublist_nil_l|done].
    - intros [_ Hc]. destruct c; [done|simpl in Hc; lia]. }
  destruct (Z.ltb_spec (Z.of_nat (length array)) k) as [Hlong|Hfit].
  { eexists; split; [done|]. intros c. split; [by intros ?%elem_of_nil|].
    intros [Hsub Hc]. apply sublist_length in Hsub. lia. }
  destruct (Z.eqb_spec k (Z.of_nat (length array))) as [->|Hklen].
  { eexists; split; [done|]. intros c. rewrite list_elem_of_singleton. split.
    - by intros ->.
    - intros [Hsub Hc]. apply sublist_full; [done|lia]. }
  destruct (combinations_loop_spec
              (fun tail => Arrays.combinations depth tail (k - 1))
              array (k - 1)
              (Z.to_nat (Z.of_nat (length array) - k + 1)) 0 [])
    as (out & -> & Hout).
  { intros j Hj. rewrite slice_from_nonneg by lia.
    replace (Z.to_nat (Z.of_nat j + 1)) with (S j) by lia.
    apply IH; [lia|]. rewrite length_drop. lia. }
  { lia. }
  eexists; split; [done|]. intros c. rewrite Hout. split.
  - intros [?%elem_of_nil|(j & x & t & Hj & Hx & -> & Ht & Hlen)]; [done|].
    split; [|simpl; lia].
    rewrite <- (take_drop_middle array j x Hx).
    apply sublist_inserts_l. by constructor.
  - intros [Hsub Hc]. right. destruct c as [|x t]; [simpl in Hc; lia|].
    apply sublist_cons_l in Hsub as (k1 & k2 & -> & Ht).
    exists (length k1), x, t.
    apply sublist_length in Ht as Hlt. rewrite length_app in *. simpl in *.
    split_and!; [lia|lia|..].
    + by rewrite list_lookup_middle.
    + done.
    + replace (drop (S (length k1)) (k1 ++ x :: k2)) with k2; [done|].
      rewrite cons_middle, app_assoc.
      rewrite drop_app_length'; [done|]. rewrite length_app. simpl. lia.
    + lia.
Qed.

Lemma combinations_negative (depth : nat) array (k : Z) :
  k < 0 → Arrays.combinations depth array k = None.
Proof.
  revert array k. induction depth as [|depth IH]; intros array k Hk; [done|].
  cbn [Arrays.combinations].
  destruct (Z.eqb_spec k 0); [lia|].
  destruct (Z.ltb_spec (Z.of_nat (length array)) k); [lia|].
  destruct (Z.eqb_spec k (Z.of_nat (length array))); [lia|].
  destruct (Z.to_nat (Z.of_nat (length array) - k + 1)) as [|remaining] eqn:Hr;
    [lia|].
  simpl. by rewrite IH by lia.
Qed.

(** X14: for [k >= 0], [combinations(array, k)] returns, within a depth of
    calls of [length + 1], exactly the selections of [k] elements of
    [array] in the order of the array; for a negative [k] the recursion
    does not end, whatever depth it is given. *)
Theorem combinations_sublists array (k : Z) (depth : nat) :
  (k < 0 → Arrays.combinations depth array k = None) ∧
  (0 ≤ k → (length array < depth)%nat →
   ∃ cs,
     Arrays.combinations depth array k = Some cs ∧
     ∀ c, c ∈ cs ↔ c `sublist_of` array ∧ Z.of_nat (length c) = k).
Proof.
  split; [apply combinations_negative|apply combinations_fuel_spec].
Qed.

End EnumerationFacts.

Section OrderFacts.

Implicit Types (a b c : number).

Ltac order_cases :=
  repeat match goal with
  | s : bool |- _ => destruct s
  end;
  simpl; try done;
  repeat match goal with
  | |- context [Z.compare ?x ?y] =>
      destruct (Z.compare_spec x y); subst; simpl; try done; try lia
  | H : context [Z.compare ?x ?y] |- _ =>
      destruct (Z.compare_spec x y); subst; simpl in H; try done; try lia
  end;
  repeat match goal with
  | |- context [Pos.compare_cont Eq ?x ?y] =>
      change (Pos.compare_cont Eq x y) with (Pos.compare x y);
      destruct (Pos.compare_spec x y); subst; simpl; try done; try lia
  | H : context [Pos.compare_cont Eq ?x ?y] |- _ =>
      change (Pos.compare_cont Eq x y) with (Pos.compare x y) in H;
      destruct (Pos.compare_spec x y); subst; simpl in H; try done; try lia
  end.

Lemma ltb_irrefl a : Num.ltb a a = false.
Proof.
  unfold Num.ltb, SFltb, SFcompare. destruct a; order_cases.
Qed.

Lemma ltb_trans a b c :
  Num.ltb a b = true → Num.ltb b c = true → Num.ltb a c = true.
Proof.
  unfold Num.ltb, SFltb, SFcompare. destruct a, b, c; order_cases.
Qed.

Lemma ltb_below a b c :
  Num.is_nan c = false →
  Num.ltb b a = true → Num.ltb b c = false → Num.ltb c a = true.
Proof.
  unfold Num.ltb, SFltb, SFcompare, Num.is_nan.
  destruct a, b, c; order_cases.
Qed.

Lemma ltb_above a b c :
  Num.is_nan c = false →
  Num.ltb a b = true → Num.ltb c b = false → Num.ltb a c = true.
Proof.
  unfold Num.ltb, SFltb, SFcompare, Num.is_nan.
  destruct a, b, c; order_cases.
Qed.

End OrderFacts.

Section ExtremeFacts.

Import ArrayUtils.
Context {T : Type} `{EqDecision T}.
Implicit Types (array : list T) (weights : list number) (x : T).
Implicit Types (better : number → number → bool).

Lemma weight_at_lookup weights (j : nat) w :
  weights !! j = Some w → weight_at weights j = w.
Proof. unfold weight_at. by intros ->. Qed.

Lemma extreme_loop_spec better weights (remaining i bestIndex : nat) :
  (∀ a, better a a = false) →
  (∀ a b c, better a b = true → better b c = true → better a c = true) →
  (∀ a b c, Num.is_nan c = false →
            better a b = true → better c b = false → better a c = true) →
  (∀ w, w ∈ weights → Num.is_nan w = false) →
  (i + remaining = length weights)%nat →
  (bestIndex < i)%nat →
  (∀ (j : nat) w, (j < i)%nat → weights !! j = Some w →
                  better w (weight_at weights bestIndex) = false) →
  (∀ (j : nat) w, (j < bestIndex)%nat → weights !! j = Some w →
                  better (weight_at weights bestIndex) w = true) →
  let r :=
    extreme_loop better weights i remaining (weight_at weights bestIndex)
      bestIndex in
  (r < length weights)%nat ∧
  (∀ (j : nat) w, weights !! j = Some w →
                  better w (weight_at weights r) = false) ∧
  (∀ (j : nat) w, (j < r)%nat → weights !! j = Some w →
                  better (weight_at weights r) w = true).
Proof.
  intros Hirr Htrans Hneg Hnan. revert i bestIndex.
  induction remaining as [|remaining IH]; intros i bestIndex Hlen Hbi Hle Hlt;
    simpl.
  - split_and!; [lia| |done]. intros j w Hw. apply (Hle j); [|done].
    apply lookup_lt_Some in Hw. lia.
  - destruct (lookup_lt_is_Some_2 weights i) as [wi Hwi]; [lia|].
    destruct (better (weight_at weights i) (weight_at weights bestIndex))
      eqn:Hbetter.
    + apply IH; [lia|lia|..].
      * intros j w Hj Hw. destruct (decide (j = i)) as [->|Hne].
        -- rewrite (weight_at_lookup _ _ _ Hw). apply Hirr.
        -- destruct (better w (weight_at weights i)) eqn:Hw'; [|done].
           assert (better w (weight_at weights bestIndex) = true) as Hcontra
             by (by eapply Htrans).
           rewrite (Hle j w) in Hcontra; [done|lia|done].
      * intros j w Hj Hw. eapply Hneg; [|done|].
        -- apply Hnan. by eapply list_elem_of_lookup_2.
        -- by apply (Hle j).
    + apply IH; [lia|lia| |done].
      intros j w Hj Hw. destruct (decide (j = i)) as [->|Hne].
      * by rewrite <- (weight_at_lookup _ _ _ Hw).
      * apply (Hle j); [lia|done].
Qed.

Lemma extreme_start better weights w0 :
  (∀ a, better a a = false) →
  weights !! 0%nat = Some w0 →
  (∀ (j : nat) w, (j < 1)%nat → weights !! j = Some w →
                  better w (weight_at weights 0) = false) ∧
  (∀ (j : nat) w, (j < 0)%nat → weights !! j = Some w →
                  better (weight_at weights 0) w = true).
Proof.
  intros Hirr H0. split; [|intros; lia].
  intros j w Hj Hw. assert (j = 0%nat) as -> by lia.
  rewrite (weight_at_lookup _ _ _ Hw). apply Hirr.
Qed.

Lemma weightedMax_earliest_greatest array weights :
  array ≠ [] →
  length array = length weights →
  (∀ w, w ∈ weights → Num.is_nan w = false) →
  ∃ (i : nat) x,
    weightedMax array weights = Ret (Some x) ∧
    array !! i = Some x ∧
    (∀ (j : nat) w, weights !! j = Some w →
                    Num.ltb (weight_at weights i) w = false) ∧
    (∀ (j : nat) w, (j < i)%nat → weights !! j = Some w →
                    Num.ltb w (weight_at weights i) = true).
Proof.
  intros Ha Hlen Hnan. unfold weightedMax.
  assert (length array ≠ 0%nat) as Hn by (by destruct array).
  rewrite <- Hlen, Nat.eqb_refl.
  destruct (Nat.eqb_spec (length array) 0) as [|_]; [done|]. simpl.
  destruct (lookup_lt_is_Some_2 weights 0) as [w0 Hw0]; [lia|].
  set (better := fun w best : number => Num.ltb best w).
  destruct (extreme_start better weights w0) as [Hle Hlt];
    [intros a; apply ltb_irrefl|done|].
  destruct (extreme_loop_spec better weights (length array - 1) 1 0)
    as (Hr & Hmax & Hfirst); try done; try lia.
  - intros a; apply ltb_irrefl.
  - intros a b c Hab Hbc. by apply (ltb_trans c b a).
  - intros a b c Hc Hab Hcb. by apply (ltb_below a b c).
  - destruct (lookup_lt_is_Some_2 array
                (extreme_loop better weights 1 (length array - 1)
                   (weight_at weights 0) 0)) as [x Hx]; [lia|].
    eexists _, x. split_and!; [by rewrite Hx|done|exact Hmax|exact Hfirst].
Qed.

Lemma weightedMin_earliest_least array weights :
  array ≠ [] →
  length array = length weights →
  (∀ w, w ∈ weights → Num.is_nan w = false) →
  ∃ (i : nat) x,
    weightedMin array weights = Ret (Some x) ∧
    array !! i = Some x ∧
    (∀ (j : nat) w, weights !! j = Some w →
                    Num.ltb w (weight_at weights i) = false) ∧
    (∀ (j : nat) w, (j < i)%nat → weights !! j = Some w →
                    Num.ltb (weight_at weights i) w = true).
Proof.
  intros Ha Hlen Hnan. unfold weightedMin.
  assert (length array ≠ 0%nat) as Hn by (by destruct array).
  rewrite <- Hlen, Nat.eqb_refl.
  destruct (Nat.eqb_spec (length array) 0) as [|_]; [done|]. simpl.
  destruct (lookup_lt_is_Some_2 weights 0) as [w0 Hw0]; [lia|].
  set (better := fun w best : number => Num.ltb w best).
  destruct (extreme_start better weights w0) as [Hle Hlt];
    [intros a; apply ltb_irrefl|done|].
  destruct (extreme_loop_spec better weights (length array - 1) 1 0)
    as (Hr & Hmin & Hfirst); try done; try lia.
  - intros a; apply ltb_irrefl.
  - intros a b c Hab Hbc. by apply (ltb_trans a b c).
  - intros a b c Hc Hab Hcb. by apply (ltb_above a b c).
  - destruct (lookup_lt_is_Some_2 array
                (extreme_loop better weights 1 (length array - 1)
                   (weight_at weights 0) 0)) as [x Hx]; [lia|].
    eexists _, x. split_and!; [by rewrite Hx|done|exact Hmin|exact Hfirst].
Qed.

(** X15: on an array and weights of one non-zero length, no weight NaN,
    [weightedMax] returns the element at the first index whose weight no
    weight exceeds: every weight before it is smaller. [weightedMin]
    returns the element at the first index whose weight no weight is
    below: every weight before it is greater. *)
Theorem weighted_extremes_earliest array weights :
  array ≠ [] →
  length array = length weights →
  (∀ w, w ∈ weights → Num.is_nan w = false) →
  (∃ (i : nat) x,
     weightedMax array weights = Ret (Some x) ∧
     array !! i = Some x ∧
     (∀ (j : nat) w, weights !! j = Some w →
                     Num.ltb (weight_at weights i) w = false) ∧
     (∀ (j : nat) w, (j < i)%nat → weights !! j = Some w →
                     Num.ltb w (weight_at weights i) = true)) ∧
  (∃ (i : nat) x,
     weightedMin array weights = Ret (Some x) ∧
     array !! i = Some x ∧
     (∀ (j : nat) w, weights !! j = Some w →
                     Num.ltb w (weight_at weights i) = false) ∧
     (∀ (j : nat) w, (j < i)%nat → weights !! j = Some w →
                     Num.ltb (weight_at weights i) w = true)).
Proof.
  intros Ha Hlen Hnan. split.
  - by apply weightedMax_earliest_greatest.
  - by apply weightedMin_earliest_least.
Qed.

End ExtremeFacts.

Section ExtremeExamples.

Import ArrayUtils.
Local Open Scope string_scope.

(** X15 at work on weights with a tie at the top and a tie at the
    bottom. *)
Lemma weighted_extremes_earliest_witness :
  let weights := [Num.of_Z 1; Num.of_Z 3; Num.of_Z 3; Num.of_Z 1] in
  (∃ (i : nat) x,
     weightedMax ["a"; "b"; "c"; "d"] weights = Ret (Some x) ∧
     ["a"; "b"; "c"; "d"] !! i = Some x ∧
     (∀ (j : nat) w, weights !! j = Some w →
                     Num.ltb (weight_at weights i) w = false) ∧
     (∀ (j : nat) w, (j < i)%nat → weights !! j = Some w →
                     Num.ltb w (weight_at weights i) = true)) ∧
  (∃ (i : nat) x,
     weightedMin ["a"; "b"; "c"; "d"] weights = Ret (Some x) ∧
     ["a"; "b"; "c"; "d"] !! i = Some x ∧
     (∀ (j : nat) w, weights !! j = Some w →
                     Num.ltb w (weight_at weights i) = false) ∧
     (∀ (j : nat) w, (j < i)%nat → weights !! j = Some w →
                     Num.ltb (weight_at weights i) w = true)).
Proof.
  apply (weighted_extremes_earliest ["a"; "b"; "c"; "d"]
           [Num.of_Z 1; Num.of_Z 3; Num.of_Z 3; Num.of_Z 1]); [done|done|].
  intros w Hw. repeat (apply elem_of_cons in Hw as [->|Hw]; [done|]).
  by apply elem_of_nil in Hw.
Defined.

End ExtremeExamples.

Section SampleSizeFacts.

Import ArrayUtils.
Context {T : Type} `{EqDecision T}.
Context {RNG : Type} (Math_random : RNG → number * RNG).
Implicit Types (array result : list T) (weights : list number) (g : RNG).

Lemma sampleSize_loop_bounds array weights (count : nat) result g r g' :
  sampleSize_loop Math_random array weights count result g = (Ret r, g') →
  (length r ≤ length result + count)%nat ∧
  (∀ x, x ∈ r → x ∈ result ∨ x ∈ array).
Proof.
  revert result g. induction count as [|count IH]; intros result g; simpl.
  - intros [= <- <-]. split; [lia|]. by left.
  - destruct (weightedSample Math_random array weights g)
      as [[[sample|]| | |] g1] eqn:Hsample; try done.
    + intros Hr. apply IH in Hr as [Hlen Hmem].
      rewrite length_app in Hlen. simpl in Hlen. split; [lia|].
      intros x Hx. apply Hmem in Hx as [Hx|Hx]; [|by right].
      apply elem_of_app in Hx as [Hx|Hx]; [by left|].
      apply list_elem_of_singleton in Hx as ->. right.
      by eapply weightedSample_elem.
    + intros Hr. apply IH in Hr as [Hlen Hmem]. split; [lia|done].
Qed.

(** X16: for an integer [n] and whatever [Math.random] yields, an array
    that [weightedSampleSize] returns holds at most [n] elements (none for
    [n <= 0]), each of them an element of the array given. *)
Theorem weightedSampleSize_bounds array weights (n : Z) g r g' :
  weightedSampleSize Math_random array weights n g = (Ret r, g') →
  Z.of_nat (length r) ≤ Z.max 0 n ∧ ∀ x, x ∈ r → x ∈ array.
Proof.
  unfold weightedSampleSize. destruct (Z.leb_spec n 0).
  { intros [= <- <-]. split; [simpl; lia|]. by intros x ?%elem_of_nil. }
  destruct (_ || _).
  { intros [= <- <-]. split; [simpl; lia|]. by intros x ?%elem_of_nil. }
  intros Hr. apply sampleSize_loop_bounds in Hr as [Hlen Hmem].
  simpl in Hlen. split; [lia|].
  intros x Hx. apply Hmem in Hx as [Hx|Hx]; [|done].
  by apply elem_of_nil in Hx.
Qed.

End SampleSizeFacts.

Section SampleSizeExamples.

Import ArrayUtils.
Local Open Scope string_scope.

(** X16 at work: two draws from two weighted items. *)
Lemma weightedSampleSize_bounds_witness :
  (Z.of_nat (length ["b"; "b"]) ≤ Z.max 0 2)%Z ∧
  ∀ x, x ∈ ["b"; "b"] → x ∈ ["a"; "b"].
Proof.
  apply (weightedSampleSize_bounds
           (fixed_source (Num.div (Num.of_Z 1) (Num.of_Z 2)))
           ["a"; "b"] [Num.of_Z 1; Num.of_Z 3] 2 0%nat ["b"; "b"] 2%nat).
  reflexivity.
Defined.

End SampleSizeExamples.

Section AccessFacts.

Import ObjectUtils.
Implicit Types (h : heap) (v x obj current : value) (keys : list string).

Lemma has_loop_get_loop h keys current :
  (has_loop h keys current = Ret false →
   ∀ d, get_loop h keys current d = Ret d) ∧
  (has_loop h keys current = Ret true →
   ∃ v, ∀ d, get_loop h keys current d = Ret v) ∧
  (∀ e, has_loop h keys current = Throw e →
        ∀ d, get_loop h keys current d = Throw e).
Proof.
  revert current. induction keys as [|key keys IH]; intros current; simpl.
  - split_and!; [by intros [=]|intros _; by exists current|by intros ? [=]].
  - destruct (is_null current || is_undefined current).
    { split_and!; [done|by intros [=]|by intros ? [=]]. }
    destruct (js_in h key current) as [[]| | |]; simpl.
    2-5: split_and!; [try done; by intros [=]|by intros [=]|
                       try (by intros ? [=]); by intros ? [= ->]].
    destruct (js_get h current key) as [next| | |]; simpl; [apply IH|..].
    all: split_and!; [by intros [=]|by intros [=]|
                      try (by intros ? [=]); by intros ? [= ->]].
Qed.

(** X17: [has] and [get] agree on every object and path: where [has]
    answers false [get] returns the default, where [has] answers true [get]
    returns a value that does not depend on the default, and where [has]
    raises an error [get] raises the same. *)
Theorem has_get_agree h obj (path : string) :
  (has h obj path = Ret false → ∀ d, get h obj path d = Ret d) ∧
  (has h obj path = Ret true → ∃ v, ∀ d, get h obj path d = Ret v) ∧
  (∀ e, has h obj path = Throw e → ∀ d, get h obj path d = Throw e).
Proof. apply has_loop_get_loop. Qed.

(** X18: [deepEqual] does not look into Sets and Maps: any two Sets are
    reported equal whatever they hold, and any two Maps. *)
Theorem deepEqual_Set_Map_contents (fuel : nat) h (la lb : nat)
    (ea eb : list value) (ma mb : list (value * value)) :
  (h !! la = Some (OSet ea) → h !! lb = Some (OSet eb) →
   deepEqual (S fuel) h (VRef la) (VRef lb) = Ret true) ∧
  (h !! la = Some (OMap ma) → h !! lb = Some (OMap mb) →
   deepEqual (S fuel) h (VRef la) (VRef lb) = Ret true).
Proof.
  split; intros Ha Hb; simpl; destruct (Nat.eqb_spec la lb); try done;
    simpl; by rewrite Ha, Hb.
Qed.

End AccessFacts.

Section CloneFrame.

Import ObjectUtils.
Implicit Types (h : heap) (v x obj current cloned : value).

#[local] Arguments js_get : simpl never.
#[local] Arguments js_put : simpl never.
#[local] Arguments Map_set : simpl never.

Lemma prefix_insert_beyond h0 h (l : nat) (o : object) :
  h0 `prefix_of` h → (length h0 ≤ l)%nat → h0 `prefix_of` <[l := o]> h.
Proof.
  intros [k ->] Hl. exists (<[(l - length h0)%nat := o]> k).
  by rewrite insert_app_r_alt by lia.
Qed.

Lemma prefix_alloc h0 h o : h0 `prefix_of` h → h0 `prefix_of` (alloc o h).2.
Proof. intros Hpre. simpl. by apply prefix_app_r. Qed.

Lemma js_put_beyond h0 h (l : nat) key x h' :
  h0 `prefix_of` h → (length h0 ≤ l)%nat →
  js_put h (VRef l) key x = Ret h' → h0 `prefix_of` h'.
Proof.
  intros Hpre Hl. unfold js_put.
  repeat case_match; intros [= <-]; try done;
    by apply prefix_insert_beyond.
Qed.

Lemma Map_set_beyond h0 h (l : nat) key x h' :
  h0 `prefix_of` h → (length h0 ≤ l)%nat →
  Map_set h (VRef l) key x = Ret h' → h0 `prefix_of` h'.
Proof.
  intros Hpre Hl. unfold Map_set.
  repeat case_match; intros [= <-]; by apply prefix_insert_beyond.
Qed.

Lemma map_heap_prefix {A B} (f : A → heap → outcome (B * heap)) (l : list A) :
  (∀ a h b h', f a h = Ret (b, h') → h `prefix_of` h') →
  ∀ h bs h', map_heap f l h = Ret (bs, h') → h `prefix_of` h'.
Proof.
  intros Hf. induction l as [|a l IH]; intros h bs h'; simpl.
  - by intros [= _ <-].
  - destruct (f a h) as [[b h1]| | |] eqn:Ha; simpl; try done.
    destruct (map_heap f l h1) as [[bs' h2]| | |] eqn:Hl; simpl; try done.
    intros [= _ <-]. etrans; [by eapply Hf|by eapply IH].
Qed.

Lemma forEach_heap_prefix {A} (f : A → heap → outcome heap) (l : list A) h0 :
  (∀ a h h', h0 `prefix_of` h → f a h = Ret h' → h0 `prefix_of` h') →
  ∀ h h', h0 `prefix_of` h → forEach_heap f l h = Ret h' → h0 `prefix_of` h'.
Proof.
  intros Hf. induction l as [|a l IH]; intros h h' Hpre; simpl.
  - by intros [= <-].
  - destruct (f a h) as [h1| | |] eqn:Ha; simpl; try done.
    apply IH. by eapply Hf.
Qed.

Lemma deepClone_prefix (fuel : nat) :
  ∀ v h v' h', deepClone fuel v h = Ret (v', h') → h `prefix_of` h'.
Proof.
  induction fuel as [|fuel IH]; intros v h v' h'; [done|].
  destruct v as [| |b|t|s|l]; try (by intros [= _ <-]).
  destruct (h !! l) as [o|] eqn:Hl; [|by simpl; rewrite Hl].
  rewrite (deepClone_ref fuel l h o Hl). destruct o as [time|elems|elems|entries|props].
  - intros [= _ <-]. by apply prefix_app_r.
  - destruct (map_heap _ _ _) as [[items h1]| | |] eqn:Hmap; simpl; try done.
    intros [= _ <-]. apply prefix_app_r.
    by eapply (map_heap_prefix (deepClone fuel)).
  - destruct (map_heap _ _ _) as [[items h1]| | |] eqn:Hmap; simpl; try done.
    intros [= _ <-]. apply prefix_app_r.
    by eapply (map_heap_prefix (deepClone fuel)).
  - simpl. destruct (forEach_heap _ _ _) as [h1| | |] eqn:Hloop; simpl;
      try done.
    intros [= _ <-].
    eapply (forEach_heap_prefix _ entries h); [|by apply prefix_app_r|exact Hloop].
    intros [key value] hc hc' Hpre. simpl.
    destruct (deepClone fuel key hc) as [[key' h2]| | |] eqn:Hkey; simpl;
      try done.
    destruct (deepClone fuel value h2) as [[value' h3]| | |] eqn:Hvalue;
      simpl; try done.
    apply Map_set_beyond; [|done].
    etrans; [exact Hpre|]. etrans; by eapply IH.
  - simpl. destruct (forEach_heap _ _ _) as [h1| | |] eqn:Hloop; simpl;
      try done.
    intros [= _ <-].
    eapply (forEach_heap_prefix _ _ h); [|by apply prefix_app_r|exact Hloop].
    intros key hc hc' Hpre. simpl.
    destruct (js_get hc (VRef l) key) as [x| | |]; simpl; try done.
    destruct (deepClone fuel x hc) as [[x' h2]| | |] eqn:Hx; simpl; try done.
    apply js_put_beyond; [|done].
    etrans; [exact Hpre|]. by eapply IH.
Qed.

(** X19: a [deepClone] that returns has changed no object that was in the
    store: every location holds afterwards what it held before. The clone
    of an object is at a location that was unused, and a primitive is
    returned as it is, the store unchanged. *)
Theorem deepClone_keeps_store (fuel : nat) v h v' h' :
  deepClone fuel v h = Ret (v', h') →
  (∀ (l : nat) o, h !! l = Some o → h' !! l = Some o) ∧
  (∀ l : nat, v = VRef l → ∃ c : nat, v' = VRef c ∧ (length h ≤ c)%nat) ∧
  ((∀ l : nat, v ≠ VRef l) → v' = v ∧ h' = h).
Proof.
  intros Hclone. split_and!.
  - intros l o Hl. apply deepClone_prefix in Hclone as [k ->].
    by apply lookup_app_l_Some.
  - intros l ->. destruct fuel as [|fuel]; [done|].
    destruct (h !! l) as [o|] eqn:Hl; [|by simpl in Hclone; rewrite Hl in Hclone].
    rewrite (deepClone_ref fuel l h o Hl) in Hclone.
    destruct o as [time|elems|elems|entries|props]; simpl in Hclone.
    + injection Hclone as <- <-. by eexists.
    + destruct (map_heap _ _ _) as [[items h1]| | |] eqn:Hmap; simpl in Hclone;
        try done.
      injection Hclone as <- <-. eexists; split; [done|].
      apply (map_heap_prefix (deepClone fuel)) in Hmap;
        [|apply deepClone_prefix].
      by apply prefix_length.
    + destruct (map_heap _ _ _) as [[items h1]| | |] eqn:Hmap; simpl in Hclone;
        try done.
      injection Hclone as <- <-. eexists; split; [done|].
      apply (map_heap_prefix (deepClone fuel)) in Hmap;
        [|apply deepClone_prefix].
      by apply prefix_length.
    + destruct (forEach_heap _ _ _) as [h1| | |]; simpl in Hclone; try done.
      injection Hclone as <- <-. by eexists.
    + destruct (forEach_heap _ _ _) as [h1| | |]; simpl in Hclone; try done.
      injection Hclone as <- <-. by eexists.
  - intros Hv. destruct fuel as [|fuel]; [done|].
    destruct v as [| |b|t|s|l]; simpl in Hclone; try (by injection Hclone).
    by destruct (Hv l).
Qed.

End CloneFrame.

Section CloneFrameExamples.

Import ObjectUtils.
Local Open Scope string_scope.

(** X19 at work on a record with one property. *)
Lemma deepClone_keeps_store_witness :
  let h := [ORecord [("a", VNum (Num.of_Z 1))]] in
  let h' := [ORecord [("a", VNum (Num.of_Z 1))];
             ORecord [("a", VNum (Num.of_Z 1))]] in
  (∀ (l : nat) o, h !! l = Some o → h' !! l = Some o) ∧
  (∀ l : nat, VRef 0 = VRef l →
     ∃ c : nat, VRef 1 = VRef c ∧ (length h ≤ c)%nat) ∧
  ((∀ l : nat, VRef 0 ≠ VRef l) → VRef 1 = VRef 0 ∧ h' = h).
Proof.
  apply (deepClone_keeps_store 2 (VRef 0)
           [ORecord [("a", VNum (Num.of_Z 1))]] (VRef 1)
           [ORecord [("a", VNum (Num.of_Z 1))];
            ORecord [("a", VNum (Num.of_Z 1))]]).
  reflexivity.
Defined.

End CloneFrameExamples.

Section RoundTrip.

Import ObjectUtils Shape ObjectPaths.
Implicit Types (h : heap) (v x obj current cur : value) (o : object).
Implicit Types (keys : list string) (key k : string) (l : nat) (e : nat).
Implicit Types (props : list (string * value)).

Lemma acyclic_ref e h l :
  acyclic e h (VRef l)
  = match e with
    | O => false
    | S e =>
        match h !! l with
        | None => false
        | Some o => forallb (acyclic e h) (children o)
        end
    end.
Proof. destruct e; [done|]. unfold acyclic. simpl. by destruct (h !! l). Qed.

Lemma acyclic_primitive e h v : (∀ l, v ≠ VRef l) → acyclic e h v = true.
Proof.
  intros Hv. destruct v as [| | | | |l0]; try (by destruct e).
  exfalso. by apply (Hv l0).
Qed.

Lemma acyclic_zero h h' v : acyclic 0 h v = acyclic 0 h' v.
Proof. by destruct v. Qed.

Lemma acyclic_primitive_true e h v :
  match v with VRef _ => False | _ => True end → acyclic e h v = true.
Proof. by destruct e, v. Qed.

Lemma acyclic_mono e e' h v :
  (e ≤ e')%nat → acyclic e h v = true → acyclic e' h v = true.
Proof.
  revert e' v. induction e as [|e IH]; intros e' v He.
  - destruct v; try done; intros _; by apply acyclic_primitive_true.
  - destruct v as [| | | | |l]; try (intros _; by apply acyclic_primitive_true).
    rewrite !acyclic_ref.
    destruct e' as [|e']; [lia|]. destruct (h !! l) as [o|]; [|done].
    rewrite !forallb_forall. intros Hall x Hx. apply IH; [lia|by apply Hall].
Qed.

Lemma acyclic_child e h l o x :
  acyclic (S e) h (VRef l) = true → h !! l = Some o → x ∈ children o →
  acyclic e h x = true.
Proof.
  rewrite acyclic_ref. intros Hall Hl Hx. rewrite Hl in Hall.
  rewrite forallb_forall in Hall. by apply Hall, list_elem_of_In.
Qed.

Lemma acyclic_least e h l :
  acyclic e h (VRef l) = true →
  ∃ e0, acyclic (S e0) h (VRef l) = true ∧ acyclic e0 h (VRef l) = false.
Proof.
  induction e as [|e IH]; [by rewrite acyclic_ref|]. intros He.
  destruct (acyclic e h (VRef l)) eqn:He'; [by apply IH|by exists e].
Qed.

Lemma props_get_value props key x :
  props_get props key = Some x → x ∈ snd <$> props.
Proof.
  induction props as [|[k y] rest IH]; simpl; [done|].
  destruct (String.eqb k key).
  - intros [= ->]. by left.
  - intros Hx. right. by apply IH.
Qed.

Lemma props_get_update props key x :
  is_Some (props_get props key) →
  props_get (props_update props key x) key = Some x.
Proof.
  induction props as [|[k y] rest IH]; simpl; [by intros [? [=]]|].
  destruct (String.eqb k key) eqn:Hk; simpl; rewrite Hk; [done|apply IH].
Qed.

Lemma props_get_set props key x :
  props_get (props_set props key x) key = Some x.
Proof.
  unfold props_set. destruct (props_get props key) as [y|] eqn:Hget.
  - apply props_get_update. by rewrite Hget.
  - by rewrite props_get_add, String.eqb_refl.
Qed.

(** A write that returns has changed the one object written to; unless it
    is the write of a primitive under ["__proto__"], the property is there
    afterwards. *)
Lemma js_put_spec h cur key x h1 :
  js_put h cur key x = Ret h1 →
  key ≠ "__proto__"%string ∨ (∃ n : nat, x = VRef n) →
  ∃ (l0 : nat) o o',
    cur = VRef l0 ∧ h !! l0 = Some o ∧ h1 = <[l0 := o']> h ∧
    js_in h1 key cur = Ret true ∧ js_get h1 cur key = Ret x ∧
    x ∈ children o'.
Proof.
  intros Hput Hkey. destruct cur as [| |b|t|s|l0]; simpl in Hput; try done;
    try (by destruct (String.eqb key "__proto__")).
  destruct (h !! l0) as [o|] eqn:Hl0; [|done].
  assert (l0 < length h)%nat as Hlt by (by eapply lookup_lt_Some).
  destruct o as [time|elems|elems|entries|props]; try done.
  - destruct (array_index key) as [i|] eqn:Hi; [|done].
    destruct (N.ltb_spec i (N.of_nat (length elems))); [|done].
    injection Hput as <-. eexists l0, _, _. split_and!; [done|done|done|..].
    + simpl. rewrite list_lookup_insert_eq by done. rewrite Hi, length_insert.
      f_equal. apply N.ltb_lt. lia.
    + simpl. rewrite list_lookup_insert_eq by done. rewrite Hi.
      rewrite list_lookup_insert_eq by lia. done.
    + simpl. apply (list_elem_of_lookup_2 _ (N.to_nat i)).
      apply list_lookup_insert_eq. lia.
  - assert (h1 = <[l0 := ORecord (props_set props key x)]> h) as ->.
    { destruct (props_get props key) as [y|]; [by injection Hput|].
      destruct (String.eqb_spec key "__proto__") as [->|Hne].
      - destruct Hkey as [?|[n ->]]; [done|]. simpl in Hput. done.
      - by injection Hput. }
    eexists l0, _, _. split_and!; [done|done|done|..].
    + simpl. rewrite list_lookup_insert_eq by done.
      by rewrite props_get_set.
    + simpl. rewrite list_lookup_insert_eq by done.
      by rewrite props_get_set.
    + simpl. eapply props_get_value, props_get_set.
Qed.

(** Whatever the key, a write that returns has changed at most the object
    written to. *)
Lemma js_put_shape h cur key x h1 :
  js_put h cur key x = Ret h1 →
  ∃ l0 : nat, cur = VRef l0 ∧ ∀ l, l ≠ l0 → h1 !! l = h !! l.
Proof.
  intros Hput. destruct cur as [| |b|t|s|l0]; simpl in Hput; try done;
    try (by destruct (String.eqb key "__proto__")).
  exists l0. split; [done|]. intros l Hl.
  repeat case_match; try done; injection Hput as <-; try done;
    by rewrite list_lookup_insert_ne.
Qed.

Lemma js_in_child h key cur x :
  js_in h key cur = Ret true → js_get h cur key = Ret x →
  ∃ (l0 : nat) o, cur = VRef l0 ∧ h !! l0 = Some o ∧
                  ∀ l1 : nat, x = VRef l1 → x ∈ children o.
Proof.
  destruct cur as [| |b|t|s|l0]; simpl; try done.
  destruct (h !! l0) as [o|] eqn:Hl0; [|done].
  destruct o as [time|elems|elems|entries|props]; try done.
  - destruct (array_index key) as [i|].
    + intros [= Hi%N.ltb_lt] [= <-]. eexists _, _. split_and!; [done|done|].
      destruct (lookup_lt_is_Some_2 elems (N.to_nat i)) as [y Hy]; [lia|].
      rewrite Hy. simpl. intros _ _. by eapply list_elem_of_lookup_2.
    + destruct (String.eqb key "length"); [|done].
      intros _ [= <-]. eexists _, _. split_and!; done.
  - destruct (props_get props key) as [y|] eqn:Hy.
    + intros _ [= <-]. eexists _, _. split_and!; [done|done|].
      intros _ _. by eapply props_get_value.
    + by destruct (inherited key).
Qed.

Lemma js_in_same h h' key (l0 : nat) :
  h' !! l0 = h !! l0 → js_in h' key (VRef l0) = js_in h key (VRef l0).
Proof. intros Hl. simpl. by rewrite Hl. Qed.

Lemma js_get_same h h' key (l0 : nat) :
  h' !! l0 = h !! l0 → js_get h' (VRef l0) key = js_get h (VRef l0) key.
Proof. intros Hl. simpl. by rewrite Hl. Qed.

Lemma set_loop_ref h keys cur v h' :
  set_loop h keys cur v = Ret h' → ∃ l0 : nat, cur = VRef l0.
Proof.
  destruct keys as [|k [|k2 rest]]; simpl.
  - intros (l0 & -> & _)%js_put_shape. by eexists.
  - intros (l0 & -> & _)%js_put_shape. by eexists.
  - destruct cur; try done. by eexists.
Qed.

(** One turn of the loop of [set]: either the property holds an object and
    the store is left as it is, or a new empty record is stored under the
    key. *)
Lemma set_loop_step h k k2 rest cur v h' :
  set_loop h (k :: k2 :: rest) cur v = Ret h' →
  ∃ h1 cur1,
    set_loop h1 (k2 :: rest) cur1 v = Ret h' ∧
    ((h1 = h ∧ js_in h k cur = Ret true ∧ js_get h cur k = Ret cur1) ∨
     (js_put (h ++ [ORecord []]) cur k (VRef (length h)) = Ret h1 ∧
      js_get h1 cur k = Ret cur1)).
Proof.
  cbn [set_loop].
  destruct (js_in h k cur) as [present| | |] eqn:Hin; try done.
  cbn [mbind outcome_bind bind].
  destruct present; cbn [negb].
  - destruct (js_get h cur k) as [x| | |] eqn:Hget; try done.
    cbn [mbind outcome_bind bind mret outcome_ret].
    destruct (negb (bool_decide (typeof x = TObject))).
    + cbn [alloc].
      destruct (js_put _ cur k _) as [h1| | |] eqn:Hput; try done.
      cbn [mbind outcome_bind bind].
      destruct (js_get h1 cur k) as [cur1| | |] eqn:Hget1; try done.
      intros Hrest. exists h1, cur1. split; [done|]. by right.
    + cbn [mbind outcome_bind bind]. rewrite Hget.
      intros Hrest. exists h, x. split; [done|]. by left.
  - cbn [mbind outcome_bind bind mret outcome_ret alloc].
    destruct (js_put _ cur k _) as [h1| | |] eqn:Hput; try done.
    cbn [mbind outcome_bind bind].
    destruct (js_get h1 cur k) as [cur1| | |] eqn:Hget1; try done.
    intros Hrest. exists h1, cur1. split; [done|]. by right.
Qed.

Lemma set_loop_frame keys :
  ∀ h cur v h' e l,
    acyclic e h cur = true →
    set_loop h keys cur v = Ret h' →
    acyclic e h (VRef l) = false →
    (l < length h)%nat →
    h' !! l = h !! l.
Proof.
  assert (∀ h cur key v h' e l,
            acyclic e h cur = true → js_put h cur key v = Ret h' →
            acyclic e h (VRef l) = false → h' !! l = h !! l) as Hlast.
  { intros h cur key v h' e l He (l0 & -> & Hother)%js_put_shape Hl.
    apply Hother. intros ->. congruence. }
  induction keys as [|k keys IH]; intros h cur v h' e l He Hset Hl Hlt.
  { by eapply Hlast. }
  destruct keys as [|k2 rest]; [by eapply Hlast|].
  apply set_loop_step in Hset
    as (h1 & cur1 & Hrest & [(-> & Hin & Hget)|[Hput Hget]]).
  - destruct (set_loop_ref _ _ _ _ _ Hrest) as [l1 ->].
    destruct (js_in_child _ _ _ _ Hin Hget) as (l0 & o & -> & Hl0 & Hchild).
    destruct e as [|e]; [by rewrite acyclic_ref in He|].
    apply (IH h (VRef l1) v h' e l); [|done| |done].
    + eapply acyclic_child; [done|done|by eapply Hchild].
    + destruct (acyclic e h (VRef l)) eqn:He'; [|done].
      apply (acyclic_mono e (S e)) in He'; [congruence|lia].
  - apply js_put_spec in Hput
      as (l0 & o & o' & -> & Hl0 & -> & Hin1 & Hget1 & Hchild);
      [|right; by eexists].
    rewrite Hget1 in Hget. injection Hget as <-.
    assert (l ≠ l0) as Hne by (intros ->; congruence).
    assert (l0 < length h)%nat as Hl0lt.
    { apply lookup_lt_Some in Hl0. rewrite length_app in Hl0. simpl in Hl0.
      destruct (decide (l0 = length h)) as [->|]; [|lia].
      rewrite acyclic_ref in He. destruct e; [done|].
      by rewrite lookup_ge_None_2 in He by lia. }
    destruct e as [|e]; [by rewrite acyclic_ref in He|].
    destruct (lookup_lt_is_Some_2 h l Hlt) as [ol Hol].
    assert (<[l0:=o']> (h ++ [ORecord []]) !! l = Some ol) as Hl1.
    { rewrite list_lookup_insert_ne by done. by apply lookup_app_l_Some. }
    rewrite Hol, <- Hl1.
    apply (IH _ (VRef (length h)) v h' 1%nat l); [|done| |].
    + rewrite acyclic_ref, list_lookup_insert_ne by lia.
      by rewrite lookup_app_r, Nat.sub_diag by lia.
    + rewrite acyclic_ref, Hl1.
      destruct (forallb (acyclic 0 _) (children ol)) eqn:Hall; [|done].
      assert (acyclic 1 h (VRef l) = true) as H1.
      { rewrite acyclic_ref, Hol. rewrite forallb_forall in *.
        intros x Hx.
        rewrite (acyclic_zero h (<[l0:=o']> (h ++ [ORecord []]))).
        by apply Hall. }
      apply (acyclic_mono 1 (S e)) in H1; [congruence|lia].
    + rewrite length_insert, length_app. simpl. lia.
Qed.

Lemma set_loop_get_loop keys :
  ∀ h cur v h' e d,
    keys ≠ [] →
    last keys ≠ Some "__proto__"%string →
    acyclic e h cur = true →
    set_loop h keys cur v = Ret h' →
    get_loop h' keys cur d = Ret v ∧ has_loop h' keys cur = Ret true.
Proof.
  induction keys as [|k keys IH]; intros h cur v h' e d Hne Hlast He Hset;
    [done|].
  destruct keys as [|k2 rest].
  - simpl in Hset, Hlast. apply js_put_spec in Hset
      as (l0 & o & o' & -> & Hl0 & -> & Hin & Hget & _);
      [|left; congruence].
    cbn [get_loop has_loop is_null is_undefined orb].
    rewrite Hin, Hget. done.
  - assert (last (k2 :: rest) ≠ Some "__proto__"%string) as Hlast'
      by (by rewrite last_cons_cons in Hlast).
    apply set_loop_step in Hset
      as (h1 & cur1 & Hrest & [(-> & Hin & Hget)|[Hput Hget]]).
    + destruct (set_loop_ref _ _ _ _ _ Hrest) as [l1 ->].
      destruct (js_in_child _ _ _ _ Hin Hget) as (l0 & o & -> & Hl0 & Hchild).
      destruct (acyclic_least _ _ _ He) as (e0 & He0 & Hleast).
      assert (acyclic e0 h (VRef l1) = true) as He1.
      { eapply acyclic_child; [done|done|by eapply Hchild]. }
      destruct (IH h (VRef l1) v h' e0 d) as [Hg Hh]; [done|done|done|done|].
      assert (h' !! l0 = h !! l0) as Hsame.
      { eapply (set_loop_frame _ h (VRef l1)); [exact He1|done|done|].
        by eapply lookup_lt_Some. }
      cbn [get_loop has_loop is_null is_undefined orb].
      rewrite (js_in_same h h'), (js_get_same h h'), Hin, Hget by done.
      done.
    + apply js_put_spec in Hput
        as (l0 & o & o' & -> & Hl0 & -> & Hin1 & Hget1 & Hchild);
        [|right; by eexists].
      rewrite Hget1 in Hget. injection Hget as <-.
      assert (l0 < length h)%nat as Hl0lt.
      { apply lookup_lt_Some in Hl0. rewrite length_app in Hl0. simpl in Hl0.
        destruct (decide (l0 = length h)) as [->|]; [|lia].
        rewrite acyclic_ref in He. destruct e; [done|].
        by rewrite lookup_ge_None_2 in He by lia. }
      set (h1 := <[l0:=o']> (h ++ [ORecord []])) in *.
      assert (acyclic 1 h1 (VRef (length h)) = true) as He1.
      { unfold h1. rewrite acyclic_ref, list_lookup_insert_ne by lia.
        by rewrite lookup_app_r, Nat.sub_diag by lia. }
      destruct (IH h1 (VRef (length h)) v h' 1%nat d) as [Hg Hh];
        [done|done|done|done|].
      assert (h' !! l0 = h1 !! l0) as Hsame.
      { eapply (set_loop_frame _ h1 (VRef (length h))); [exact He1|done| |].
        - rewrite acyclic_ref. unfold h1.
          rewrite list_lookup_insert_eq
            by (rewrite length_app; simpl; lia).
          apply not_true_is_false. rewrite forallb_forall. intros Hall.
          apply list_elem_of_In, Hall in Hchild. done.
        - unfold h1. rewrite length_insert, length_app. simpl. lia. }
      cbn [get_loop has_loop is_null is_undefined orb].
      rewrite (js_in_same h1 h'), (js_get_same h1 h'), Hin1, Hget1 by done.
      done.
Qed.

Lemma split_dots_nonempty (path : string) : split_dots path ≠ [].
Proof.
  induction path as [|c rest IH]; simpl; [done|].
  destruct (Ascii.eqb c "."%char); [done|]. by destruct (split_dots rest).
Qed.

Lemma records_ref e h l :
  records e h (VRef l) = true →
  ∃ e' props,
    e = S e' ∧ h !! l = Some (ORecord props) ∧
    ∀ x, x ∈ snd <$> props → records e' h x = true.
Proof.
  destruct e as [|e']; [done|]. unfold records. simpl.
  destruct (h !! l) as [[]|]; try done. simpl.
  intros Hall. eexists _, _. split_and!; [done..|].
  intros x Hx. rewrite forallb_forall in Hall.
  by apply Hall, list_elem_of_In.
Qed.

Lemma records_acyclic e h v : records e h v = true → acyclic e h v = true.
Proof.
  revert v. induction e as [|e IH]; intros v; destruct v; try done.
  intros Hrec.
  destruct (records_ref _ _ _ Hrec) as (e' & props & [= <-] & Hl & Hall).
  rewrite acyclic_ref, Hl. simpl. apply forallb_forall.
  intros x Hx. by apply IH, Hall, list_elem_of_In.
Qed.

Lemma records_primitive e h v :
  match v with VRef _ => False | _ => True end → records e h v = true.
Proof. by destruct e, v. Qed.

(** What [in], the read and the assignment come to on a value made of
    records, for a key that records do not inherit. *)
Lemma records_access e h cur key :
  records e h cur = true → inherited key = false →
  (js_in h key cur = Throw TypeError ∧ ∀ l, cur ≠ VRef l) ∨
  ∃ (l : nat) props e',
    cur = VRef l ∧ e = S e' ∧ h !! l = Some (ORecord props) ∧
    (∀ x, x ∈ snd <$> props → records e' h x = true) ∧
    js_in h key cur = Ret (bool_decide (is_Some (props_get props key))) ∧
    js_get h cur key = Ret (default VUndefined (props_get props key)).
Proof.
  intros Hrec Hkey. destruct cur as [| | | | |l]; try (left; by split).
  right. destruct (records_ref _ _ _ Hrec) as (e' & props & -> & Hl & Hall).
  exists l, props, e'. split_and!; [done..| |].
  - simpl. rewrite Hl, Hkey. by destruct (props_get props key).
  - simpl. rewrite Hl, Hkey. by destruct (props_get props key).
Qed.


Lemma not_inherited_proto key :
  inherited key = false → String.eqb key "__proto__" = false.
Proof.
  intros Hkey. destruct (String.eqb_spec key "__proto__") as [->|]; done.
Qed.

Lemma js_put_record h l props key x :
  h !! l = Some (ORecord props) → inherited key = false →
  js_put h (VRef l) key x
  = Ret (<[l := ORecord (props_set props key x)]> h).
Proof.
  intros Hl Hkey. simpl. rewrite Hl, (not_inherited_proto _ Hkey).
  by destruct (props_get props key).
Qed.

Lemma js_put_primitive h cur key x :
  (∀ l, cur ≠ VRef l) → inherited key = false →
  js_put h cur key x = Throw TypeError.
Proof.
  intros Hcur Hkey. destruct cur as [| | | | |l]; simpl;
    rewrite ?(not_inherited_proto _ Hkey); try done.
  by destruct (Hcur l).
Qed.

#[local] Arguments js_in : simpl never.
#[local] Arguments js_get : simpl never.
#[local] Arguments js_put : simpl never.

Lemma set_loop_returns keys :
  ∀ h cur v e,
    keys ≠ [] →
    Forall (fun key => inherited key = false) keys →
    records e h cur = true →
    set_loop h keys cur v = Throw TypeError ∨
    ∃ h', set_loop h keys cur v = Ret h'.
Proof.
  induction keys as [|k keys IH]; intros h cur v e Hne Hkeys Hrec; [done|].
  apply Forall_cons in Hkeys as [Hk Hkeys].
  destruct (records_access e h cur k Hrec Hk)
    as [[Hin Hprim]|(l & props & e' & -> & -> & Hl & Hall & Hin & Hget)].
  - destruct keys as [|k2 rest].
    + left. by apply js_put_primitive.
    + left. cbn [set_loop]. by rewrite Hin.
  - destruct keys as [|k2 rest].
    + right. eexists. by apply js_put_record.
    + assert (l < length h)%nat as Hlt by (by eapply lookup_lt_Some).
      assert (∀ h1,
        h1 = <[l := ORecord (props_set props k (VRef (length h)))]>
               (h ++ [ORecord []]) →
        js_put (h ++ [ORecord []]) (VRef l) k (VRef (length h)) = Ret h1 ∧
        js_get h1 (VRef l) k = Ret (VRef (length h)) ∧
        records 1 h1 (VRef (length h)) = true) as Hnew.
      { intros h1 ->. split_and!.
        - apply js_put_record; [|done].
          by rewrite lookup_app_l.
        - unfold js_get.
          rewrite list_lookup_insert_eq by (rewrite length_app; lia).
          by rewrite props_get_set.
        - unfold records. simpl.
          rewrite list_lookup_insert_ne by lia.
          by rewrite lookup_app_r, Nat.sub_diag by lia. }
      destruct (Hnew _ eq_refl) as (Hput & Hget1 & Hrec1).
      cbn [set_loop]. rewrite Hin.
      destruct (props_get props k) as [x|] eqn:Hx.
      * rewrite bool_decide_eq_true_2 by eauto. simpl. rewrite Hget. simpl.
        destruct (bool_decide (typeof x = TObject)) eqn:Hty; simpl.
        -- rewrite Hget. simpl.
           apply (IH h x v e'); [done|done|].
           apply Hall. by eapply props_get_value.
        -- rewrite Hput. simpl. rewrite Hget1. simpl.
           by apply (IH _ _ v 1%nat).
      * rewrite bool_decide_eq_false_2 by (by intros []). simpl.
        rewrite Hput. simpl. rewrite Hget1. simpl.
        by apply (IH _ _ v 1%nat).
Qed.

(** X20: on a value made of plain records, without cycle (no array, Date,
    Set or Map), and for a path no segment of which is a name that records
    inherit from [Object.prototype], [set] raises a TypeError or returns;
    and once it has returned, [get] with the same path returns the value
    set, whatever the default, and [has] answers true. (An array is left
    out because assigning to its [length] stores a number, not the value
    given.) *)
Theorem set_then_get h obj (path : string) v (depth : nat) :
  records depth h obj = true →
  Forall (fun key => inherited key = false) (split_dots path) →
  set h obj path v = Throw TypeError ∨
  ∃ h',
    set h obj path v = Ret h' ∧
    (∀ d, get h' obj path d = Ret v) ∧ has h' obj path = Ret true.
Proof.
  intros Hrec Hkeys.
  destruct (set_loop_returns (split_dots path) h obj v depth
              (split_dots_nonempty path) Hkeys Hrec) as [Hthrow|[h' Hset]];
    [by left|right].
  exists h'. split; [done|].
  assert (last (split_dots path) ≠ Some "__proto__"%string) as Hlast.
  { intros Hlast. rewrite last_lookup in Hlast.
    by pose proof (Forall_lookup_1 _ _ _ _ Hkeys Hlast). }
  apply records_acyclic in Hrec. split.
  - intros d.
    by apply (set_loop_get_loop (split_dots path) h obj v h' depth d
                (split_dots_nonempty path)).
  - by apply (set_loop_get_loop (split_dots path) h obj v h' depth VNull
                (split_dots_nonempty path)).
Qed.

End RoundTrip.

Section RoundTripExamples.

Import ObjectUtils Shape ObjectPaths Samples.
Local Open Scope string_scope.

(** X20 at work on the object of the repository's test of [get]. *)
Lemma set_then_get_witness :
  set nested_store (VRef 2) "a.n.m" (VStr "v") = Throw TypeError ∨
  ∃ h',
    set nested_store (VRef 2) "a.n.m" (VStr "v") = Ret h' ∧
    (∀ d, get h' (VRef 2) "a.n.m" d = Ret (VStr "v")) ∧
    has h' (VRef 2) "a.n.m" = Ret true.
Proof.
  apply (set_then_get nested_store (VRef 2) "a.n.m" (VStr "v") 3);
    [reflexivity|by repeat constructor].
Defined.

(** In that run [set] returns: the path goes through a record that is
    there and one that [set] creates. *)
Lemma set_creates_record :
  set nested_store (VRef 2) "a.n.m" (VStr "v")
  = Ret [ ORecord [("c", VStr "value")];
          ORecord [("b", VRef 0); ("n", VRef 3)];
          ORecord [("a", VRef 1); ("x", VNull)];
          ORecord [("m", VStr "v")] ].
Proof. reflexivity. Qed.

End RoundTripExamples.

Section UnsetFacts.

Import ObjectUtils ObjectPaths.
Implicit Types (h : heap) (v x obj current cur : value) (o : object).
Implicit Types (keys : list string) (key k lastKey : string) (l p : nat).
Implicit Types (props : list (string * value)).

Lemma props_get_delete props key k :
  props_get (props_delete props key) k
  = if String.eqb key k then None else props_get props k.
Proof.
  induction props as [|[k' y] rest IH]; simpl.
  - by destruct (String.eqb key k).
  - destruct (String.eqb_spec k' key) as [->|Hne]; simpl.
    + rewrite IH. by destruct (String.eqb_spec key k).
    + rewrite IH. destruct (String.eqb_spec k' k) as [->|Hne'];
        [|done].
      by destruct (String.eqb_spec key k).
Qed.

(** An [unset] that answers [true] has deleted the last key from a record
    that had it. *)
Lemma unset_last_true h lastKey cur h' :
  unset_last h lastKey cur = Ret (true, h') →
  ∃ p props,
    cur = VRef p ∧ h !! p = Some (ORecord props) ∧
    h' = <[p := ORecord (props_delete props lastKey)]> h.
Proof.
  unfold unset_last. destruct cur as [| |b|t|s|p]; simpl; try done.
  destruct (h !! p) as [o|] eqn:Hp; [|done].
  destruct o as [time|elems|elems|entries|props]; try done.
  - destruct (array_index lastKey) as [i|] eqn:Hi.
    + simpl. by destruct (i <? N.of_nat (length elems))%N eqn:Hlt.
    + by destruct (String.eqb lastKey "length") eqn:Hlen.
  - destruct (props_get props lastKey) as [y|].
    + simpl. intros [= <-]. by eexists _, _.
    + by destruct (inherited lastKey).
Qed.

Lemma unset_loop_true h keys cur h' lastKey :
  unset_loop h keys cur = Ret (true, h') →
  last keys = Some lastKey →
  ∃ p props,
    h !! p = Some (ORecord props) ∧
    h' = <[p := ORecord (props_delete props lastKey)]> h.
Proof.
  revert cur. induction keys as [|k keys IH]; intros cur; [done|].
  destruct keys as [|k2 rest].
  - simpl. intros (p & props & -> & Hp & ->)%unset_last_true [= <-].
    by eexists _, _.
  - rewrite last_cons_cons. cbn [unset_loop].
    destruct (is_null cur || is_undefined cur); [done|].
    destruct (js_in h k cur) as [[]| | |]; simpl; try done.
    destruct (js_get h cur k) as [next| | |]; simpl; try done.
    apply IH.
Qed.

Lemma unset_loop_false h keys cur h' :
  unset_loop h keys cur = Ret (false, h') → h' = h.
Proof.
  assert (∀ lastKey, unset_last h lastKey cur = Ret (false, h') → h' = h)
    as Hlast.
  { intros lastKey. unfold unset_last.
    destruct (js_in h lastKey cur) as [[]| | |]; simpl; try done.
    - by destruct (js_delete h cur lastKey).
    - by intros [= <-]. }
  revert cur Hlast. induction keys as [|k keys IH]; intros cur Hlast;
    [apply Hlast|].
  destruct keys as [|k2 rest]; [apply Hlast|].
  cbn [unset_loop].
  destruct (is_null cur || is_undefined cur); [by intros [= <-]|].
  destruct (js_in h k cur) as [[]| | |]; simpl; try done;
    [|by intros [= <-]].
  destruct (js_get h cur k) as [next| | |]; simpl; try done.
  apply IH. intros lastKey. unfold unset_last.
  destruct (js_in h lastKey next) as [[]| | |]; simpl; try done.
  - by destruct (js_delete h next lastKey).
  - by intros [= <-].
Qed.

Lemma has_loop_after_unset h keys cur h' lastKey :
  unset_loop h keys cur = Ret (true, h') →
  last keys = Some lastKey →
  inherited lastKey = false →
  has_loop h' keys cur = Ret false.
Proof.
  intros Hunset Hlast Hown.
  destruct (unset_loop_true _ _ _ _ _ Hunset Hlast) as (p & props & Hp & Hh').
  assert (p < length h)%nat as Hplt by (by eapply lookup_lt_Some).
  assert (h' !! p = Some (ORecord (props_delete props lastKey))) as Hp'.
  { rewrite Hh'. by apply list_lookup_insert_eq. }
  assert (∀ l, l ≠ p → h' !! l = h !! l) as Hother.
  { intros l Hl. rewrite Hh'. by apply list_lookup_insert_ne. }
  assert (js_in h' lastKey (VRef p) = Ret false) as Hgone.
  { simpl. rewrite Hp', props_get_delete, String.eqb_refl. by rewrite Hown. }
  clear Hh'. revert cur Hunset.
  induction keys as [|k keys IH]; intros cur Hunset; [done|].
  destruct keys as [|k2 rest].
  - simpl in Hlast. injection Hlast as ->. simpl in Hunset.
    apply unset_last_true in Hunset as (p' & props' & -> & Hp'' & Hh').
    cbn [has_loop is_null is_undefined orb]. simpl.
    rewrite Hh', list_lookup_insert_eq by (by eapply lookup_lt_Some).
    rewrite props_get_delete, String.eqb_refl. by rewrite Hown.
  - rewrite last_cons_cons in Hlast. cbn [unset_loop] in Hunset.
    cbn [has_loop].
    destruct (is_null cur || is_undefined cur); [done|].
    destruct (js_in h k cur) as [[]| | |] eqn:Hin; simpl in Hunset; try done.
    destruct (js_get h cur k) as [next| | |] eqn:Hget; simpl in Hunset;
      try done.
    destruct cur as [| |b|t|s|l]; try done.
    destruct (decide (l = p)) as [->|Hne].
    + destruct (String.eqb_spec lastKey k) as [<-|Hk].
      * by rewrite Hgone.
      * assert (js_in h' k (VRef p) = Ret true ∧
                js_get h' (VRef p) k = Ret next) as [-> ->].
        { simpl in Hin, Hget |- *. rewrite Hp in Hin, Hget.
          rewrite Hp', props_get_delete.
          destruct (String.eqb_spec lastKey k); done. }
        simpl. by apply IH.
    + rewrite (js_in_same h h'), (js_get_same h h'), Hin, Hget
        by (by apply Hother).
      simpl. by apply IH.
Qed.

Lemma js_in_get h key cur :
  js_in h key cur = Ret true → ∃ x, js_get h cur key = Ret x.
Proof.
  destruct cur as [| |b|t|s|l]; simpl; try done.
  repeat case_match; try done; by eexists.
Qed.

Lemma js_in_object h key cur (present : bool) :
  js_in h key cur = Ret present → is_null cur || is_undefined cur = false.
Proof. by destruct cur. Qed.

(** [unset] answers what [has] answers on the store it is given. *)
Lemma unset_loop_has h keys cur (changed : bool) h' :
  keys ≠ [] →
  unset_loop h keys cur = Ret (changed, h') →
  has_loop h keys cur = Ret changed.
Proof.
  revert cur. induction keys as [|k keys IH]; intros cur Hne; [done|].
  destruct keys as [|k2 rest].
  - cbn [unset_loop has_loop]. unfold unset_last.
    destruct (js_in h k cur) as [present| | |] eqn:Hin; try done.
    rewrite (js_in_object _ _ _ _ Hin). simpl. destruct present; simpl.
    + destruct (js_in_get _ _ _ Hin) as [x ->]. simpl.
      destruct (js_delete h cur k); simpl; try done. by intros [= <- _].
    + by intros [= <- _].
  - cbn [unset_loop has_loop].
    destruct (is_null cur || is_undefined cur); [by intros [= <- _]|].
    destruct (js_in h k cur) as [[]| | |]; simpl; try done;
      [|by intros [= <- _]].
    destruct (js_get h cur k) as [next| | |]; simpl; try done.
    by apply IH.
Qed.

#[local] Arguments js_in : simpl never.
#[local] Arguments js_get : simpl never.

Lemma unset_loop_returns keys :
  ∀ h cur e,
    keys ≠ [] →
    Forall (fun key => inherited key = false) keys →
    records e h cur = true →
    unset_loop h keys cur = Throw TypeError ∨
    ∃ (changed : bool) h', unset_loop h keys cur = Ret (changed, h').
Proof.
  induction keys as [|k keys IH]; intros h cur e Hne Hkeys Hrec; [done|].
  apply Forall_cons in Hkeys as [Hk Hkeys].
  destruct (records_access e h cur k Hrec Hk)
    as [[Hin Hprim]|(l & props & e' & -> & -> & Hl & Hall & Hin & Hget)].
  - destruct keys as [|k2 rest].
    + left. cbn [unset_loop]. unfold unset_last. by rewrite Hin.
    + cbn [unset_loop].
      destruct (is_null cur || is_undefined cur); [right; by eexists _, _|].
      left. by rewrite Hin.
  - destruct keys as [|k2 rest].
    + right. cbn [unset_loop]. unfold unset_last. rewrite Hin. simpl.
      case_bool_decide; [|by eexists _, _].
      unfold js_delete. rewrite Hl. simpl. by eexists _, _.
    + cbn [unset_loop]. simpl (is_null _ || _). cbv iota. rewrite Hin. simpl.
      case_bool_decide as Hx; simpl; [|right; by eexists _, _].
      rewrite Hget. simpl. destruct Hx as [x Hx]. rewrite Hx. simpl.
      apply (IH h x e'); [done|done|].
      apply Hall. by eapply props_get_value.
Qed.

(** X21: on a value made of plain records, without cycle (no array, Date,
    Set or Map), and for a path no segment of which is a name that records
    inherit from [Object.prototype], [unset] raises a TypeError or returns;
    when it returns it answers what [has] answers for the path on the
    store it is given, when it answers false the store is unchanged, and
    afterwards [has] answers false for the path. (On an array the name of a
    method, as [map], is found on the prototype by [in] before and after
    the [delete].) *)
Theorem unset_then_has h obj (path : string) (depth : nat) :
  records depth h obj = true →
  Forall (fun key => inherited key = false) (split_dots path) →
  unset h obj path = Throw TypeError ∨
  ∃ (changed : bool) h',
    unset h obj path = Ret (changed, h') ∧
    has h obj path = Ret changed ∧
    (changed = false → h' = h) ∧
    has h' obj path = Ret false.
Proof.
  intros Hrec Hown.
  destruct (unset_loop_returns (split_dots path) h obj depth
              (split_dots_nonempty path) Hown Hrec)
    as [Hthrow|(changed & h' & Hunset)]; [by left|right].
  exists changed, h'. split_and!.
  - done.
  - by apply (unset_loop_has h _ obj changed h' (split_dots_nonempty path)).
  - intros ->. by eapply unset_loop_false.
  - destruct (last (split_dots path)) as [lastKey|] eqn:Hlast.
    2: { apply last_None in Hlast. by apply split_dots_nonempty in Hlast. }
    assert (inherited lastKey = false) as Hkey.
    { rewrite last_lookup in Hlast.
      by apply (Forall_lookup_1 _ _ _ _ Hown Hlast). }
    destruct changed.
    + by eapply has_loop_after_unset.
    + apply unset_loop_false in Hunset as Hh. subst h'.
      by apply (unset_loop_has h _ obj false h (split_dots_nonempty path)).
Qed.

End UnsetFacts.

Section UnsetExamples.

Import ObjectUtils ObjectPaths Samples.
Local Open Scope string_scope.

(** X21 at work on the object of the repository's test of [has]. *)
Lemma unset_then_has_witness :
  unset nested_store (VRef 2) "a.b.c" = Throw TypeError ∨
  ∃ (changed : bool) h',
    unset nested_store (VRef 2) "a.b.c" = Ret (changed, h') ∧
    has nested_store (VRef 2) "a.b.c" = Ret changed ∧
    (changed = false → h' = nested_store) ∧
    has h' (VRef 2) "a.b.c" = Ret false.
Proof.
  apply (unset_then_has nested_store (VRef 2) "a.b.c" 3);
    [reflexivity|by repeat constructor].
Defined.

(** In that run [unset] returns true and the innermost record is left
    empty. *)
Lemma unset_deletes_property :
  unset nested_store (VRef 2) "a.b.c"
  = Ret (true, [ ORecord [];
                 ORecord [("b", VRef 0)];
                 ORecord [("a", VRef 1); ("x", VNull)] ]).
Proof. reflexivity. Qed.

End UnsetExamples.

Section EscapeFacts.

Implicit Types (str rest : list Z) (c : Z).

Lemma htmlUnescapes_units :
  Strings.htmlUnescapes
  = [ ([38; 97; 109; 112; 59], 38); ([38; 108; 116; 59], 60);
      ([38; 103; 116; 59], 62); ([38; 113; 117; 111; 116; 59], 34);
      ([38; 35; 51; 57; 59], 39) ].
Proof. reflexivity. Qed.

Lemma htmlEscapes_units c :
  Strings.htmlEscapes c
  = if c =? 38 then Some [38; 97; 109; 112; 59]
    else if c =? 60 then Some [38; 108; 116; 59]
    else if c =? 62 then Some [38; 103; 116; 59]
    else if c =? 34 then Some [38; 113; 117; 111; 116; 59]
    else if c =? 39 then Some [38; 35; 51; 57; 59]
    else None.
Proof. reflexivity. Qed.

Lemma match_entity_other c rest :
  c ≠ 38 → Strings.match_entity (c :: rest) = None.
Proof.
  intros Hc. unfold Strings.match_entity. rewrite htmlUnescapes_units.
  cbn -[Z.eqb]. destruct (Z.eqb_spec 38 c); [lia|]. done.
Qed.

Lemma unescapeHtml_scan_entity entity char rest :
  (entity, char) ∈ Strings.htmlUnescapes →
  Strings.unescapeHtml_scan (entity ++ rest) 0
  = char :: Strings.unescapeHtml_scan rest 0.
Proof.
  rewrite htmlUnescapes_units. intros Hin.
  repeat (apply elem_of_cons in Hin as [[= -> ->]|Hin]; [reflexivity|]).
  by apply elem_of_nil in Hin.
Qed.

(** X22: [unescapeHtml] undoes [escapeHtml] on every string, also on one
    that holds text that reads as an entity: the ampersand of that text is
    escaped, so no entity of the escaped string is one of the original. *)
Theorem unescapeHtml_escapeHtml str :
  Strings.unescapeHtml (Strings.escapeHtml str) = str.
Proof.
  unfold Strings.unescapeHtml. induction str as [|c rest IH]; [done|].
  cbn [Strings.escapeHtml]. rewrite htmlEscapes_units.
  assert (∀ entity, (entity, c) ∈ Strings.htmlUnescapes →
            Strings.unescapeHtml_scan (entity ++ Strings.escapeHtml rest) 0
            = c :: rest) as Hentity.
  { intros entity Hin.
    by rewrite (unescapeHtml_scan_entity entity c), IH. }
  rewrite htmlUnescapes_units in Hentity.
  destruct (Z.eqb_spec c 38) as [->|H38];
    [apply Hentity; do 0 right; by left|].
  destruct (Z.eqb_spec c 60) as [->|H60];
    [apply Hentity; do 1 right; by left|].
  destruct (Z.eqb_spec c 62) as [->|H62];
    [apply Hentity; do 2 right; by left|].
  destruct (Z.eqb_spec c 34) as [->|H34];
    [apply Hentity; do 3 right; by left|].
  destruct (Z.eqb_spec c 39) as [->|H39];
    [apply Hentity; do 4 right; by left|].
  cbn [Strings.unescapeHtml_scan]. rewrite match_entity_other by done.
  by rewrite IH.
Qed.

End EscapeFacts.

Section TruncateFacts.

Implicit Types (str suffix : list Z).

(** X23: for an integer [maxLength], [truncate] raises its error when
    [maxLength] is negative; otherwise it returns a string of
    [min(str.length, maxLength)] code units: the string itself when it
    fits, and when the suffix is shorter than [maxLength], the start of
    the string followed by the suffix. *)
Theorem truncate_fits str (maxLength : Z) suffix :
  (maxLength < 0 →
   Strings.truncate str maxLength suffix
     = Arrays.ThrowError "maxLength cannot be negative") ∧
  (0 ≤ maxLength →
   ∃ r,
     Strings.truncate str maxLength suffix = Arrays.Return r ∧
     Z.of_nat (length r) = Z.min (Z.of_nat (length str)) maxLength ∧
     (Z.of_nat (length str) ≤ maxLength → r = str) ∧
     (Z.of_nat (length suffix) < maxLength < Z.of_nat (length str) →
      r = take (Z.to_nat maxLength - length suffix) str ++ suffix)).
Proof.
  unfold Strings.truncate, Strings.slice. split; intros Hmax.
  - by destruct (Z.ltb_spec maxLength 0); [|lia].
  - destruct (Z.ltb_spec maxLength 0); [lia|].
    destruct (Z.leb_spec (Z.of_nat (length str)) maxLength).
    { eexists; split_and!; [done|lia|done|lia]. }
    destruct (Z.leb_spec maxLength (Z.of_nat (length suffix))).
    { eexists; split_and!; [done| |lia|lia].
      rewrite slice_prefix, length_take by lia. lia. }
    eexists; split_and!; [done| |lia|].
    + rewrite slice_prefix, length_app, length_take by lia. lia.
    + intros _. rewrite slice_prefix by lia. do 2 f_equal. lia.
Qed.

End TruncateFacts.

Section HashFacts.

Implicit Types (str : list Z) (x y : Z).

Lemma to_int32_range x : - 2 ^ 31 ≤ Strings.to_int32 x < 2 ^ 31.
Proof.
  unfold Strings.to_int32.
  pose proof (Z.mod_pos_bound (x + 2 ^ 31) (2 ^ 32) ltac:(lia)). lia.
Qed.

Lemma to_int32_small x : - 2 ^ 31 ≤ x < 2 ^ 31 → Strings.to_int32 x = x.
Proof. intros Hx. unfold Strings.to_int32. rewrite Z.mod_small; lia. Qed.

Lemma to_int32_congruent x y :
  (x - y) mod 2 ^ 32 = 0 → Strings.to_int32 x = Strings.to_int32 y.
Proof.
  intros Hxy. unfold Strings.to_int32. f_equal.
  apply Z.mod_divide in Hxy as [k Hk]; [|lia].
  replace (x + 2 ^ 31) with (y + 2 ^ 31 + k * 2 ^ 32) by lia.
  apply Z.mod_add. lia.
Qed.

Lemma to_int32_difference x : (Strings.to_int32 x - x) mod 2 ^ 32 = 0.
Proof.
  unfold Strings.to_int32.
  pose proof (Z.div_mod (x + 2 ^ 31) (2 ^ 32) ltac:(lia)) as Hdm.
  replace ((x + 2 ^ 31) mod 2 ^ 32 - 2 ^ 31 - x)
    with (- ((x + 2 ^ 31) / 2 ^ 32) * 2 ^ 32) by lia.
  apply Z.mod_mul. lia.
Qed.

Lemma and_self_to_int32 x : Strings.and_self x = Strings.to_int32 x.
Proof. unfold Strings.and_self. apply Z.land_diag. Qed.

Lemma hash_step x c :
  Strings.and_self (Strings.shift_left (Strings.to_int32 x) 5
                    - Strings.to_int32 x + c)
  = Strings.to_int32 (31 * x + c).
Proof.
  rewrite and_self_to_int32. apply to_int32_congruent.
  unfold Strings.shift_left.
  pose proof (to_int32_difference x) as H1.
  pose proof (to_int32_difference (Strings.to_int32 x)) as H2.
  pose proof (to_int32_difference
                (Strings.to_int32 (Strings.to_int32 x) * 2 ^ 5)) as H3.
  apply Z.mod_divide in H1 as [k1 H1]; [|lia].
  apply Z.mod_divide in H2 as [k2 H2]; [|lia].
  apply Z.mod_divide in H3 as [k3 H3]; [|lia].
  apply Z.mod_divide; [lia|].
  exists (k3 + 32 * k2 + 31 * k1). lia.
Qed.

Lemma hashCode_fold str x :
  fold_left
    (fun hash char =>
       Strings.and_self (Strings.shift_left hash 5 - hash + char))
    str (Strings.to_int32 x)
  = Strings.to_int32 (fold_left (fun acc char => 31 * acc + char) str x).
Proof.
  revert x. induction str as [|c rest IH]; intros x; simpl; [done|].
  by rewrite hash_step, IH.
Qed.

(** X24: [hashCode], which wraps to 32 bits at every step, returns what
    the polynomial in 31 over the code units of the string, computed over
    the integers, comes to when it is brought into the signed 32-bit range
    once at the end; so the result is in that range. *)
Theorem hashCode_polynomial str :
  Strings.hashCode str
  = Strings.to_int32 (fold_left (fun acc char => 31 * acc + char) str 0) ∧
  - 2 ^ 31 ≤ Strings.hashCode str < 2 ^ 31.
Proof.
  assert (Strings.hashCode str
          = Strings.to_int32
              (fold_left (fun acc char => 31 * acc + char) str 0)) as ->.
  { unfold Strings.hashCode. rewrite <- hashCode_fold. done. }
  split; [done|apply to_int32_range].
Qed.

End HashFacts.

Section StripFacts.

Implicit Types (str chars : list Z) (c : Z) (charSet : list (list Z)).

Lemma strip_start_spec charSet str (remaining start : nat) :
  (start + remaining ≤ length str)%nat →
  let s := Strings.strip_start charSet str start remaining in
  (start ≤ s ≤ start + remaining)%nat ∧
  (∀ (j : nat) c, (start ≤ j < s)%nat → str !! j = Some c →
                  [c] ∈ charSet) ∧
  (∀ c, (s < start + remaining)%nat → str !! s = Some c → [c] ∉ charSet).
Proof.
  revert start. induction remaining as [|remaining IH]; intros start Hlen;
    simpl.
  - split_and!; [lia|lia|intros; lia|intros; lia].
  - destruct (lookup_lt_is_Some_2 str start) as [c Hc]; [lia|]. rewrite Hc.
    unfold Strings.has_unit. case_bool_decide as Hin.
    + destruct (IH (S start)) as ((? & ?) & Hall & Hstop); [lia|].
      split_and!; [lia|lia| |].
      * intros j c' Hj Hc'. destruct (decide (j = start)) as [->|].
        -- congruence.
        -- apply (Hall j); [lia|done].
      * intros c' Hlt. apply Hstop. lia.
    + split_and!; [lia|lia|intros; lia|]. intros c' _ Hc'. congruence.
Qed.

Lemma strip_end_spec charSet str (start end_ : nat) :
  (start ≤ end_ ≤ length str)%nat →
  let e := Strings.strip_end charSet str start end_ in
  (start ≤ e ≤ end_)%nat ∧
  (∀ (j : nat) c, (e ≤ j < end_)%nat → str !! j = Some c → [c] ∈ charSet) ∧
  (∀ c, (start < e)%nat → str !! (e - 1)%nat = Some c → [c] ∉ charSet).
Proof.
  induction end_ as [|before IH]; intros Hlen.
  - simpl. split_and!; [lia|lia|intros; lia|intros; lia].
  - cbn [Strings.strip_end].
    destruct (Nat.ltb_spec start (S before)) as [Hlt|Hge].
    + destruct (lookup_lt_is_Some_2 str before) as [c Hc]; [lia|].
      rewrite Hc. unfold Strings.has_unit. case_bool_decide as Hin.
      * destruct IH as ((? & ?) & Hall & Hstop); [lia|].
        split_and!; [lia|lia| |done].
        intros j c' Hj Hc'. destruct (decide (j = before)) as [->|].
        -- congruence.
        -- apply (Hall j); [lia|done].
      * split_and!; [lia|lia|intros; lia|].
        intros c' _. simpl. rewrite Nat.sub_0_r. congruence.
    + split_and!; [lia|lia|intros; lia|intros; lia].
Qed.

(** X25: [strip(str, chars)] is [str] without a stretch at the start and
    a stretch at the end, both made of code units that are characters of
    [chars]; what is left neither starts nor ends with such a code unit. *)
Theorem strip_trims str chars :
  ∃ before after,
    str = before ++ Strings.strip str chars ++ after ∧
    Forall (fun c => [c] ∈ Strings.characters chars) before ∧
    Forall (fun c => [c] ∈ Strings.characters chars) after ∧
    (∀ c, head (Strings.strip str chars) = Some c →
          [c] ∉ Strings.characters chars) ∧
    (∀ c, last (Strings.strip str chars) = Some c →
          [c] ∉ Strings.characters chars).
Proof.
  unfold Strings.strip, Strings.slice.
  set (charSet := Strings.characters chars).
  destruct (strip_start_spec charSet str (length str) 0)
    as ((_ & Hs) & Hbefore & Hfirst); [lia|].
  set (s := Strings.strip_start charSet str 0 (length str)) in *.
  destruct (strip_end_spec charSet str s (length str))
    as ((He & He') & Hafter & Hlast); [lia|].
  set (e := Strings.strip_end charSet str s (length str)) in *.
  rewrite slice_nonneg by lia.
  replace (Z.to_nat (Z.of_nat e - Z.of_nat s)) with (e - s)%nat by lia.
  rewrite Nat2Z.id.
  exists (take s str), (drop e str). split_and!.
  - rewrite <- (take_drop s str) at 1. f_equal.
    rewrite <- (take_drop (e - s) (drop s str)) at 1. f_equal.
    rewrite drop_drop. f_equal. lia.
  - apply Forall_lookup. intros j c Hc.
    apply lookup_take_Some in Hc as [Hc Hj]. by apply (Hbefore j); [lia|].
  - apply Forall_lookup. intros j c Hc. rewrite lookup_drop in Hc.
    apply (Hafter (e + j)%nat); [|done].
    apply lookup_lt_Some in Hc. lia.
  - intros c Hc. rewrite head_lookup in Hc.
    apply lookup_take_Some in Hc as [Hc Hj]. rewrite lookup_drop in Hc.
    rewrite Nat.add_0_r in Hc. apply Hfirst; [|done]. simpl. lia.
  - intros c Hc. rewrite last_lookup in Hc.
    rewrite length_take, length_drop in Hc.
    apply lookup_take_Some in Hc as [Hc Hj]. rewrite lookup_drop in Hc.
    apply Hlast; [lia|]. rewrite <- Hc. f_equal. lia.
Qed.

End StripFacts.

Section CommonPrefixFacts.

Implicit Types (str first prefix q : list Z) (strings : list (list Z)).

Lemma min_length_le strings :
  Forall (fun s => (Strings.min_length strings ≤ length s)%nat) strings.
Proof.
  destruct strings as [|first rest]; [done|]. simpl.
  assert (∀ (m : nat),
            (fold_left (fun m s => Nat.min m (length s)) rest m ≤ m)%nat ∧
            Forall (fun s =>
                      (fold_left (fun m s => Nat.min m (length s)) rest m
                       ≤ length s)%nat) rest) as Hfold.
  { induction rest as [|s rest IH]; intros m; simpl; [done|].
    destruct (IH (Nat.min m (length s))) as [Hle Hall].
    split; [lia|]. constructor; [lia|done]. }
  destruct (Hfold (length first)) as [Hle Hall]. by constructor.
Qed.

Lemma fold_min_attained (l : list (list Z)) (m : nat) :
  fold_left (fun m s => Nat.min m (length s)) l m = m ∨
  ∃ s, s ∈ l ∧ length s = fold_left (fun m s => Nat.min m (length s)) l m.
Proof.
  revert m. induction l as [|s l IH]; intros m; simpl; [by left|].
  destruct (IH (Nat.min m (length s))) as [->|(s' & Hs' & <-)].
  - destruct (Nat.min_spec m (length s)) as [[_ ->]|[_ ->]]; [by left|].
    right. exists s. split; [by left|done].
  - right. exists s'. split; [by right|done].
Qed.

Lemma min_length_attained first rest :
  ∃ s, s ∈ first :: rest ∧ length s = Strings.min_length (first :: rest).
Proof.
  simpl. destruct (fold_min_attained rest (length first))
    as [->|(s & Hs & <-)].
  - exists first. split; [by left|done].
  - exists s. split; [by right|done].
Qed.

Lemma forallb_false_elem {A : Type} (f : A → bool) (l : list A) :
  forallb f l = false → ∃ x, x ∈ l ∧ f x = false.
Proof.
  induction l as [|a l IH]; simpl; [done|].
  destruct (f a) eqn:Ha; simpl.
  - intros (x & Hx & Hfx)%IH. exists x. split; [by right|done].
  - intros _. exists a. split; [by left|done].
Qed.

Lemma prefix_loop_spec strings first (remaining i : nat) :
  first ∈ strings →
  Forall (fun s => (i + remaining ≤ length s)%nat) strings →
  Forall (fun s => take i s = take i first) strings →
  let p := Strings.prefix_loop strings first i remaining (take i first) in
  Forall (fun s => p `prefix_of` s) strings ∧
  (length p = (i + remaining)%nat ∨
   ∃ s, s ∈ strings ∧ s !! length p ≠ first !! length p).
Proof.
  intros Hfirst. revert i. induction remaining as [|remaining IH];
    intros i Hlen Hsame; simpl.
  - split.
    + eapply Forall_impl; [exact Hsame|]. simpl. intros s <-.
      apply prefix_take.
    + left. rewrite length_take.
      rewrite Forall_forall in Hlen. specialize (Hlen first Hfirst). lia.
  - assert (i < length first)%nat as Hi.
    { rewrite Forall_forall in Hlen. specialize (Hlen first Hfirst). lia. }
    destruct (lookup_lt_is_Some_2 first i Hi) as [c Hc]. rewrite Hc.
    destruct (forallb _ strings) eqn:Hall.
    + simpl. rewrite <- (take_S_r first i c Hc).
      destruct (IH (S i)) as [Hpre Hmax].
      * eapply Forall_impl; [exact Hlen|]. simpl. intros; lia.
      * rewrite Forall_forall in *. intros s Hs.
        rewrite forallb_forall in Hall.
        specialize (Hall s (proj1 (list_elem_of_In _ _) Hs)).
        apply bool_decide_eq_true in Hall.
        rewrite (take_S_r s i c Hall), (take_S_r first i c Hc).
        by rewrite (Hsame s Hs).
      * split; [done|]. destruct Hmax as [Hmax|Hmax]; [left; lia|by right].
    + split.
      * eapply Forall_impl; [exact Hsame|]. simpl. intros s <-.
        apply prefix_take.
      * right. rewrite length_take, Nat.min_l by lia.
        apply forallb_false_elem in Hall as (s & Hs & Hdiff).
        exists s. split; [done|]. rewrite Hc.
        by apply bool_decide_eq_false in Hdiff.
Qed.

(** X26: for one string or more, [longestCommonPrefix] returns a prefix
    of every string, and every string that is a prefix of them all is a
    prefix of the one returned. *)
Theorem longestCommonPrefix_greatest first rest :
  let p := Strings.longestCommonPrefix (first :: rest) in
  Forall (fun s => p `prefix_of` s) (first :: rest) ∧
  ∀ q, Forall (fun s => q `prefix_of` s) (first :: rest) → q `prefix_of` p.
Proof.
  cbv zeta. destruct rest as [|second rest].
  { simpl. split; [by constructor|]. intros q Hq. by inversion Hq. }
  set (strings := first :: second :: rest).
  cbn [Strings.longestCommonPrefix]. fold strings.
  destruct (prefix_loop_spec strings first (Strings.min_length strings) 0)
    as [Hpre Hmax].
  - by left.
  - apply min_length_le.
  - apply Forall_forall. intros s _. by rewrite !take_0.
  - rewrite take_0 in *. split; [exact Hpre|].
    set (lcp := Strings.prefix_loop strings first 0
                  (Strings.min_length strings) []) in *.
    intros q Hq. rewrite Forall_forall in Hq, Hpre.
    assert (first ∈ strings) as Hfirst by (by left).
    assert (∀ t : list Z, t `prefix_of` first → t = take (length t) first)
      as Htake.
    { intros t [k ->]. by rewrite take_app_length. }
    assert (q = take (length q) first) as Hqf by (by apply Htake, Hq).
    assert (lcp = take (length lcp) first) as Hpf by (by apply Htake, Hpre).
    assert (length q ≤ length lcp)%nat as Hle.
    { destruct Hmax as [Hlen|(s & Hs & Hdiff)].
      - pose proof (min_length_le strings) as Hmin.
        rewrite Forall_forall in Hmin.
        destruct (min_length_attained first (second :: rest))
          as (s & Hs & Hlens).
        destruct (Hq s Hs) as [k Hk]. rewrite Hk, length_app in Hlens.
        change (first :: second :: rest) with strings in Hlens. lia.
      - destruct (decide (length q ≤ length lcp)%nat) as [|Hgt]; [done|].
        exfalso. apply Hdiff.
        destruct (Hq s Hs) as [k Hk]. destruct (Hq first Hfirst) as [k' Hk'].
        rewrite Hk, Hk', !lookup_app_l by lia. done. }
    assert (take (length q) first `prefix_of` take (length lcp) first)
      as Hfin.
    { rewrite <- (Nat.min_l _ _ Hle), <- take_take. apply prefix_take. }
    by rewrite <- Hqf, <- Hpf in Hfin.
Qed.

End CommonPrefixFacts.

Section LuhnErrorFacts.

Import StringUtils LuhnSpec.
Implicit Types (s : string) (c : ascii) (d : Z).

Lemma digits_of_app s1 s2 :
  digits_of (String.append s1 s2) = digits_of s1 ++ digits_of s2.
Proof.
  induction s1 as [|c s1 IH]; simpl; [done|].
  destruct (is_digit c); simpl; by rewrite IH.
Qed.

Lemma digit_value c :
  is_digit c = true → 0 ≤ Z.of_N (N_of_ascii c) - 48 ≤ 9.
Proof.
  unfold is_digit. intros [H1 H2]%andb_true_iff.
  apply N.leb_le in H1, H2. lia.
Qed.

Lemma luhn_sum_app (front back : list Z) (second : bool) :
  luhn_sum (front ++ back) second
  = luhn_sum front second
    + luhn_sum back (xorb second (Nat.odd (length front))).
Proof.
  revert second. induction front as [|d front IH]; intros second.
  - simpl. by rewrite xorb_false_r.
  - cbn [app luhn_sum length]. rewrite IH, Nat.odd_succ, <- Nat.negb_odd.
    replace (xorb (negb second) (Nat.odd (length front)))
      with (xorb second (negb (Nat.odd (length front))))
      by (by destruct second, (Nat.odd (length front))).
    lia.
Qed.

(** What one digit adds to the sum tells the digit. *)
Lemma luhn_term_injective (second : bool) d d' :
  0 ≤ d ≤ 9 → 0 ≤ d' ≤ 9 →
  ((if second then doubled d else d)
   - (if second then doubled d' else d')) mod 10 = 0 →
  d = d'.
Proof.
  intros Hd Hd' Hmod. apply Z.mod_divide in Hmod as [k Hk]; [|lia].
  unfold doubled in Hk.
  destruct second; [|lia].
  destruct (Z.gtb_spec (2 * d) 9), (Z.gtb_spec (2 * d') 9); lia.
Qed.

Lemma luhn_valid_changed s1 s2 c c' :
  is_digit c = true → is_digit c' = true → c ≠ c' →
  luhn_valid (String.append s1 (String c s2)) = true →
  luhn_valid (String.append s1 (String c' s2)) = false.
Proof.
  intros Hc Hc' Hne. unfold luhn_valid.
  rewrite !digits_of_app. cbn [digits_of]. rewrite Hc, Hc'.
  rewrite !length_app. cbn [length].
  match goal with
  | |- (?g && _)%bool = true → _ => destruct g; [|done]
  end.
  simpl andb.
  rewrite !rev_app_distr. cbn [rev]. rewrite <- !app_assoc.
  rewrite !(luhn_sum_app (rev (digits_of s2))). cbn [app luhn_sum].
  set (second := xorb false (Nat.odd (length (rev (digits_of s2))))).
  set (front := luhn_sum (rev (digits_of s2)) false).
  set (back := luhn_sum (rev (digits_of s1)) (negb second)).
  set (d := Z.of_N (N_of_ascii c) - 48).
  set (d' := Z.of_N (N_of_ascii c') - 48).
  intros Hvalid%Z.eqb_eq. apply Z.eqb_neq. intros Hvalid'.
  assert (d = d') as Hdd.
  { apply (luhn_term_injective second); [by apply digit_value..|].
    apply Z.mod_divide in Hvalid as [k Hk]; [|lia].
    apply Z.mod_divide in Hvalid' as [k' Hk']; [|lia].
    apply Z.mod_divide; [lia|]. exists (k - k'). lia. }
  apply Hne. unfold d, d' in Hdd.
  rewrite <- (ascii_N_embedding c), <- (ascii_N_embedding c').
  f_equal. lia.
Qed.

(** X27: a number that [isValidCreditCard] accepts is rejected once one
    of its digits is changed into another digit, whatever else the string
    holds; [isCreditCard] of validationUtils rejects it as well. *)
Theorem luhn_detects_changed_digit s1 s2 c c' :
  is_digit c = true → is_digit c' = true → c ≠ c' →
  isValidCreditCard (String.append s1 (String c s2)) = true →
  isValidCreditCard (String.append s1 (String c' s2)) = false ∧
  ValidationUtils.isCreditCard (VStr (String.append s1 (String c' s2)))
    = false.
Proof.
  intros Hc Hc' Hne Hvalid. rewrite isValidCreditCard_spec in Hvalid.
  assert (isValidCreditCard (String.append s1 (String c' s2)) = false)
    as Hchanged.
  { rewrite isValidCreditCard_spec. by apply (luhn_valid_changed s1 s2 c c'). }
  split; [done|]. rewrite <- Hchanged. reflexivity.
Qed.

End LuhnErrorFacts.

Section LuhnErrorExamples.

Import StringUtils.
Local Open Scope string_scope.

(** X27 at work: the check digit of the test number changed from 6
    to 7. *)
Lemma luhn_detects_changed_digit_witness :
  isValidCreditCard (String.append "453201511283036" (String "7" EmptyString)) = false ∧
  ValidationUtils.isCreditCard
    (VStr (String.append "453201511283036" (String "7" EmptyString))) = false.
Proof.
  apply (luhn_detects_changed_digit "453201511283036" EmptyString "6" "7");
    [reflexivity|reflexivity|discriminate|reflexivity].
Defined.

End LuhnErrorExamples.

Section RecurrenceFacts.

Import Levenshtein.
Implicit Types (i j : nat).

Lemma distance_S_S (str1 str2 : list Z) j i :
  distance str1 str2 (S j) (S i)
  = Z.min
      (Z.min (distance str1 str2 (S j) i + 1) (distance str1 str2 j (S i) + 1))
      (distance str1 str2 j i
       + (if bool_decide (str1 !! i = str2 !! j) then 0 else 1)).
Proof. reflexivity. Qed.

Lemma distance_bounds (str1 str2 : list Z) j i :
  Z.abs (Z.of_nat i - Z.of_nat j) ≤ distance str1 str2 j i
    ≤ Z.max (Z.of_nat i) (Z.of_nat j).
Proof.
  revert i. induction j as [|j IHj]; intros i; [simpl; lia|].
  induction i as [|i IHi]; [simpl; lia|].
  rewrite distance_S_S.
  pose proof (IHj (S i)). pose proof (IHj i).
  destruct (bool_decide _); lia.
Qed.

Lemma distance_zero (str1 str2 : list Z) j i :
  (j ≤ length str2)%nat → (i ≤ length str1)%nat →
  distance str1 str2 j i = 0 ↔ take i str1 = take j str2.
Proof.
  revert i. induction j as [|j IHj]; intros i Hj Hi.
  - change (distance str1 str2 0 i) with (Z.of_nat i). rewrite take_0. split.
    + intros Hz. by assert (i = 0%nat) as -> by lia.
    + intros Ht. apply (f_equal length) in Ht.
      rewrite length_take in Ht. cbn [length] in Ht. lia.
  - destruct i as [|i].
    + change (distance str1 str2 (S j) 0) with (Z.of_nat (S j)).
      rewrite take_0. split; [lia|]. intros Ht. apply (f_equal length) in Ht.
      rewrite length_take in Ht. cbn [length] in Ht. lia.
    + rewrite distance_S_S.
      destruct (lookup_lt_is_Some_2 str1 i) as [a Ha]; [lia|].
      destruct (lookup_lt_is_Some_2 str2 j) as [b Hb]; [lia|].
      rewrite (take_S_r _ _ _ Ha), (take_S_r _ _ _ Hb), Ha, Hb.
      pose proof (distance_bounds str1 str2 (S j) i).
      pose proof (distance_bounds str1 str2 j (S i)).
      pose proof (distance_bounds str1 str2 j i).
      specialize (IHj i ltac:(lia) ltac:(lia)).
      case_bool_decide as Hab.
      * injection Hab as ->. split.
        -- intros Hz. f_equal. apply IHj. lia.
        -- intros [Ht _]%app_inj_tail. apply IHj in Ht. lia.
      * split; [lia|]. intros [_ ->]%app_inj_tail. done.
Qed.

Lemma distance_sym (str1 str2 : list Z) j i :
  distance str1 str2 j i = distance str2 str1 i j.
Proof.
  revert i. induction j as [|j IHj]; intros i; [by destruct i|].
  induction i as [|i IHi]; [done|].
  rewrite !distance_S_S, IHi, (IHj (S i)), (IHj i).
  rewrite (Z.min_comm (distance str2 str1 i (S j) + 1)).
  do 2 f_equal.
  rewrite (bool_decide_ext (str1 !! i = str2 !! j) (str2 !! j = str1 !! i));
    [done|split; congruence].
Qed.

End RecurrenceFacts.

Section TableFacts.

Import Levenshtein LevenshteinInvariants.
Variables (str1 str2 : list Z).

#[local] Abbreviation filled := (LevenshteinInvariants.filled str1 str2).
Implicit Types (M : list (list (option Z))) (i j : nat).
Implicit Types (P Q : nat → nat → Prop).

Lemma filled_weaken M P Q :
  filled M P →
  (∀ j i, (j ≤ length str2)%nat → (i ≤ length str1)%nat → Q j i → P j i) →
  filled M Q.
Proof.
  intros (Hrows & Hcols & Hcells) HQ. split_and!; [done|done|].
  intros j i Hj Hi Hq. apply Hcells; auto.
Qed.

Lemma filled_cell_set M P j i x :
  filled M P →
  (j ≤ length str2)%nat → (i ≤ length str1)%nat →
  x = distance str1 str2 j i →
  filled (cell_set M j i x) (fun j' i' => P j' i' ∨ (j' = j ∧ i' = i)).
Proof.
  intros (Hrows & Hcols & Hcells) Hj Hi ->. unfold cell_set.
  destruct (lookup_lt_is_Some_2 M j) as [row Hrow]; [lia|]. rewrite Hrow.
  assert (length row = (length str1 + 1)%nat) as Hlen.
  { rewrite Forall_lookup in Hcols. by apply (Hcols j). }
  split_and!.
  - by rewrite length_insert.
  - apply Forall_insert; [done|]. by rewrite length_insert.
  - intros j' i' Hj' Hi' HP. unfold cell.
    destruct (decide (j' = j)) as [->|Hne].
    + rewrite list_lookup_insert_eq by lia.
      destruct (decide (i' = i)) as [->|Hne'].
      * by rewrite list_lookup_insert_eq by lia.
      * rewrite list_lookup_insert_ne by done.
        destruct HP as [HP|[_ ->]]; [|done].
        rewrite <- (Hcells j i' Hj' Hi' HP). unfold cell. by rewrite Hrow.
    + rewrite list_lookup_insert_ne by done.
      destruct HP as [HP|[-> _]]; [|done].
      by rewrite <- (Hcells j' i' Hj' Hi' HP).
Qed.

Lemma filled_first_row M P (remaining i : nat) :
  filled M P → (i + remaining ≤ length str1 + 1)%nat →
  filled (first_row_loop M i remaining)
    (fun j' i' => P j' i' ∨ (j' = 0%nat ∧ (i ≤ i' < i + remaining)%nat)).
Proof.
  revert M P i. induction remaining as [|remaining IH]; intros M P i HM Hi;
    simpl.
  - eapply filled_weaken; [exact HM|]. intros j' i' _ _ [?|[_ ?]]; [done|lia].
  - eapply filled_weaken.
    + apply IH; [|lia]. apply filled_cell_set; [exact HM|lia|lia|done].
    + simpl. intros j' i' _ _ [?|[-> ?]]; [by left; left|].
      destruct (decide (i' = i)) as [->|]; [left; by right|right]. lia.
Qed.

Lemma filled_first_column M P (remaining j : nat) :
  filled M P → (j + remaining ≤ length str2 + 1)%nat →
  filled (first_column_loop M j remaining)
    (fun j' i' => P j' i' ∨ (i' = 0%nat ∧ (j ≤ j' < j + remaining)%nat)).
Proof.
  revert M P j. induction remaining as [|remaining IH]; intros M P j HM Hj;
    simpl.
  - eapply filled_weaken; [exact HM|]. intros j' i' _ _ [?|[_ ?]]; [done|lia].
  - eapply filled_weaken.
    + apply IH; [|lia]. apply filled_cell_set; [exact HM|lia|lia|].
      by destruct j.
    + simpl. intros j' i' _ _ [?|[-> ?]]; [by left; left|].
      destruct (decide (j' = j)) as [->|]; [left; by right|right]. lia.
Qed.

Lemma filled_row M (remaining j i : nat) :
  filled M (reached j i) →
  (1 ≤ j ≤ length str2)%nat → (1 ≤ i)%nat →
  (i + remaining = length str1 + 1)%nat →
  filled (row_loop str1 str2 M j i remaining) (reached j (length str1 + 1)).
Proof.
  revert M i. induction remaining as [|remaining IH]; intros M i HM Hj Hi Hr;
    simpl.
  - by replace (length str1 + 1)%nat with i by lia.
  - apply IH; [|done|lia|lia].
    eapply filled_weaken.
    + apply filled_cell_set; [exact HM|lia|lia|].
      destruct HM as (_ & _ & Hcells).
      rewrite !Hcells; [|lia|lia|unfold reached; lia..].
      destruct j as [|j]; [lia|]. destruct i as [|i]; [lia|].
      rewrite distance_S_S. simpl. by rewrite !Nat.sub_0_r.
    + unfold reached. intros j' i' _ _ ?. 
      destruct (decide (j' = j ∧ i' = i)); [by right|left; lia].
Qed.

Lemma filled_rows M (remaining j : nat) :
  filled M (reached j 1) →
  (1 ≤ j)%nat → (j + remaining = length str2 + 1)%nat →
  filled (rows_loop str1 str2 M j remaining) (reached (length str2 + 1) 1).
Proof.
  revert M j. induction remaining as [|remaining IH]; intros M j HM Hj Hr;
    simpl.
  - by replace (length str2 + 1)%nat with j by lia.
  - apply IH; [|lia|lia].
    eapply filled_weaken.
    + apply (filled_row M (length str1) j 1); [done|lia|lia|lia].
    + unfold reached. intros j' i' _ Hi' ?. lia.
Qed.

Lemma levenshteinDistance_distance :
  levenshteinDistance str1 str2
  = distance str1 str2 (length str2) (length str1).
Proof.
  unfold levenshteinDistance.
  set (M0 := replicate (length str2 + 1) (replicate (length str1 + 1) None)).
  assert (filled M0 (fun _ _ => False)) as H0.
  { unfold M0. split_and!; [by rewrite length_replicate| |done].
    apply Forall_replicate. by rewrite length_replicate. }
  apply (filled_first_row _ _ (length str1 + 1) 0) in H0; [|lia].
  apply (filled_first_column _ _ (length str2 + 1) 0) in H0; [|lia].
  assert (filled
            (rows_loop str1 str2
               (first_column_loop
                  (first_row_loop M0 0 (length str1 + 1)) 0
                  (length str2 + 1)) 1 (length str2))
            (reached (length str2 + 1) 1)) as (_ & _ & Hcells).
  { apply filled_rows; [|lia|lia].
    eapply filled_weaken; [exact H0|].
    unfold reached. intros j' i' Hj' Hi' ?. simpl.
    destruct (decide (j' = 0%nat)) as [->|]; [left; right; lia|].
    right. lia. }
  apply Hcells; [lia|lia|]. unfold reached. lia.
Qed.

End TableFacts.

Section DistanceFacts.

Import Levenshtein.

(** X28: the matrix that [levenshteinDistance] fills gives a distance that
    is zero exactly for equal strings, is the same in both directions, is
    at least the difference of the two lengths and at most the greater
    length. *)
Theorem levenshteinDistance_metric (str1 str2 : list Z) :
  (levenshteinDistance str1 str2 = 0 ↔ str1 = str2) ∧
  levenshteinDistance str1 str2 = levenshteinDistance str2 str1 ∧
  Z.abs (Z.of_nat (length str1) - Z.of_nat (length str2))
    ≤ levenshteinDistance str1 str2
    ≤ Z.max (Z.of_nat (length str1)) (Z.of_nat (length str2)).
Proof.
  rewrite !levenshteinDistance_distance. split_and!.
  - rewrite distance_zero by done. by rewrite !firstn_all.
  - apply distance_sym.
  - apply distance_bounds.
  - apply distance_bounds.
Qed.

End DistanceFacts.

Section UniqueFacts.

Implicit Types (elems acc : list value) (x y : value) (h : heap).

Lemma length_Set_fold elems acc :
  (length (fold_left Set_add elems acc) ≤ length acc + length elems)%nat ∧
  (length (fold_left Set_add elems acc) = (length acc + length elems)%nat ↔
   ∀ (j : nat) y, elems !! j = Some y →
     (∀ x, x ∈ acc → same_value_zero y x = false) ∧
     (∀ (i : nat) x, (i < j)%nat → elems !! i = Some x →
                     same_value_zero y x = false)).
Proof.
  revert acc. induction elems as [|y elems IH]; intros acc; simpl.
  - split; [lia|]. split; [by intros _ j y ?|lia].
  - unfold Set_add at 2 4.
    destruct (existsb (same_value_zero y) acc) eqn:Hex.
    + destruct (IH acc) as [Hle _]. split; [lia|]. split; [lia|].
      intros Hall. destruct (Hall 0%nat y eq_refl) as [Hacc _].
      apply existsb_exists in Hex as (x & Hx & Hsame).
      rewrite Hacc in Hsame; [done|by apply list_elem_of_In].
    + destruct (IH (acc ++ [y])) as [Hle Hiff].
      rewrite length_app in *. simpl in *. split; [lia|].
      assert (∀ x, x ∈ acc → same_value_zero y x = false) as Hy.
      { intros x Hx. destruct (same_value_zero y x) eqn:Hsame; [|done].
        assert (existsb (same_value_zero y) acc = true) as Hex'.
        { apply existsb_exists. exists x.
          split; [by apply list_elem_of_In|done]. }
        congruence. }
      split.
      * intros Hlen. assert (length (fold_left Set_add elems (acc ++ [y]))
                             = (length acc + 1 + length elems)%nat) as Hlen'
          by lia.
        pose proof (proj1 Hiff Hlen') as Hall. clear Hlen'.
        intros [|j] y'; simpl.
        -- intros [= <-]. split; [done|]. intros; lia.
        -- intros Hy'. destruct (Hall j y' Hy') as [Hacc Hearlier]. split.
           ++ intros x Hx. apply Hacc, elem_of_app. by left.
           ++ intros [|i] x Hi; simpl.
              ** intros [= <-]. apply Hacc, elem_of_app. right. by left.
              ** apply Hearlier. lia.
      * intros Hall.
        assert (length (fold_left Set_add elems (acc ++ [y]))
                = (length acc + 1 + length elems)%nat) as Hlen'; [|lia].
        apply Hiff. intros j y' Hy'.
        destruct (Hall (S j) y' Hy') as [Hacc Hearlier]. split.
        -- intros x [Hx|Hx]%elem_of_app.
           ++ by apply Hacc.
           ++ apply list_elem_of_singleton in Hx as ->.
              apply (Hearlier 0%nat); [lia|done].
        -- intros i x Hi Hx. apply (Hearlier (S i)); [lia|done].
Qed.

(** X29: on an array, [hasUniqueValues] answers true exactly when no two
    elements at different indices are the same by the comparison of [Set]
    (SameValueZero: [NaN] is the same as [NaN], objects are compared by
    identity). *)
Theorem hasUniqueValues_distinct h (l : nat) elems :
  h !! l = Some (OArray elems) →
  Validation.hasUniqueValues h (VRef l) = true ↔
  ∀ (i j : nat) x y, (i < j)%nat → elems !! i = Some x → elems !! j = Some y →
                     same_value_zero y x = false.
Proof.
  intros Hl. unfold Validation.hasUniqueValues, Validation.isArray.
  rewrite Hl. simpl. rewrite Nat.eqb_eq. unfold Set_of.
  destruct (length_Set_fold elems []) as [_ Hiff]. simpl in Hiff.
  rewrite Hiff. split.
  - intros Hall i j x y Hij Hx Hy.
    destruct (Hall j y Hy) as [_ Hearlier]. by apply (Hearlier i).
  - intros Hall j y Hy. split; [by intros x ?%elem_of_nil|].
    intros i x Hij Hx. by apply (Hall i j).
Qed.

End UniqueFacts.

Section UniqueExamples.

(** X29 at work: an array that holds [NaN] twice is not one of unique
    values. *)
Lemma hasUniqueValues_distinct_witness :
  let elems := [VNum Num.NaN; VNum (Num.of_Z 1); VNum Num.NaN] in
  Validation.hasUniqueValues [OArray elems] (VRef 0) = true ↔
  ∀ (i j : nat) x y, (i < j)%nat → elems !! i = Some x → elems !! j = Some y →
                     same_value_zero y x = false.
Proof.
  apply (hasUniqueValues_distinct
           [OArray [VNum Num.NaN; VNum (Num.of_Z 1); VNum Num.NaN]] 0
           [VNum Num.NaN; VNum (Num.of_Z 1); VNum Num.NaN]).
  reflexivity.
Defined.

End UniqueExamples.

Section ResultFacts.

Context {V : Type}.
Implicit Types (value : V) (rules : list (Validation.Rule V)).
Implicit Types (errors : list string).

Lemma validate_loop_spec value rules errors :
  Validation.validate_loop value rules errors
  = errors
    ++ (Validation.message
        <$> List.filter (fun rule => negb (Validation.test rule value)) rules).
Proof.
  revert errors. induction rules as [|rule rules IH]; intros errors; simpl.
  - by rewrite app_nil_r.
  - destruct (Validation.test rule value); simpl; rewrite IH; [done|].
    by rewrite <- app_assoc.
Qed.

(** X30: [validate] returns the messages of the rules whose test fails, in
    the order of the rules, and is valid exactly when every test passes;
    combining the results of two lists of rules gives the result of
    validating with the rules of both, one list after the other. *)
Theorem validate_combine value rules rules' :
  Validation.errors (Validation.validate value rules)
  = Validation.message
    <$> List.filter (fun rule => negb (Validation.test rule value)) rules ∧
  Validation.isValid (Validation.validate value rules)
  = forallb (fun rule => Validation.test rule value) rules ∧
  Validation.combineValidations
    [Validation.validate value rules; Validation.validate value rules']
  = Validation.validate value (rules ++ rules').
Proof.
  assert (∀ rs,
            (length (Validation.message
                     <$> List.filter
                           (fun rule => negb (Validation.test rule value)) rs)
             =? 0)%nat
            = forallb (fun rule => Validation.test rule value) rs) as Hvalid.
  { induction rs as [|rule rs IH]; simpl; [done|].
    by destruct (Validation.test rule value). }
  unfold Validation.validate, Validation.combineValidations. simpl.
  rewrite !validate_loop_spec. simpl. split_and!; [done|apply Hvalid|].
  rewrite !Hvalid, app_nil_r, andb_true_r.
  rewrite List.filter_app, fmap_app, forallb_app. done.
Qed.

End ResultFacts.
